(** * AutoPVCBB: the DocX -> LaTeX transformation pipeline

    A shallow embedding of the conversion core of the repository
    (utils.py, latex_generator.py, converter.py, text_corrector.py,
    config.py) and the properties of its specification.

    Conventions of the embedding.
    - A Python [str] is a list of Unicode code points ([list N]); string
      constants of the source are written [u "..."], the UTF-8 decoding of
      a literal.
    - The parts of the Python runtime that are tables of the Unicode
      standard or library engines ([str.upper], [\d], [re.sub], [pathlib])
      are the fields of the class [Runtime]; the code is embedded over any
      instance, and [Latin1] is an instance to run examples with.
    - A Python exception that the code lets escape is the [Raise] result
      of the error monad [result].
    - A Python [float] is a primitive binary64 float.
    - Paragraph objects are shared and mutated in place (the correction
      pass rewrites run texts of paragraphs referenced by elements), so
      elements hold the index of their paragraph in [doc.paragraphs] and
      the paragraphs live in a store. *)

From Stdlib Require Import ZArith NArith Bool Lia Ascii String DecimalString.
From Stdlib Require Import Floats.PrimFloat Floats.SpecFloat Floats.FloatOps.
From Stdlib Require Import Floats.FloatAxioms.
From Stdlib Require Import List.
Import ListNotations.

Set Warnings "-inexact-float".
Local Open Scope list_scope.

(* ================================================================= *)
(** ** Python values: exceptions, strings *)

Inductive exn : Set :=
| IndexError
| UnboundLocalError
| ValueError
| ZeroDivisionError
| OverflowError
| ReError.

Inductive result (A : Type) : Type :=
| Ok (a : A)
| Raise (e : exn).
Arguments Ok {A} a.
Arguments Raise {A} e.

Definition bind {A B : Type} (m : result A) (k : A -> result B) : result B :=
  match m with
  | Ok a => k a
  | Raise e => Raise e
  end.

Notation "x <- m ;; k" := (bind m (fun x => k))
  (at level 61, m at next level, right associativity).
Notation "' p <- m ;; k" := (bind m (fun x => match x with p => k end))
  (at level 61, p pattern, m at next level, right associativity).

(** A [for] loop whose body may raise: the state is threaded through the
    items from left to right and the first exception ends the loop. *)
Fixpoint for_each {S A : Type} (body : S -> A -> result S) (items : list A)
         (s : S) : result S :=
  match items with
  | [] => Ok s
  | x :: items' => s' <- body s x ;; for_each body items' s'
  end.

Module Py.

(** A character is a Unicode code point. *)
Definition char := N.
Definition str := list char.

(** UTF-8 decoding of a literal of the development. *)
Fixpoint utf8_decode (pending : nat) (acc : N) (bs : list N) : str :=
  match bs with
  | [] => []
  | b :: bs' =>
      match pending with
      | O =>
          if (b <? 128)%N then b :: utf8_decode 0 0%N bs'
          else if (b <? 224)%N then utf8_decode 1 (b - 192)%N bs'
          else if (b <? 240)%N then utf8_decode 2 (b - 224)%N bs'
          else utf8_decode 3 (b - 240)%N bs'
      | S O => (acc * 64 + (b - 128))%N :: utf8_decode 0 0%N bs'
      | S k => utf8_decode k (acc * 64 + (b - 128))%N bs'
      end
  end.

Definition u (s : string) : str :=
  utf8_decode 0 0%N (map N_of_ascii (list_ascii_of_string s)).

(** The line feed, written [\n] in the source. *)
Definition nl : str := [10%N].

Definition chr_eqb (a b : char) : bool := N.eqb a b.
Arguments chr_eqb (a b)%_N.

Fixpoint str_eqb (a b : str) : bool :=
  match a, b with
  | [], [] => true
  | x :: a', y :: b' => chr_eqb x y && str_eqb a' b'
  | _, _ => false
  end.

(** [t.startswith(p)] *)
Fixpoint startswith (p t : str) : bool :=
  match p, t with
  | [], _ => true
  | x :: p', y :: t' => chr_eqb x y && startswith p' t'
  | _ :: _, [] => false
  end.

(** [t.endswith(p)] *)
Definition endswith (p t : str) : bool := startswith (rev p) (rev t).

(** [sub in t] *)
Fixpoint contains (sub t : str) : bool :=
  startswith sub t ||
  match t with
  | [] => false
  | _ :: t' => contains sub t'
  end.

(** [c in t] for a character. *)
Definition mem (c : char) (t : str) : bool := existsb (chr_eqb c) t.

(** [t.replace(old, new)]: the occurrences of [old] are replaced from left
    to right without overlap; [skip] counts the characters of a matched
    occurrence still to pass. *)
Fixpoint replace_from (old new : str) (skip : nat) (t : str) : str :=
  match t with
  | [] => []
  | c :: t' =>
      match skip with
      | S k => replace_from old new k t'
      | O =>
          if startswith old t
          then new ++ replace_from old new (length old - 1) t'
          else c :: replace_from old new 0 t'
      end
  end.

Definition replace (old new t : str) : str :=
  match old with
  | [] => new ++ flat_map (fun c => c :: new) t
  | _ :: _ => replace_from old new 0 t
  end.

(** [t.replace(old, new, 1)] *)
Fixpoint replace_first (old new t : str) : str :=
  if startswith old t then new ++ skipn (length old) t
  else match t with
       | [] => []
       | c :: t' => c :: replace_first old new t'
       end.

(** [t.split(sep, 1)] for a one-character [sep]: [Some (before, after)]
    when the list has two parts, [None] when [sep] does not occur. *)
Fixpoint split_once (sep : char) (t : str) : option (str * str) :=
  match t with
  | [] => None
  | c :: t' =>
      if chr_eqb c sep then Some ([], t')
      else match split_once sep t' with
           | Some (a, b) => Some (c :: a, b)
           | None => None
           end
  end.

(** [t.split(sep)] for a non-empty [sep]; [cur] is the current piece,
    reversed. *)
Fixpoint split_from (sep : str) (skip : nat) (cur : str) (t : str) : list str :=
  match t with
  | [] => [rev cur]
  | c :: t' =>
      match skip with
      | S k => split_from sep k cur t'
      | O =>
          if startswith sep t
          then rev cur :: split_from sep (length sep - 1) [] t'
          else split_from sep 0 (c :: cur) t'
      end
  end.

Definition split (sep t : str) : result (list str) :=
  match sep with
  | [] => Raise ValueError
  | _ :: _ => Ok (split_from sep 0 [] t)
  end.

(** [sep.join(l)] *)
Fixpoint join (sep : str) (l : list str) : str :=
  match l with
  | [] => []
  | [x] => x
  | x :: l' => x ++ sep ++ join sep l'
  end.

(** [l.index(x)] on a list of strings that holds [x]: the position of the
    first equal entry (the length of the list when there is none). *)
Fixpoint index (x : str) (l : list str) : nat :=
  match l with
  | [] => 0
  | y :: l' => if str_eqb y x then 0 else S (index x l')
  end.

Fixpoint dropwhile (p : char -> bool) (t : str) : str :=
  match t with
  | [] => []
  | c :: t' => if p c then dropwhile p t' else t
  end.

(** Decimal writing of an integer, [str(n)]. *)
Definition of_Z (z : Z) : str :=
  map N_of_ascii (list_ascii_of_string (DecimalString.NilZero.string_of_int (Z.to_int z))).

(** The Python runtime: Unicode tables and library engines. *)
Class Runtime : Type := {
  (** [c.isspace()]: the characters [str.strip()] removes *)
  isspace : char -> bool;
  (** the characters the regular expression [\d] matches *)
  isdecimal : char -> bool;
  (** the value [int()] gives a decimal digit *)
  digit_value : char -> Z;
  (** [c.upper()] of a one-character string *)
  upper : char -> str;
  (** [c.isupper()] of a one-character string *)
  isupper : char -> bool;
  (** [s.capitalize()] *)
  capitalize : str -> str;
  (** the spans [(start, stop)] of the matches [re.sub(pattern, _, text,
      flags=re.IGNORECASE)] replaces, from left to right; [None] when
      [re] refuses the pattern and raises [re.error] *)
  re_spans_ignorecase : str -> str -> option (list (nat * nat));
  (** [pathlib.Path(p).name] *)
  path_name : str -> str
}.

Section WithRuntime.
Context {R : Runtime}.

Definition lstrip (t : str) : str := dropwhile isspace t.
Definition rstrip (t : str) : str := rev (dropwhile isspace (rev t)).
Definition strip (t : str) : str := rstrip (lstrip t).

(** [int(s)] on a string of decimal digits. *)
Definition int_of_digits (s : str) : Z :=
  fold_left (fun acc c => (acc * 10 + digit_value c)%Z) s 0%Z.

(** [re.sub(pattern, f, text, flags=re.IGNORECASE)], where [f] receives
    [match.group(0)] and may raise; [pos] is the position of the head of
    [t] in the text. *)
Fixpoint sub_spans (f : str -> result str) (spans : list (nat * nat))
         (pos : nat) (t : str) : result str :=
  match spans with
  | [] => Ok t
  | (a, b) :: spans' =>
      r <- f (firstn (b - a) (skipn (a - pos) t)) ;;
      rest <- sub_spans f spans' b (skipn (b - pos) t) ;;
      Ok (firstn (a - pos) t ++ r ++ rest)
  end.

Definition re_sub_ignorecase (pattern : str) (f : str -> result str) (t : str)
  : result str :=
  match re_spans_ignorecase pattern t with
  | Some spans => sub_spans f spans 0 t
  | None => Raise ReError
  end.

End WithRuntime.

End Py.
Export Py.

(* ================================================================= *)
(** ** Python floats and their conversions *)

Module PyFloat.

(** [float(z)]: the nearest binary64 value, ties to even;
    [None] is Python's [OverflowError]. *)
Definition of_int (z : Z) : option float :=
  let f := SF2Prim (binary_normalize 53 1024 z 0 false) in
  if PrimFloat.is_infinity f then None else Some f.

(** [a / b] on two integers that [float] represents exactly (lengths). *)
Definition true_div (a b : Z) : float :=
  PrimFloat.div (SF2Prim (binary_normalize 53 1024 a 0 false))
                (SF2Prim (binary_normalize 53 1024 b 0 false)).

(** [n * x] for an integer [n] and a float [x]. *)
Definition int_mul (n : Z) (x : float) : float :=
  PrimFloat.mul (SF2Prim (binary_normalize 53 1024 n 0 false)) x.

(** [int(x)]: truncation towards zero; not defined on infinities and
    NaN, where Python raises. *)
Definition to_int (x : float) : result Z :=
  match Prim2SF x with
  | S754_zero _ => Ok 0%Z
  | S754_finite s m e =>
      let a := match e with
               | Zneg k => Z.shiftr (Zpos m) (Zpos k)
               | _ => Z.shiftl (Zpos m) e
               end in
      Ok (if s then (- a)%Z else a)
  | S754_infinity _ => Raise OverflowError
  | S754_nan => Raise ValueError
  end.

(** The truth value of a float: [x != 0.0]. *)
Definition truthy (x : float) : bool := negb (PrimFloat.eqb x 0%float).

(** [x > 0] *)
Definition gt_zero (x : float) : bool := PrimFloat.ltb 0%float x.

(** The nearest integer to [m * 100 * 2^e], ties to even. *)
Definition round_hundredths (m : positive) (e : Z) : Z :=
  match e with
  | Zneg k =>
      let num := (Zpos m * 100)%Z in
      let den := Z.shiftl 1 (Zpos k) in
      let q := (num / den)%Z in
      let r := (num mod den)%Z in
      if (den <? 2 * r)%Z then (q + 1)%Z
      else if (den =? 2 * r)%Z then (if Z.odd q then q + 1 else q)%Z
      else q
  | _ => (Z.shiftl (Zpos m) e * 100)%Z
  end.

Definition two_digits (z : Z) : str :=
  if (z <? 10)%Z then u "0" ++ of_Z z else of_Z z.

(** [f"{x:.2f}"] *)
Definition format_2f (x : float) : str :=
  match Prim2SF x with
  | S754_zero s => if s then u "-0.00" else u "0.00"
  | S754_infinity s => if s then u "-inf" else u "inf"
  | S754_nan => u "nan"
  | S754_finite s m e =>
      let q := round_hundredths m e in
      (if s then u "-" else []) ++ of_Z (q / 100) ++ u "." ++ two_digits (q mod 100)
  end.

End PyFloat.

(* ================================================================= *)
(** ** The document (python-docx objects) *)

Module Docx.

(** A run: a text fragment with its style flags. *)
Record run : Type := {
  run_text : str;
  bold : bool;
  italic : bool
}.

(** A paragraph object: its runs ([para.runs], the runs that are children
    of the paragraph) and the texts of its hyperlinks, which [para.runs]
    leaves out: [links] holds at position [i] the text of the hyperlinks
    that come just before the run of index [i], and from the position of
    the number of the runs on, the hyperlinks after the last run. A
    paragraph without hyperlink has no [links]. This is the paragraph of
    python-docx 1.0 and later, where [para.text] holds the text of the
    hyperlinks; before 1.0 it left them out, as [para.runs] does. *)
Record paragraph : Type := { runs : list run; links : list str }.

(** The texts of the runs and of the hyperlinks in the order of the
    document. *)
Fixpoint weave (rs : list run) (ls : list str) : str :=
  match rs with
  | [] => concat ls
  | r :: rs' => hd [] ls ++ run_text r ++ weave rs' (tl ls)
  end.

(** [para.text]: the texts of the runs and of the hyperlinks of the
    paragraph, concatenated in the order of the document. *)
Definition para_text (p : paragraph) : str := weave (runs p) (links p).

(** A table: rows of cells, a cell holding paragraphs. *)
Definition cell := list paragraph.
Definition table := list (list cell).

(** What the walker reads in the XML of a [w:p] element: the results of
    [re.findall] for [r:embed="(rId[0-9]+)"], [cx="(\d+)"], [cy="(\d+)"]. *)
Record par_xml : Type := {
  rids : list str;
  cx_list : list Z;
  cy_list : list Z
}.

(** A child of [doc.element.body]: a table element, a paragraph element
    (with the index in [doc.paragraphs] of the paragraph object it
    belongs to), or anything else. *)
Inductive body_element : Type :=
| Tbl
| P (xml : par_xml) (para : nat)
| Other.

Record document : Type := {
  body : list body_element;
  paragraphs : list paragraph;
  tables : list table
}.

End Docx.
Export Docx.

(* ================================================================= *)
(** ** config.py *)

Record Config : Type := {
  BATCH_SIZE : nat;
  BATCH_SEPARATOR : str;
  LATEX_PACKAGES : list str;
  LATEX_SETTINGS : list str;
  ABBREVIATIONS : list (str * str);
  LATEX_SPECIAL_CHARS : list (str * str);
  DEFAULT_LOGO_PATH : str;
  CORRECTION_WHITELIST : list str
}.

(** The built-in defaults of [Config.__init__]; a dictionary is the list
    of its items in insertion order. *)
Definition default_config : Config := {|
  BATCH_SIZE := 100;
  BATCH_SEPARATOR := u "#SEP#";
  LATEX_PACKAGES :=
    [ u "\usepackage[T1]{fontenc}";
      u "\usepackage[utf8]{inputenc}";
      u "\usepackage[margin=1.2in]{geometry}";
      u "\geometry{a4paper}";
      u "\usepackage{fancyhdr}";
      u "\usepackage{multicol}";
      u "\usepackage{graphicx}";
      u "\usepackage{float}";
      u "\usepackage{varwidth}";
      u "\usepackage{textcomp}";
      u "\usepackage{csquotes}";
      u "\usepackage[gen]{eurosym}" ];
  LATEX_SETTINGS :=
    [ u "\pagestyle{fancy}";
      u "\setlength{\headheight}{22.5pt}";
      u "\setlength{\parindent}{0pt}";
      u "\setlength{\parskip}{1em}" ];
  ABBREVIATIONS :=
    [ (u "\bitw\b", u "interview");
      (u "\bdeleg\b", u "délégation");
      (u "\bdéleg\b", u "délégation");
      (u "\bdélég\b", u "délégation");
      (u "\bqqch\b", u "quelque chose");
      (u "\bqqun\b", u "quelqu'un");
      (u "\bpcq\b", u "parce que");
      (u "\bprez\b", u "président");
      (u "\btrez\b", u "trésorier");
      (u "\bvp\b", u "vice-président") ];
  LATEX_SPECIAL_CHARS :=
    [ (u "&", u "\&");
      (u "%", u "\%");
      (u "$", u "\$");
      (u "#", u "\#");
      (u "_", u "\_");
      (u "{", u "\{");
      (u "}", u "\}");
      (u "~", u "\textasciitilde{}");
      (u "^", u "\textasciicircum{}");
      (u "€", u "\euro{}");
      (u "<", u "\textless{}");
      (u ">", u "\textgreater{}");
      (u "°", u "\textdegree{}") ];
  DEFAULT_LOGO_PATH := u "../logo.png";
  CORRECTION_WHITELIST :=
    [ u "Cm !"; u "Cs !"; u "CM !"; u "CS !"; u "F."; u "le X"; u "CBB";
      u "io vivat"; u "PGCA"; u "CBBQ"; u "CMF"; u "XX"; u "XXX"; u "XXXX";
      u "FM"; u "tapette"; u "réunion ex"; u "band"; u "peye"; u "Sam’saoule" ]
|}.

(** *** The editable resources of [Config] *)

Module ConfigFile.

(** What the readers find at the path of a resource: no file, a file
    whose reading raises, or the lines of the file. *)
Inductive file : Type :=
| Missing
| Unreadable
| Lines (lines : list str).

(** [d[k] = v] on a dictionary: the value of an existing key is replaced
    at its place, a new key comes last. *)
Fixpoint dict_set (d : list (str * str)) (k v : str) : list (str * str) :=
  match d with
  | [] => [(k, v)]
  | (k', v') :: d' =>
      if str_eqb k' k then (k', v) :: d' else (k', v') :: dict_set d' k v
  end.

(** [t.split(sep, 1)] for a non-empty [sep] that occurs in [t]: the text
    before the first occurrence and the text after it. *)
Fixpoint partition (sep t : str) : option (str * str) :=
  if startswith sep t then Some ([], skipn (length sep) t)
  else match t with
       | [] => None
       | c :: t' =>
           match partition sep t' with
           | Some (a, b) => Some (c :: a, b)
           | None => None
           end
       end.

Section WithRuntime.
Context {R : Runtime}.

(** The body of the loop of [_read_kv_file] over the lines. *)
Definition read_kv_line (result : list (str * str)) (line : str)
  : list (str * str) :=
  let line := strip line in
  match line with
  | [] => result
  | _ :: _ =>
      if startswith (u "#") line then result
      else
        let parts :=
          if contains (u "=>") line then partition (u "=>") line
          else if contains (u ":") line then partition (u ":") line
          else if contains (u "=") line then partition (u "=") line
          else None in
        match parts with
        | Some (left_, right_) => dict_set result (strip left_) (strip right_)
        | None => result
        end
  end.

Definition _read_kv_file (f : file) (default : list (str * str))
  : list (str * str) :=
  match f with
  | Missing => default
  | Unreadable => default
  | Lines lines =>
      match fold_left read_kv_line lines [] with
      | [] => default
      | result => result
      end
  end.

(** The body of the loop of [_read_list_file] over the lines. *)
Definition read_list_line (result : list str) (line : str) : list str :=
  let line := strip line in
  match line with
  | [] => result
  | _ :: _ => if startswith (u "#") line then result else result ++ [line]
  end.

Definition _read_list_file (f : file) (default : list str) : list str :=
  match f with
  | Missing => default
  | Unreadable => default
  | Lines lines =>
      match fold_left read_list_line lines [] with
      | [] => default
      | result => result
      end
  end.

End WithRuntime.
End ConfigFile.

(* ================================================================= *)
(** ** utils.py *)

Module Utils.
Section WithRuntime.
Context {R : Runtime}.
Variable config : Config.

(** *** class TextProcessor *)

Definition escape_latex (text : str) : str :=
  match text with
  | [] => text
  | _ :: _ =>
      fold_left (fun text item => replace (fst item) (snd item) text)
                (LATEX_SPECIAL_CHARS config) text
  end.

(** [text.endswith((".", "?", "!"))] *)
Definition ends_with_punctuation (text : str) : bool :=
  endswith (u ".") text || endswith (u "?") text || endswith (u "!") text.

(** The local function [replace_match] of [replace_abbreviations], on
    [match.group(0)]. *)
Definition replace_match (replacement word : str) : result str :=
  match word with
  | [] => Raise IndexError
  | c :: _ => Ok (if isupper c then capitalize replacement else replacement)
  end.

(** [replace_abbreviations(text, type)]; [begin] and [end_] say whether
    "begin" and "end" are in [type] (both by default). *)
Definition replace_abbreviations (text : str) (begin end_ : bool) : result str :=
  match text with
  | [] => Ok text
  | _ :: _ =>
      let text :=
        if end_ && negb (ends_with_punctuation (rstrip text))
        then rstrip text ++ u "." else text in
      let text :=
        match text with
        | c :: rest => if begin then upper c ++ rest else text
        | [] => text
        end in
      for_each (fun text item =>
                  re_sub_ignorecase (fst item) (replace_match (snd item)) text)
               (ABBREVIATIONS config) text
  end.

Definition capitalize_first_letter (text : str) : str :=
  match text with
  | c :: rest => upper c ++ rest
  | [] => text
  end.

Definition ensure_punctuation (text : str) : str :=
  match text with
  | [] => text
  | _ :: _ =>
      if negb (ends_with_punctuation (rstrip text))
      then rstrip text ++ u "." else text
  end.

(** *** class DocumentParser *)

Record title_components : Type := {
  numero_reunion : str;
  anno : str;
  annee : str;
  mois : str;
  jour : str;
  date_formatee : str
}.

(** [first_some f l]: the first success of [f] over [l], the way a
    regular expression backtracks over the ways to match a prefix. *)
Fixpoint first_some {A B : Type} (f : A -> option B) (l : list A) : option B :=
  match l with
  | [] => None
  | x :: l' => match f x with
               | Some b => Some b
               | None => first_some f l'
               end
  end.

(** The ways to read [p+] at the head of [t], longest first, each with
    the rest of the text. *)
Fixpoint runs_of (p : char -> bool) (t : str) : list (str * str) :=
  match t with
  | [] => []
  | c :: t' =>
      if p c
      then map (fun dr => (c :: fst dr, snd dr)) (runs_of p t') ++ [([c], t')]
      else []
  end.

(** [p{n}] at the head of [t]. *)
Fixpoint exactly (p : char -> bool) (n : nat) (t : str) : option (str * str) :=
  match n with
  | O => Some ([], t)
  | S n' =>
      match t with
      | c :: t' =>
          if p c
          then match exactly p n' t' with
               | Some (d, r) => Some (c :: d, r)
               | None => None
               end
          else None
      | [] => None
      end
  end.

(** A literal at the head of [t]. *)
Definition lit (l t : str) : option str :=
  if startswith l t then Some (skipn (length l) t) else None.

(** The class [[IVXLCDM]]. *)
Definition is_roman (c : char) : bool := mem c (u "IVXLCDM").

(** [re.match(r"PV RC (\d+) - Anno (LIX|[IVXLCDM]+) - (\d{4})-(\d{2})-(\d{2})", title)];
    [None] stands for the [ValueError] that [parse_title] raises. *)
Definition parse_title (title : str) : option title_components :=
  match lit (u "PV RC ") title with
  | None => None
  | Some t1 =>
    first_some (fun nr =>
      match lit (u " - Anno ") (snd nr) with
      | None => None
      | Some t2 =>
        first_some (fun ar =>
          match lit (u " - ") (snd ar) with
          | None => None
          | Some t3 =>
            match exactly isdecimal 4 t3 with
            | None => None
            | Some (y, t4) =>
              match lit (u "-") t4 with
              | None => None
              | Some t5 =>
                match exactly isdecimal 2 t5 with
                | None => None
                | Some (m, t6) =>
                  match lit (u "-") t6 with
                  | None => None
                  | Some t7 =>
                    match exactly isdecimal 2 t7 with
                    | None => None
                    | Some (d, _) =>
                        Some {| numero_reunion := fst nr;
                                anno := fst ar;
                                annee := y;
                                mois := m;
                                jour := d;
                                date_formatee := d ++ u "/" ++ m ++ u "/" ++ y |}
                    end
                  end
                end
              end
            end
          end)
          ((match lit (u "LIX") t2 with
            | Some r => [(u "LIX", r)]
            | None => []
            end) ++ runs_of is_roman t2)
      end)
      (runs_of isdecimal t1)
  end.

Definition calculate_academic_year (year month : str) : str :=
  let year_int := int_of_digits year in
  let month_int := int_of_digits month in
  if (6 <? month_int)%Z
  then year ++ u " - " ++ of_Z (year_int + 1)
  else of_Z (year_int - 1) ++ u " - " ++ year.

(** [re.match(r"^\d+\)", text)] *)
Definition is_section_header (text : str) : bool :=
  existsb (fun dr => startswith (u ")") (snd dr)) (runs_of isdecimal text).

Definition is_ascii_letter (c : char) : bool :=
  ((97 <=? c) && (c <=? 122) || (65 <=? c) && (c <=? 90))%N.

(** [re.match(r"^[a-zA-Z]\)", text)] *)
Definition is_subsection_header (text : str) : bool :=
  match text with
  | c :: rest => is_ascii_letter c && startswith (u ")") rest
  | [] => false
  end.

(** [text.split(")", 1)[1]] raises [IndexError] on a text without [")"]. *)
Definition extract_section_title (text : str) : result str :=
  if is_section_header text || is_subsection_header text
  then match split_once 41%N text with
       | Some (_, after) => Ok (strip after)
       | None => Raise IndexError
       end
  else Ok text.

(** The loop of [extract_sections_list]; [section_title] is the local
    variable of that name, unbound ([None]) until a section header has
    been seen. *)
Fixpoint scan_sections (paragraphs : list paragraph)
         (sections subsections : list str) (section_title : option str)
  : result (list str * list str) :=
  match paragraphs with
  | [] => Ok (sections, subsections)
  | para :: rest =>
      let text := strip (para_text para) in
      if is_section_header text then
        title <- extract_section_title text ;;
        scan_sections rest (sections ++ [title]) subsections (Some title)
      else if is_subsection_header text then
        subsection_title <- extract_section_title text ;;
        match section_title with
        | None => Raise UnboundLocalError
        | Some owner =>
            scan_sections rest sections
                          (subsections ++ [owner; subsection_title]) section_title
        end
      else scan_sections rest sections subsections section_title
  end.

Definition extract_sections_list (paragraphs : list paragraph)
  : result (list str * list str) :=
  scan_sections paragraphs [] [] None.

(** *** class TableProcessor *)

Definition wrap (command body : str) : str := command ++ u "{" ++ body ++ u "}".

(** The body of the loop over [para.runs] in [_format_paragraph]. *)
Definition format_run (latex_text : str) (r : run) : str :=
  let run_text := escape_latex (strip (run_text r)) in
  let run_text := if bold r then wrap (u "\textbf") run_text else run_text in
  let run_text := if italic r then wrap (u "\textit") run_text else run_text in
  match run_text with
  | [] => latex_text
  | _ :: _ => latex_text ++ run_text ++ u " "
  end.

Definition _format_paragraph (para : paragraph) : str :=
  strip (fold_left format_run (runs para) []).

Definition cell_text (c : cell) : str :=
  match c with
  | [] => []
  | _ :: _ =>
      join (u " ")
           (filter (fun t => negb (str_eqb t [])) (map _format_paragraph c))
  end.

Definition extract_table_data (t : table) : list (list str) :=
  map (fun row => map cell_text row) t.

End WithRuntime.

(** [row[i]] *)
Definition row_get (row : list str) (i : nat) : result str :=
  match nth_error row i with
  | Some c => Ok c
  | None => Raise IndexError
  end.

(** [all(row[col1] == row[col2] for row in table_data)] *)
Fixpoint all_equal (col1 col2 : nat) (table_data : list (list str)) : result bool :=
  match table_data with
  | [] => Ok true
  | row :: rest =>
      a <- row_get row col1 ;;
      b <- row_get row col2 ;;
      if str_eqb a b then all_equal col1 col2 rest else Ok false
  end.

(** The two nested loops that fill [columns_to_remove]; the set is only
    added to and tested for membership, and is kept as a list. *)
Definition duplicate_columns (num_cols : nat) (table_data : list (list str))
  : result (list nat) :=
  for_each (fun columns_to_remove col1 =>
    for_each (fun columns_to_remove col2 =>
                dup <- all_equal col1 col2 table_data ;;
                Ok (if dup then col2 :: columns_to_remove else columns_to_remove))
             (seq (col1 + 1) (num_cols - (col1 + 1))) columns_to_remove)
    (seq 0 (num_cols - 1)) [].

Definition in_set (i : nat) (s : list nat) : bool := existsb (Nat.eqb i) s.

(** [[cell for i, cell in enumerate(row) if i not in columns_to_remove]];
    [i] is the index of the head of [row]. *)
Fixpoint filter_columns (columns_to_remove : list nat) (i : nat) (row : list str)
  : list str :=
  match row with
  | [] => []
  | c :: row' =>
      if in_set i columns_to_remove
      then filter_columns columns_to_remove (S i) row'
      else c :: filter_columns columns_to_remove (S i) row'
  end.

Definition remove_duplicate_columns (table_data : list (list str))
  : result (list (list str)) :=
  match table_data with
  | [] => Ok table_data
  | first :: _ =>
      if length first <=? 1 then Ok table_data
      else
        let num_cols := length first in
        columns_to_remove <- duplicate_columns num_cols table_data ;;
        Ok (map (filter_columns columns_to_remove 0) table_data)
  end.

End Utils.

(* ================================================================= *)
(** ** latex_generator.py *)

Module LatexGenerator.
Import Utils.
Section WithRuntime.
Context {R : Runtime}.
Variable config : Config.

Definition generate_document_header : str :=
  join nl ([u "\documentclass{article}"]
             ++ LATEX_PACKAGES config
             ++ LATEX_SETTINGS config
             ++ [u "\begin{document}" ++ nl]).

Definition generate_document_footer : str := u "\end{document}" ++ nl.

(** The [ValueError] of [parse_title] is caught here. *)
Definition generate_title_header (title : str) : str :=
  match parse_title title with
  | Some components =>
      let annee_univ :=
        calculate_academic_year (annee components) (mois components) in
      u "\fancyhead[L]{CBB - Anno " ++ anno components ++ u " \hfill "
        ++ annee_univ ++ u " " ++ nl ++ nl ++ u "} "
        ++ u "\fancyhead[R]{Réunion Comité n° " ++ numero_reunion components
        ++ u " " ++ u "\hfill " ++ date_formatee components ++ u "}"
  | None =>
      u "\fancyhead[C]{" ++ escape_latex config title ++ u "}"
  end.

Definition generate_title_section (title : str) : str :=
  let escaped_title := escape_latex config title in
  u "\begin{center}" ++ nl
    ++ u "\LARGE \textbf{" ++ escaped_title ++ u "}\\ " ++ nl
    ++ u "\end{center}" ++ nl ++ nl.

(** The [while] loop of [generate_toc] for one section: while the list is
    not empty and its head starts with [section], the head is popped and
    dropped, and the next entry is popped and listed. It returns the lines
    added and the list as the loop leaves it; [pop(0)] on an empty list
    raises [IndexError]. *)
Fixpoint attach_subsections (section : str) (subsections : list str)
  : result (list str * list str) :=
  match subsections with
  | [] => Ok ([], [])
  | head :: popped =>
      if startswith section head then
        match popped with
        | [] => Raise IndexError
        | sub :: rest =>
            let escaped_sub := escape_latex config sub in
            '(lines, remaining) <- attach_subsections section rest ;;
            Ok ((u "\hspace*{0.8cm} - \textbf{" ++ escaped_sub ++ u "}\\ ") :: lines,
                remaining)
        end
      else Ok ([], subsections)
  end.

(** The [for] loop of [generate_toc] over the sections: the lines so far
    and the list [subsections], which the loop consumes in place. *)
Definition toc_section (state : list str * list str) (section : str)
  : result (list str * list str) :=
  let '(lines, subsections) := state in
  let escaped_section := escape_latex config section in
  let escaped_section := capitalize_first_letter escaped_section in
  '(sub_lines, remaining) <- attach_subsections section subsections ;;
  Ok (lines ++ [u "\textbf{- " ++ escaped_section ++ u "}\\ "] ++ sub_lines, remaining).

(** [generate_toc(sections, subsections)]: the markup, and the list
    object [subsections] as the call leaves it for its caller. *)
Definition generate_toc (sections subsections : list str)
  : result (str * list str) :=
  match sections with
  | [] => Ok ([], subsections)
  | _ :: _ =>
      let lines :=
        [ u "\begin{center}";
          u "\section*{\hspace{-1.5cm}Ordre du jour}";
          u "\hspace*{-0.5cm}\begin{varwidth}{\textwidth}" ] in
      '(lines, remaining) <- for_each toc_section sections (lines, subsections) ;;
      let lines := lines ++ [u "\end{varwidth}"] in
      let lines := lines ++ [u "\end{center}" ++ nl ++ nl] in
      Ok (join nl lines, remaining)
  end.

(** The body of the loop over [names] in [generate_present_section]. *)
Definition present_line (names : list str) (lines : list str) (name : str)
  : list str :=
  let escaped_name := escape_latex config (strip name) in
  match escaped_name with
  | [] => lines
  | _ :: _ =>
      if index name names <? length names - 1
      then lines ++ [u " " ++ escaped_name ++ u "\\ "]
      else lines ++ [u " " ++ escaped_name ++ u " "]
  end.

Definition generate_present_section (names : list str) : str :=
  match names with
  | [] => []
  | _ :: _ =>
      let lines :=
        [ u "\section*{Camarades présents :}";
          [];
          u "\begin{multicols}{2}" ] in
      let lines := fold_left (present_line names) names lines in
      let lines := lines ++ [u "\end{multicols}" ++ nl] in
      join nl lines
  end.

Definition generate_section (title : str) : str :=
  let escaped_title := escape_latex config title in
  let escaped_title := capitalize_first_letter escaped_title in
  u "\section{" ++ escaped_title ++ u "}" ++ nl ++ nl.

Definition generate_subsection (title : str) : str :=
  let escaped_title := escape_latex config title in
  let escaped_title := capitalize_first_letter escaped_title in
  u "\subsection*{" ++ escaped_title ++ u "}" ++ nl ++ nl.

Definition generate_table (table_data : list (list str)) : str :=
  match table_data with
  | [] => []
  | [] :: _ => []
  | first :: _ =>
      let num_cols := length first in
      let lines :=
        [ u "\begin{table}[h]";
          u "\centering";
          u "\begin{tabular}{|" ++ join (u " | ") (repeat (u "c") num_cols) ++ u " |}";
          u "\hline" ] in
      let lines :=
        fold_left (fun lines row => lines ++ [join (u " & ") row ++ u " \\"; u "\hline"])
                  table_data lines in
      let lines := lines ++ [u "\end{tabular}"; u "\end{table}" ++ nl] in
      join nl lines
  end.

Definition generate_logo_section : str :=
  u "\vspace{\fill}" ++ nl
    ++ u "\begin{center}" ++ nl
    ++ u "\includegraphics[height=\dimexpr\textheight-\pagetotal\relax]{"
    ++ DEFAULT_LOGO_PATH config ++ u "}" ++ nl
    ++ u "\end{center}" ++ nl
    ++ u "\newpage" ++ nl.

End WithRuntime.
End LatexGenerator.

(* ================================================================= *)
(** ** The heap of paragraph objects *)

(** Paragraph objects are referenced from several places (the list
    [doc.paragraphs], the queue of paragraphs to correct, the emitted
    elements) and the correction pass mutates them in place. A reference
    is the index of the object in [doc.paragraphs]; the heap is that
    list. References handed around by the code are always live. *)
Module Heap.

Definition heap := list paragraph.
Definition ref := nat.

Definition deref (h : heap) (r : ref) : paragraph :=
  nth r h {| runs := []; links := [] |}.

Fixpoint update (h : heap) (r : ref) (p : paragraph) : heap :=
  match h, r with
  | [], _ => []
  | _ :: h', O => p :: h'
  | q :: h', S r' => q :: update h' r' p
  end.

End Heap.
Export Heap.

(* ================================================================= *)
(** ** text_corrector.py *)

Module TextCorrector.
Section WithRuntime.
Context {R : Runtime}.
Variable config : Config.

(** [self.cohere_client]: [None] when the client could not be created;
    otherwise the remote call of [_call_correction_api], from the
    whitelist and the text to the text of the response, [None] when
    building the prompt or the call raises. *)
Variable cohere_client : option (list str -> str -> option str).

Definition _call_correction_api (text : str) (whitelist : list str) : option str :=
  match cohere_client with
  | None => None
  | Some chat =>
      match chat whitelist text with
      | Some response => Some (strip response)
      | None => Some text
      end
  end.

Definition set_text (r : run) (text : str) : run :=
  {| run_text := text; bold := bold r; italic := italic r |}.

Definition len (t : str) : Z := Z.of_nat (length t).

(** The loop of [_distribute_text_across_runs]; [i] is the index of the
    head of [rs] and [n] the number of runs. *)
Fixpoint distribute_loop (total_length : Z) (new_text : str) (n i : nat)
         (rs : list run) (remaining_text : str) : result (list run) :=
  match rs with
  | [] => Ok []
  | r :: rs' =>
      match remaining_text with
      | [] =>
          rest <- distribute_loop total_length new_text n (S i) rs' remaining_text ;;
          Ok (set_text r [] :: rest)
      | _ :: _ =>
          if i =? n - 1 then
            rest <- distribute_loop total_length new_text n (S i) rs' [] ;;
            Ok (set_text r remaining_text :: rest)
          else
            let proportion := PyFloat.true_div (len (run_text r)) total_length in
            chars_to_take <- PyFloat.to_int (PyFloat.int_mul (len new_text) proportion) ;;
            let k := Z.to_nat chars_to_take in
            rest <- distribute_loop total_length new_text n (S i) rs'
                                    (skipn k remaining_text) ;;
            Ok (set_text r (firstn k remaining_text) :: rest)
      end
  end.

Definition _distribute_text_across_runs (rs : list run) (new_text : str)
  : result (list run) :=
  let total_length := fold_left (fun acc r => (acc + len (run_text r))%Z) rs 0%Z in
  if (total_length =? 0)%Z then
    match rs with
    | [] => Raise IndexError
    | r :: rs' => Ok (set_text r new_text :: map (fun r => set_text r []) rs')
    end
  else distribute_loop total_length new_text (length rs) 0 rs new_text.

Definition _update_paragraph_text (p : paragraph) (new_text : str)
  : result paragraph :=
  match runs p with
  | [r] => Ok {| runs := [set_text r new_text]; links := links p |}
  | [] =>
      (* [add_run] puts the new run at the end of the paragraph, after
         the hyperlinks it may hold *)
      Ok {| runs := [ {| run_text := new_text; bold := false; italic := false |} ];
            links := match links p with
                     | [] => []
                     | _ :: _ => [concat (links p)]
                     end |}
  | rs => rs' <- _distribute_text_across_runs rs new_text ;;
          Ok {| runs := rs'; links := links p |}
  end.

(** The loop of [_correct_batch] over [enumerate(corrected_texts)]: the
    pieces beyond the length of the batch are ignored. It returns the heap
    and the number of paragraphs updated. *)
Fixpoint apply_corrections (h : heap) (batch : list ref) (corrected_texts : list str)
  : result (heap * nat) :=
  match corrected_texts, batch with
  | corrected :: texts', para :: batch' =>
      p <- _update_paragraph_text (deref h para) (strip corrected) ;;
      '(h', n) <- apply_corrections (update h para p) batch' texts' ;;
      Ok (h', S n)
  | _, _ => Ok (h, 0)
  end.

Definition _correct_batch (h : heap) (batch : list ref) (whitelist : list str)
  : result (heap * nat) :=
  match batch with
  | [] => Ok (h, 0)
  | _ :: _ =>
      let texts := map (fun para => strip (para_text (deref h para))) batch in
      let joined_text := join (BATCH_SEPARATOR config) texts in
      match _call_correction_api joined_text whitelist with
      | None => Ok (h, 0)
      | Some [] => Ok (h, 0)
      | Some corrected_text =>
          corrected_texts <- split (BATCH_SEPARATOR config) corrected_text ;;
          apply_corrections h batch corrected_texts
      end
  end.

(** [valid_paragraphs[batch_idx:batch_idx + batch_size]] for the
    successive [batch_idx] of [range(0, len(valid_paragraphs), batch_size)]. *)
Fixpoint batches (fuel batch_size : nat) (l : list ref) : list (list ref) :=
  match fuel, l with
  | S fuel', _ :: _ =>
      firstn batch_size l :: batches fuel' batch_size (skipn batch_size l)
  | _, _ => []
  end.

(** [correct_paragraphs_batch(paragraphs)], with the default batch size
    and whitelist. *)
Definition correct_paragraphs_batch (h : heap) (paragraphs : list ref)
  : result heap :=
  match cohere_client with
  | None => Ok h
  | Some _ =>
      let batch_size := BATCH_SIZE config in
      let whitelist := CORRECTION_WHITELIST config in
      let valid_paragraphs :=
        filter (fun para => negb (str_eqb (strip (para_text (deref h para))) []))
               paragraphs in
      match valid_paragraphs with
      | [] => Ok h
      | _ :: _ =>
          if batch_size =? 0 then Raise ZeroDivisionError
          else
            for_each (fun h batch =>
                        '(h', _) <- _correct_batch h batch whitelist ;; Ok h')
                     (batches (length valid_paragraphs) batch_size valid_paragraphs)
                     h
      end
  end.

(** [correct_single_text(text)], with the default whitelist. *)
Definition correct_single_text (text : str) : str :=
  match strip text with
  | [] => text
  | _ :: _ =>
      match _call_correction_api text (CORRECTION_WHITELIST config) with
      | None => text
      | Some [] => text
      | Some corrected => corrected
      end
  end.

End WithRuntime.
End TextCorrector.

(* ================================================================= *)
(** ** converter.py *)

Module Converter.
Import Utils LatexGenerator TextCorrector.

(** The dictionaries appended to [data['elements']], by their ['type']. *)
Inductive element : Type :=
| title_element (text : str)
| table_element (table_data : list (list str))
| image_element (path : str) (width_cm height_cm : option float)
| present_section_element (names : list str)
| start_text_element (text : str)
| section_element (title : str) (paragraph : ref)
| subsection_element (title : str) (paragraph : ref)
| paragraph_element (paragraph : ref).

(** The dictionary [data] of [_process_document]. *)
Record data : Type := {
  title : str;
  elements : list element;
  present_names : list str;
  sections_list : list str;
  subsections_list : list str;
  first_text : option str;
  data_tables : list table
}.

Definition append_element (d : data) (e : element) : data :=
  {| title := title d;
     elements := elements d ++ [e];
     present_names := present_names d;
     sections_list := sections_list d;
     subsections_list := subsections_list d;
     first_text := first_text d;
     data_tables := data_tables d |}.

Definition set_first_text (d : data) (text : str) : data :=
  {| title := title d;
     elements := elements d;
     present_names := present_names d;
     sections_list := sections_list d;
     subsections_list := subsections_list d;
     first_text := Some text;
     data_tables := data_tables d |}.

Definition set_present_names (d : data) (names : list str) : data :=
  {| title := title d;
     elements := elements d;
     present_names := names;
     sections_list := sections_list d;
     subsections_list := subsections_list d;
     first_text := first_text d;
     data_tables := data_tables d |}.

Definition set_subsections_list (d : data) (subsections : list str) : data :=
  {| title := title d;
     elements := elements d;
     present_names := present_names d;
     sections_list := sections_list d;
     subsections_list := subsections;
     first_text := first_text d;
     data_tables := data_tables d |}.

(** The dictionary [result] that [_process_element] returns: a key that
    is absent is [None]. *)
Record updates : Type := {
  new_table_index : option nat;
  new_in_present_section : option bool;
  new_present_names : option (list str)
}.

Definition no_update : updates :=
  {| new_table_index := None; new_in_present_section := None;
     new_present_names := None |}.

(** What one traversal carries from element to element: the dictionary
    [data], the local variables of [_process_document] and the two lists
    that [_process_element] mutates in place. *)
Record walker : Type := {
  w_data : data;
  table_index : nat;
  in_present_section : bool;
  present_names_buffer : list str;
  paragraphs_to_correct : list ref
}.

(** [image_map[rid]], [None] when [rid not in image_map]; the dictionary
    is the list of its items, whose keys are distinct. *)
Fixpoint image_lookup (image_map : list (str * str)) (rid : str) : option str :=
  match image_map with
  | [] => None
  | (k, v) :: rest => if str_eqb k rid then Some v else image_lookup rest rid
  end.

(** The truth value of an optional integer: neither [None] nor zero. *)
Definition nonzero (z : option Z) : bool :=
  match z with
  | Some v => negb (v =? 0)%Z
  | None => false
  end.

(** [_emu_to_cm]: the exception of [float(emu)] on an integer too large
    is caught, and gives 0.0. *)
Definition _emu_to_cm (emu : Z) : float :=
  match PyFloat.of_int emu with
  | Some f => PrimFloat.mul (PrimFloat.div f 914400.0%float) 2.54%float
  | None => 0.0%float
  end.

(** The loop over [enumerate(rids)] of [_process_element]; [idx] is the
    index of the head of [rs]. *)
Fixpoint image_elements (image_map : list (str * str)) (xml : par_xml)
         (idx : nat) (rs : list str) : list element :=
  match rs with
  | [] => []
  | rid :: rs' =>
      match image_lookup image_map rid with
      | Some path =>
          let cx := nth_error (cx_list xml) idx in
          let cy := nth_error (cy_list xml) idx in
          (if nonzero cx && nonzero cy
           then image_element path (option_map _emu_to_cm cx) (option_map _emu_to_cm cy)
           else image_element path None None)
            :: image_elements image_map xml (S idx) rs'
      | None => image_elements image_map xml (S idx) rs'
      end
  end.

Section WithRuntime.
Context {R : Runtime}.
Variable config : Config.
Variable cohere_client : option (list str -> str -> option str).

(** [_process_element]: the data and the two lists as the call leaves
    them, and the value it returns ([None], or the dictionary of state
    updates). *)
Definition _process_element (element : body_element) (doc : document)
           (d : data) (table_index : nat) (in_present_section : bool)
           (present_names_buffer : list str) (paragraphs_to_correct : list ref)
           (image_map : list (str * str))
  : result (data * list str * list ref * option updates) :=
  match element with
  | Tbl =>
      match nth_error (data_tables d) table_index with
      | Some table =>
          let table_data := extract_table_data config table in
          table_data <- remove_duplicate_columns table_data ;;
          Ok (append_element d (table_element table_data),
              present_names_buffer, paragraphs_to_correct,
              Some {| new_table_index := Some (table_index + 1);
                      new_in_present_section := None;
                      new_present_names := None |})
      | None =>
          Ok (d, present_names_buffer, paragraphs_to_correct, Some no_update)
      end
  | P xml para_ref =>
      let d := fold_left append_element
                         (image_elements image_map xml 0 (rids xml)) d in
      match nth_error (paragraphs doc) para_ref with
      | None => Ok (d, present_names_buffer, paragraphs_to_correct, None)
      | Some para =>
          let text := strip (para_text para) in
          match first_text d, text with
          | None, _ :: _ =>
              Ok (append_element (set_first_text d text) (title_element text),
                  present_names_buffer, paragraphs_to_correct, Some no_update)
          | _, _ =>
              if startswith (u "Présents") text then
                Ok (d, present_names_buffer, paragraphs_to_correct,
                    Some {| new_table_index := None;
                            new_in_present_section := Some true;
                            new_present_names := None |})
              else if in_present_section then
                match text with
                | _ :: _ =>
                    if startswith (u "__") text then
                      let d := append_element d
                                 (present_section_element present_names_buffer) in
                      let d := append_element d (start_text_element text) in
                      Ok (d, [], paragraphs_to_correct,
                          Some {| new_table_index := None;
                                  new_in_present_section := Some false;
                                  new_present_names := Some present_names_buffer |})
                    else
                      Ok (d, present_names_buffer ++ [text], paragraphs_to_correct,
                          Some no_update)
                | [] =>
                    let d := append_element d
                               (present_section_element present_names_buffer) in
                    Ok (d, [], paragraphs_to_correct,
                        Some {| new_table_index := None;
                                new_in_present_section := Some false;
                                new_present_names := Some present_names_buffer |})
                end
              else
                match text with
                | [] =>
                    Ok (d, present_names_buffer, paragraphs_to_correct,
                        Some no_update)
                | _ :: _ =>
                    let paragraphs_to_correct := paragraphs_to_correct ++ [para_ref] in
                    if is_section_header text then
                      section_title <- extract_section_title text ;;
                      Ok (append_element d (section_element section_title para_ref),
                          present_names_buffer, paragraphs_to_correct,
                          Some no_update)
                    else if is_subsection_header text then
                      subsection_title <- extract_section_title text ;;
                      Ok (append_element d
                            (subsection_element subsection_title para_ref),
                          present_names_buffer, paragraphs_to_correct,
                          Some no_update)
                    else
                      Ok (append_element d (paragraph_element para_ref),
                          present_names_buffer, paragraphs_to_correct,
                          Some no_update)
                end
          end
      end
  | Other =>
      Ok (d, present_names_buffer, paragraphs_to_correct, Some no_update)
  end.

(** The body of the loop of [_process_document] over [doc.element.body]:
    the call of [_process_element] and the merge of the dictionary it
    returns (an empty dictionary and [None] change nothing). *)
Definition walk_step (doc : document) (image_map : list (str * str))
           (w : walker) (element : body_element) : result walker :=
  '(d, buffer, queue, element_data) <-
    _process_element element doc (w_data w) (table_index w)
                     (in_present_section w) (present_names_buffer w)
                     (paragraphs_to_correct w) image_map ;;
  match element_data with
  | None =>
      Ok {| w_data := d; table_index := table_index w;
            in_present_section := in_present_section w;
            present_names_buffer := buffer; paragraphs_to_correct := queue |}
  | Some upd =>
      Ok {| w_data := match new_present_names upd with
                      | Some names => set_present_names d names
                      | None => d
                      end;
            table_index := match new_table_index upd with
                           | Some i => i
                           | None => table_index w
                           end;
            in_present_section := match new_in_present_section upd with
                                  | Some b => b
                                  | None => in_present_section w
                                  end;
            present_names_buffer := buffer;
            paragraphs_to_correct := queue |}
  end.

Definition walk (doc : document) (image_map : list (str * str))
           (elements : list body_element) (w : walker) : result walker :=
  for_each (walk_step doc image_map) elements w.

(** [_process_document]: the dictionary [data] it returns, and the
    paragraph objects as the correction pass leaves them. *)
Definition _process_document (doc : document) (doc_title : str)
           (image_map : list (str * str)) : result (data * heap) :=
  '(sections, subsections) <- extract_sections_list (paragraphs doc) ;;
  let d := {| title := doc_title;
              elements := [];
              present_names := [];
              sections_list := sections;
              subsections_list := subsections;
              first_text := None;
              data_tables := tables doc |} in
  w <- walk doc image_map (body doc)
            {| w_data := d; table_index := 0; in_present_section := false;
               present_names_buffer := []; paragraphs_to_correct := [] |} ;;
  h <- match paragraphs_to_correct w with
       | [] => Ok (paragraphs doc)
       | queue => correct_paragraphs_batch config cohere_client (paragraphs doc) queue
       end ;;
  Ok (w_data w, h).

(** The body of the loop over the runs of [_format_paragraph_with_runs]
    when the text holds [":"]; [n] is [len(para.runs)], [i] the index of
    the run, and the state is [latex_text] and [bold_part]. *)
Definition label_run (brut_bold_part : str) (n : nat)
           (state : nat * str * str) (r : run) : result (nat * str * str) :=
  let '(i, latex_text, bold_part) := state in
  let begin := i =? 0 in
  let end_ := i =? n - 1 in
  let remaining := strip (run_text r) in
  let remaining :=
    if contains brut_bold_part remaining
    then strip (replace_first (u ":") [] (replace brut_bold_part [] remaining))
    else remaining in
  let remaining :=
    if startswith (u ":") remaining then strip (skipn 1 remaining) else remaining in
  let remaining := escape_latex config remaining in
  remaining <- replace_abbreviations config remaining begin end_ ;;
  let remaining := if bold r then wrap (u "\textbf") remaining else remaining in
  let remaining := if italic r then wrap (u "\textit") remaining else remaining in
  let bold_part := if italic r then wrap (u "\textit") bold_part else bold_part in
  Ok (S i, latex_text ++ remaining, bold_part).

(** The body of the loop over the runs in the other case. *)
Definition plain_run (latex_text : str) (r : run) : result str :=
  let run_text := strip (run_text r) in
  let run_text := escape_latex config run_text in
  run_text <- replace_abbreviations config run_text true true ;;
  let run_text := if bold r then wrap (u "\textbf") run_text else run_text in
  let run_text := if italic r then wrap (u "\textit") run_text else run_text in
  match run_text with
  | [] => Ok latex_text
  | _ :: _ => Ok (latex_text ++ run_text ++ u " ")
  end.

Definition _format_paragraph_with_runs (para : paragraph) : result str :=
  let text := strip (para_text para) in
  match (if mem 58%N text then split_once 58%N (para_text para) else None) with
  | Some (before, _) =>
      let brut_bold_part := strip before in
      let bold_part := wrap (u "\textbf") (escape_latex config brut_bold_part) in
      '(_, latex_text, bold_part) <-
        for_each (label_run brut_bold_part (length (runs para)))
                 (runs para) (0, [], bold_part) ;;
      let latex_text := replace (u "\textit{}") [] latex_text in
      Ok (bold_part ++ u " : " ++ strip latex_text ++ nl ++ nl)
  | None =>
      latex_text <- for_each plain_run (runs para) [] ;;
      match strip latex_text with
      | [] => Ok []
      | _ :: _ => Ok (strip latex_text ++ nl ++ nl)
      end
  end.

(** What the loop of [_write_latex_file] carries from element to element:
    the text written to the file so far, the two latches, and the list
    [data['subsections_list']], which [generate_toc] consumes in place. *)
Record writer : Type := {
  written : str;
  toc_inserted : bool;
  present_inserted : bool;
  subsections : list str
}.

(** The names handed to [generate_present_section]. *)
Definition clean_name (name : str) : str :=
  if startswith (u "#") name then strip (skipn 1 name) else name.

Definition cleaned_names (names : list str) : list str :=
  map clean_name
      (map strip (filter (fun name => negb (str_eqb (strip name) [])) names)).

(** The [width=] and [height=] options of an image. *)
Definition size_option (key : str) (value : option float) : list str :=
  match value with
  | Some v =>
      if PyFloat.truthy v && PyFloat.gt_zero v
      then [key ++ u "=" ++ PyFloat.format_2f v ++ u "cm"]
      else []
  | None => []
  end.

Definition image_options (width_cm height_cm : option float) : list str :=
  size_option (u "width") width_cm ++ size_option (u "height") height_cm.

Definition image_markup (path : str) (width_cm height_cm : option float) : str :=
  match path with
  | [] => []
  | _ :: _ =>
      let img_name := path_name path in
      let rel_path :=
        match img_name with
        | [] => u "images"
        | _ :: _ => u "images/" ++ img_name
        end in
      let opts := image_options width_cm height_cm in
      let opt_str :=
        match opts with
        | [] => []
        | _ :: _ => u "[" ++ join (u ",") opts ++ u "]"
        end in
      u "\begin{figure}[h]" ++ nl ++ u "\centering" ++ nl
        ++ u "\includegraphics" ++ opt_str ++ u "{" ++ rel_path ++ u "}" ++ nl
        ++ u "\end{figure}" ++ nl ++ nl
  end.

Definition write (w : writer) (text : str) : writer :=
  {| written := written w ++ text;
     toc_inserted := toc_inserted w;
     present_inserted := present_inserted w;
     subsections := subsections w |}.

Definition is_start_text (e : element) : bool :=
  match e with
  | start_text_element _ => true
  | _ => false
  end.

(** The body of the loop of [_write_latex_file]: the chain of tests on
    [elem_type], in the order of the source. *)
Definition write_element (sections : list str) (h : heap)
           (w : writer) (e : element) : result writer :=
  match e with
  | title_element text => Ok (write w (generate_title_section config text))
  | table_element table_data => Ok (write w (generate_table table_data))
  | image_element path width_cm height_cm =>
      Ok (write w (image_markup path width_cm height_cm))
  | present_section_element names =>
      let w := write w (generate_present_section config (cleaned_names names)) in
      Ok {| written := written w; toc_inserted := toc_inserted w;
            present_inserted := true; subsections := subsections w |}
  | _ =>
      if is_start_text e || present_inserted w then
        match toc_inserted w, sections with
        | false, _ :: _ =>
            '(toc, remaining) <- generate_toc config sections (subsections w) ;;
            Ok {| written := written w ++ toc ++ generate_logo_section config;
                  toc_inserted := true;
                  present_inserted := false;
                  subsections := remaining |}
        | _, _ =>
            Ok {| written := written w; toc_inserted := toc_inserted w;
                  present_inserted := false; subsections := subsections w |}
        end
      else
        match e with
        | section_element title _ => Ok (write w (generate_section config title))
        | subsection_element title _ =>
            Ok (write w (generate_subsection config title))
        | paragraph_element para =>
            text <- _format_paragraph_with_runs (deref h para) ;;
            Ok (write w text)
        | _ => Ok w
        end
  end.

(** [_write_latex_file(latex_path, data)]: the text written to the file,
    and the dictionary [data] as the call leaves it. *)
Definition _write_latex_file (d : data) (h : heap) : result (str * data) :=
  let w := {| written := generate_document_header config
                           ++ generate_title_header config (title d) ++ nl ++ nl;
              toc_inserted := false;
              present_inserted := false;
              subsections := subsections_list d |} in
  w <- for_each (write_element (sections_list d) h) (elements d) w ;;
  Ok (written w ++ generate_document_footer, set_subsections_list d (subsections w)).

(** What [convert] does between the loading of the document and the
    compilation of the result: the document is processed and the data are
    rendered; the value is the text written to the .tex file. *)
Definition convert (doc : document) (doc_title : str)
           (image_map : list (str * str)) : result str :=
  '(document_data, h) <- _process_document doc doc_title image_map ;;
  '(out, _) <- _write_latex_file document_data h ;;
  Ok out.

End WithRuntime.
End Converter.

(* ================================================================= *)
(** ** A runtime for the examples: the Latin-1 part of Unicode *)

(** Characters above U+00FF are taken as caseless, and as digits of no
    script; the white space table is the complete one of [str.isspace]. *)
Module Latin1.

Definition between (lo hi c : N) : bool := ((lo <=? c) && (c <=? hi))%N.

Definition isspace (c : char) : bool :=
  between 9 13 c || between 28 32 c || chr_eqb c 133 || chr_eqb c 160
  || chr_eqb c 5760 || between 8192 8202 c || between 8232 8233 c
  || chr_eqb c 8239 || chr_eqb c 8287 || chr_eqb c 12288.

Definition isdecimal (c : char) : bool := between 48 57 c.

Definition digit_value (c : char) : Z := (Z.of_N c - 48)%Z.

Definition islower (c : char) : bool :=
  between 97 122 c || between 223 246 c || between 248 255 c
  || chr_eqb c 170 || chr_eqb c 181 || chr_eqb c 186.

Definition isupper (c : char) : bool :=
  between 65 90 c || between 192 214 c || between 216 222 c.

Definition upper (c : char) : str :=
  if between 97 122 c || between 224 246 c || between 248 254 c then [(c - 32)%N]
  else if chr_eqb c 223 then [83; 83]%N
  else if chr_eqb c 255 then [376%N]
  else if chr_eqb c 181 then [924%N]
  else [c].

Definition lower (c : char) : char :=
  if isupper c then (c + 32)%N else c.

(** The title case of one character differs from [upper] on U+00DF. *)
Definition capitalize (s : str) : str :=
  match s with
  | [] => []
  | c :: rest =>
      (if chr_eqb c 223 then [83; 115]%N else upper c) ++ map lower rest
  end.

(** [\w] *)
Definition isword (c : char) : bool :=
  between 48 57 c || chr_eqb c 95 || islower c || isupper c
  || between 178 179 c || chr_eqb c 185 || between 188 190 c.

Fixpoint starts_ignorecase (w t : str) : bool :=
  match w, t with
  | [], _ => true
  | x :: w', y :: t' => chr_eqb (lower x) (lower y) && starts_ignorecase w' t'
  | _ :: _, [] => false
  end.

(** The whole-word occurrences of [word] in [t], without overlap; [pos]
    is the position of the head of [t], [prev] whether the character
    before it is a word character, [skip] the characters of a match
    still to pass. *)
Fixpoint word_spans (word : str) (pos : nat) (prev : bool) (skip : nat) (t : str)
  : list (nat * nat) :=
  match t with
  | [] => []
  | c :: t' =>
      match skip with
      | S k => word_spans word (S pos) (isword c) k t'
      | O =>
          if negb prev && starts_ignorecase word t
             && match skipn (length word) t with
                | [] => true
                | d :: _ => negb (isword d)
                end
          then (pos, pos + length word)
                 :: word_spans word (S pos) (isword c) (length word - 1) t'
          else word_spans word (S pos) (isword c) 0 t'
      end
  end.

(** The patterns [\bword\b] over word characters, the only ones that the
    instance interprets. *)
Definition interpreted (pattern : str) : bool :=
  let n := length pattern in
  startswith (u "\b") pattern && endswith (u "\b") pattern
  && (4 <? n) && forallb isword (firstn (n - 4) (skipn 2 pattern)).

(** The instance knows the matches of the interpreted patterns only; it
    refuses every other pattern, as [re] refuses an invalid one. *)
Definition re_spans_ignorecase (pattern t : str) : option (list (nat * nat)) :=
  if interpreted pattern
  then Some (word_spans (firstn (length pattern - 4) (skipn 2 pattern)) 0 false 0 t)
  else None.

(** [PurePosixPath(p).name]: the last of the components of [p], the empty
    ones and ["."] left out. *)
Definition path_name (p : str) : str :=
  last (filter (fun c => negb (str_eqb c []) && negb (str_eqb c (u ".")))
               (split_from (u "/") 0 [] p))
       [].

#[global] Instance runtime : Runtime := {|
  Py.isspace := isspace;
  Py.isdecimal := isdecimal;
  Py.digit_value := digit_value;
  Py.upper := upper;
  Py.isupper := isupper;
  Py.capitalize := capitalize;
  Py.re_spans_ignorecase := re_spans_ignorecase;
  Py.path_name := path_name
|}.

End Latin1.

(* ================================================================= *)
(** * Vocabulary of the specification *)

Module Spec.
Import Utils LatexGenerator TextCorrector Converter.

(** ** Text Sanitizer *)

Definition reserved_keys (config : Config) : list str :=
  map fst (LATEX_SPECIAL_CHARS config).

(** A reserved character: a one-character key of the escape mapping. *)
Definition reserved (config : Config) (c : char) : Prop :=
  In [c] (reserved_keys config).

(** Every key of the mapping is one character. *)
Definition single_character_keys (config : Config) : bool :=
  forallb (fun k => length k =? 1) (reserved_keys config).

(** No replacement holds a character of a key of the mapping. *)
Definition non_conflicting (config : Config) : bool :=
  forallb (fun r =>
             forallb (fun k => forallb (fun c => negb (mem c r)) k)
                     (reserved_keys config))
          (map snd (LATEX_SPECIAL_CHARS config)).

(** A mapping without conflict: three entries of the default table, their
    replacements closed by a space instead of a pair of braces. *)
Definition plain_config : Config := {|
  BATCH_SIZE := BATCH_SIZE default_config;
  BATCH_SEPARATOR := BATCH_SEPARATOR default_config;
  LATEX_PACKAGES := LATEX_PACKAGES default_config;
  LATEX_SETTINGS := LATEX_SETTINGS default_config;
  ABBREVIATIONS := ABBREVIATIONS default_config;
  LATEX_SPECIAL_CHARS :=
    [ (u "~", u "\textasciitilde ");
      (u "<", u "\textless ");
      (u ">", u "\textgreater ") ];
  DEFAULT_LOGO_PATH := DEFAULT_LOGO_PATH default_config;
  CORRECTION_WHITELIST := CORRECTION_WHITELIST default_config
|}.

(** ** Table Normalizer *)

(** All the rows have the same length. *)
Definition rectangular (table_data : list (list str)) : Prop :=
  forall r1 r2, In r1 table_data -> In r2 table_data -> length r1 = length r2.

Definition width (table_data : list (list str)) : nat :=
  match table_data with
  | [] => 0
  | first :: _ => length first
  end.

(** Columns [i] and [j] hold equal strings in every row. *)
Definition same_column (table_data : list (list str)) (i j : nat) : Prop :=
  forall row, In row table_data -> nth_error row i = nth_error row j.

Definition same_columnb (table_data : list (list str)) (i j : nat) : bool :=
  forallb (fun row =>
             match nth_error row i, nth_error row j with
             | Some a, Some b => str_eqb a b
             | None, None => true
             | _, _ => false
             end) table_data.

(** Column [j] is value-identical to some earlier column. *)
Definition later_duplicate (table_data : list (list str)) (j : nat) : Prop :=
  j < width table_data /\ exists i, i < j /\ same_column table_data i j.

(** ** Structural Classifier *)

Section Outline.
Context {R : Runtime}.

(** The text the outline scan classifies. *)
Definition text_of (p : paragraph) : str := strip (para_text p).

(** The paragraph is taken by the first branch of the scan. *)
Definition classified_section (p : paragraph) : bool :=
  is_section_header (text_of p).

(** The paragraph is taken by the second branch of the scan. *)
Definition classified_subsection (p : paragraph) : bool :=
  negb (is_section_header (text_of p)) && is_subsection_header (text_of p).

Definition count_subsections (ps : list paragraph) : nat :=
  length (filter classified_subsection ps).

(** The first paragraph that is a header of either kind is a subsection
    header. *)
Fixpoint first_header_is_subsection (ps : list paragraph) : bool :=
  match ps with
  | [] => false
  | p :: rest =>
      if classified_section p then false
      else if classified_subsection p then true
      else first_header_is_subsection rest
  end.

(** Every subsection header comes after some section header. *)
Definition subsections_owned (ps : list paragraph) : Prop :=
  forall before p after,
    ps = before ++ p :: after ->
    classified_subsection p = true ->
    existsb classified_section before = true.

(** The title of the last section header among [before], [owner] when
    there is none. *)
Fixpoint owning_section_title (owner : option str) (before : list paragraph)
  : option str :=
  match before with
  | [] => owner
  | p :: rest =>
      if classified_section p
      then match extract_section_title (text_of p) with
           | Ok title => owning_section_title (Some title) rest
           | Raise _ => None
           end
      else owning_section_title owner rest
  end.

(** The titles of the section headers, in order. *)
Fixpoint section_titles (ps : list paragraph) : list str :=
  match ps with
  | [] => []
  | p :: rest =>
      if classified_section p
      then match extract_section_title (text_of p) with
           | Ok title => title :: section_titles rest
           | Raise _ => section_titles rest
           end
      else section_titles rest
  end.

End Outline.

(** ** Document Walker *)

(** The texts of the Title elements of a sequence, in order. *)
Definition title_texts (es : list element) : list str :=
  flat_map (fun e => match e with
                     | title_element text => [text]
                     | _ => []
                     end) es.

Section Walker.
Context {R : Runtime}.

(** The stripped text of the first paragraph, among the elements [els] of
    the body of [doc], whose stripped text is not empty. *)
Fixpoint first_non_empty (doc : document) (els : list body_element) : option str :=
  match els with
  | [] => None
  | P _ r :: rest =>
      match nth_error (paragraphs doc) r with
      | Some para =>
          match strip (para_text para) with
          | [] => first_non_empty doc rest
          | text => Some text
          end
      | None => first_non_empty doc rest
      end
  | _ :: rest => first_non_empty doc rest
  end.

End Walker.

(** The state in which [_process_document] starts the traversal. *)
Definition initial_walker (d : data) : walker :=
  {| w_data := d; table_index := 0; in_present_section := false;
     present_names_buffer := []; paragraphs_to_correct := [] |}.

(** The walker [w] with [d] for its data. *)
Definition with_data (w : walker) (d : data) : walker :=
  {| w_data := d; table_index := table_index w;
     in_present_section := in_present_section w;
     present_names_buffer := present_names_buffer w;
     paragraphs_to_correct := paragraphs_to_correct w |}.

(** A paragraph element without embedded image. *)
Definition par (r : ref) : body_element :=
  P {| rids := []; cx_list := []; cy_list := [] |} r.

(** A paragraph of one run without style. *)
Definition plain (text : str) : paragraph :=
  {| runs := [ {| run_text := text; bold := false; italic := false |} ];
     links := [] |}.

(** A document of one blank paragraph, as a new empty document is. *)
Definition blank_document : document :=
  {| body := [par 0]; paragraphs := [plain (u "  ")]; tables := [] |}.

(** A document whose first paragraph has the form of a section header. *)
Definition budget_document : document :=
  {| body := [par 0; par 1; par 2];
     paragraphs := [plain []; plain (u "1) Budget"); plain (u "Suite")];
     tables := [] |}.

(** The paragraphs of the attendee example, after a title. *)
Definition attendee_document : document :=
  {| body := [par 0; par 1; par 2; par 3; par 4; par 5];
     paragraphs :=
       [ plain (u "Titre"); plain (u "Présents"); plain (u "Alice");
         plain (u "#Bob"); plain []; plain (u "Next") ];
     tables := [] |}.

(** The walker of the attendee example once the title has been seen. *)
Definition title_seen : walker :=
  initial_walker
    {| title := u "Titre";
       elements := [title_element (u "Titre")];
       present_names := [];
       sections_list := [];
       subsections_list := [];
       first_text := Some (u "Titre");
       data_tables := [] |}.

(** ** Markup Renderer *)

(** Minutes whose attendee block is closed by an empty paragraph, the
    first section coming right after it. *)
Definition minutes_blank_closed : document :=
  {| body := [par 0; par 1; par 2; par 3; par 4; par 5];
     paragraphs :=
       [ plain (u "Titre"); plain (u "Présents"); plain (u "Alice");
         plain []; plain (u "1) budget"); plain (u "a) divers") ];
     tables := [] |}.

(** The same minutes with the attendee block closed by the end marker. *)
Definition minutes_marker_closed : document :=
  {| body := [par 0; par 1; par 2; par 3; par 4; par 5];
     paragraphs :=
       [ plain (u "Titre"); plain (u "Présents"); plain (u "Alice");
         plain (u "____"); plain (u "1) budget"); plain (u "a) divers") ];
     tables := [] |}.

(** Minutes whose attendee block is closed by an empty paragraph, a
    subsection coming right after it. *)
Definition minutes_subsection_first : document :=
  {| body := [par 0; par 1; par 2; par 3; par 4; par 5];
     paragraphs :=
       [ plain (u "1) budget"); plain (u "Présents"); plain (u "Alice");
         plain []; plain (u "a) divers"); plain (u "Suite") ];
     tables := [] |}.

(** Minutes without attendee block: the renderer does not insert the
    table of contents. *)
Definition minutes_without_attendees : document :=
  {| body := [par 0; par 1; par 2];
     paragraphs := [ plain (u "Titre"); plain (u "1) budget"); plain (u "a) divers") ];
     tables := [] |}.

(** The data that [_process_document] returns for these minutes. *)
Definition data_without_attendees : data :=
  {| title := u "PV";
     elements := [ title_element (u "Titre");
                   section_element (u "budget") 1;
                   subsection_element (u "divers") 2 ];
     present_names := [];
     sections_list := [u "budget"];
     subsections_list := [u "budget"; u "divers"];
     first_text := Some (u "Titre");
     data_tables := [] |}.

(** ** Correction service *)

(** A client whose every call raises. *)
Definition failing_client : option (list str -> str -> option str) :=
  Some (fun _ _ => None).

(** A paragraph of a bold run and a plain run. *)
Definition styled_paragraph : paragraph :=
  {| runs := [ {| run_text := u "Note"; bold := true; italic := false |};
               {| run_text := u " importante "; bold := false; italic := false |} ];
     links := [] |}.

(** ** Vocabulary of the further properties *)

(** No key of the escape mapping is empty or occurs in [text]. *)
Definition free_of_keys (config : Config) (text : str) : bool :=
  forallb (fun k => negb (str_eqb k []) && negb (contains k text))
          (reserved_keys config).

(** The indices of [base, base + n) that are not in the set, in order:
    the columns that the filter keeps. *)
Definition kept_columns (columns_to_remove : list nat) (base n : nat) : list nat :=
  filter (fun i => negb (in_set i columns_to_remove)) (seq base n).

(** A writer that has written nothing, with an outline of subsections. *)
Definition writer_with (subs : list str) : writer :=
  {| written := []; toc_inserted := false; present_inserted := false;
     subsections := subs |}.

(** The paragraphs of the Section, Subsection and Paragraph elements of a
    sequence, in order. *)
Definition paragraph_refs (es : list element) : list ref :=
  flat_map (fun e => match e with
                     | section_element _ p => [p]
                     | subsection_element _ p => [p]
                     | paragraph_element p => [p]
                     | _ => []
                     end) es.

(** The number of Table elements of a sequence. *)
Definition count_tables (es : list element) : nat :=
  length (filter (fun e => match e with
                           | table_element _ => true
                           | _ => false
                           end) es).

(** The number of table nodes among elements of the body. *)
Definition count_tbl (els : list body_element) : nat :=
  length (filter (fun e => match e with
                           | Tbl => true
                           | _ => false
                           end) els).

(** The Image elements that the paragraph nodes of [els] give. *)
Definition images_of (image_map : list (str * str)) (els : list body_element)
  : list element :=
  flat_map (fun e => match e with
                     | P xml _ => image_elements image_map xml 0 (rids xml)
                     | _ => []
                     end) els.

(** The dictionary with which [_process_document] starts on [doc], before
    the outline is known. *)
Definition starting_data (doc : document) : data :=
  {| title := u "PV";
     elements := [];
     present_names := [];
     sections_list := [];
     subsections_list := [];
     first_text := None;
     data_tables := tables doc |}.

(** A cell of one paragraph of plain text. *)
Definition plain_cell (text : str) : cell := [plain text].

(** A body with three table nodes and a document that lists two tables. *)
Definition table_document : document :=
  {| body := [Tbl; par 0; Tbl; Tbl];
     paragraphs := [plain (u "Titre")];
     tables := [ [[plain_cell (u "a"); plain_cell (u "b")]];
                 [[plain_cell (u "c")]] ] |}.

(** The walker of the attendee example inside the attendee block. *)
Definition inside_block : walker :=
  {| w_data := w_data title_seen; table_index := 0;
     in_present_section := true;
     present_names_buffer := []; paragraphs_to_correct := [] |}.

(** Spans that start at [pos] or later and before [stop], each one not
    empty and starting where the one before it stops or later. *)
Fixpoint ordered_spans (pos stop : nat) (spans : list (nat * nat)) : Prop :=
  match spans with
  | [] => True
  | (a, b) :: spans' =>
      pos <= a /\ a < b /\ a < stop /\ ordered_spans b stop spans'
  end.

(** The elements at which the renderer may insert the table of
    contents: the attendee list and the start marker. *)
Definition opens_contents (e : element) : bool :=
  match e with
  | present_section_element _ => true
  | start_text_element _ => true
  | _ => false
  end.

(** The default configuration with, for only abbreviation, a pattern that
    [re] refuses. *)
Definition broken_config : Config := {|
  BATCH_SIZE := BATCH_SIZE default_config;
  BATCH_SEPARATOR := BATCH_SEPARATOR default_config;
  LATEX_PACKAGES := LATEX_PACKAGES default_config;
  LATEX_SETTINGS := LATEX_SETTINGS default_config;
  ABBREVIATIONS := [(u "(", u "x")];
  LATEX_SPECIAL_CHARS := LATEX_SPECIAL_CHARS default_config;
  DEFAULT_LOGO_PATH := DEFAULT_LOGO_PATH default_config;
  CORRECTION_WHITELIST := CORRECTION_WHITELIST default_config
|}.

(** A client whose every call answers [answer]. *)
Definition constant_client (answer : str)
  : option (list str -> str -> option str) :=
  Some (fun _ _ => Some answer).

(** ** Image markup *)

(** The size is present and strictly positive. *)
Definition strictly_positive (value : option float) : bool :=
  match value with
  | Some v => PrimFloat.ltb 0%float v
  | None => false
  end.

(** The markup of a figure: [options] is what stands between
    [\includegraphics] and the path, the empty text or the sizing options
    in their brackets. *)
Definition figure (options rel_path : str) : str :=
  u "\begin{figure}[h]" ++ nl ++ u "\centering" ++ nl
    ++ u "\includegraphics" ++ options ++ u "{" ++ rel_path ++ u "}" ++ nl
    ++ u "\end{figure}" ++ nl ++ nl.

(** The texts of the runs of a paragraph, concatenated: the text of the
    paragraph without the text of its hyperlinks. *)
Definition run_texts (p : paragraph) : str := concat (map run_text (runs p)).

(** A paragraph of the run ["voir "] followed by a hyperlink of text
    ["ici"]. *)
Definition linked_paragraph : paragraph :=
  {| runs := [ {| run_text := u "voir "; bold := false; italic := false |} ];
     links := [ []; u "ici" ] |}.

Section Names.
Context {R : Runtime}.

(** The path of an image relative to the .tex file. *)
Definition image_rel_path (path : str) : str :=
  match path_name path with
  | [] => u "images"
  | img_name => u "images/" ++ img_name
  end.

(** The markup of one element taken alone: what the renderer writes for
    it apart from the table of contents and the logo. *)
Definition element_markup (config : Config) (h : heap) (e : element)
  : result str :=
  match e with
  | title_element text => Ok (generate_title_section config text)
  | table_element table_data => Ok (generate_table table_data)
  | image_element path width_cm height_cm =>
      Ok (image_markup path width_cm height_cm)
  | present_section_element names =>
      Ok (generate_present_section config (cleaned_names names))
  | start_text_element _ => Ok []
  | section_element title _ => Ok (generate_section config title)
  | subsection_element title _ => Ok (generate_subsection config title)
  | paragraph_element para => _format_paragraph_with_runs config (deref h para)
  end.

(** Every substitution of an abbreviation returns: [re] refuses no
    pattern of the mapping, and none matches the empty word, on which
    [replace_match] raises. *)
Definition abbreviations_total (config : Config) : Prop :=
  forall item text,
    In item (ABBREVIATIONS config) ->
    exists out,
      re_sub_ignorecase (fst item) (replace_match (snd item)) text = Ok out.

(** The line of the attendee list for [name], closed by [closing]; a name
    that is blank once escaped has no line. *)
Definition present_entry (config : Config) (closing name : str) : list str :=
  match escape_latex config (strip name) with
  | [] => []
  | escaped_name => [u " " ++ escaped_name ++ closing]
  end.

(** A paragraph node that the walker, inside the attendee block, takes
    for a name: its text is not empty and starts neither with the marker
    of the block nor with the end marker. *)
Definition name_paragraph (doc : document) (e : body_element) : bool :=
  match e with
  | P _ r =>
      match nth_error (paragraphs doc) r with
      | Some para =>
          negb (str_eqb (strip (para_text para)) [])
          && negb (startswith (u "Présents") (strip (para_text para)))
          && negb (startswith (u "__") (strip (para_text para)))
      | None => false
      end
  | _ => false
  end.

(** The stripped texts of the paragraph nodes of [els]. *)
Definition texts_of (doc : document) (els : list body_element) : list str :=
  flat_map (fun e => match e with
                     | P _ r =>
                         match nth_error (paragraphs doc) r with
                         | Some para => [strip (para_text para)]
                         | None => []
                         end
                     | _ => []
                     end) els.

End Names.

End Spec.

(* ================================================================= *)
(** * Properties *)

Import Utils LatexGenerator TextCorrector Converter Spec.

(** ** The code on small inputs *)

Example escape_ampersand :
  escape_latex default_config (u "R&D à 50%") = u "R\&D à 50\%".
Proof. reflexivity. Qed.

(** The braces that the replacement of ["~"] brings are not escaped again,
    the entries of the braces coming before it in the mapping. *)
Example escape_tilde :
  escape_latex default_config (u "~") = u "\textasciitilde{}".
Proof. reflexivity. Qed.

Example default_mapping_conflicts : non_conflicting default_config = false.
Proof. reflexivity. Qed.

Example section_header_budget :
  is_section_header (u "3) Budget") = true
  /\ extract_section_title (u "3) Budget") = Ok (u "Budget")
  /\ is_subsection_header (u "a) Sub") = true
  /\ extract_section_title (u "a) Sub") = Ok (u "Sub")
  /\ is_section_header (u "Budget update") = false
  /\ is_subsection_header (u "Budget update") = false.
Proof. repeat split; reflexivity. Qed.

Example title_header_of_minutes :
  generate_title_header default_config (u "PV RC 7 - Anno LIX - 2025-01-27")
  = u "\fancyhead[L]{CBB - Anno LIX \hfill 2024 - 2025 " ++ nl ++ nl
      ++ u "} \fancyhead[R]{Réunion Comité n° 7 \hfill 27/01/2025}".
Proof. vm_compute. reflexivity. Qed.

Example title_header_fallback :
  generate_title_header default_config (u "Compte_rendu")
  = u "\fancyhead[C]{Compte\_rendu}".
Proof. vm_compute. reflexivity. Qed.

Example abbreviations_expanded :
  replace_abbreviations default_config (u "le Prez a une itw") true true
  = Ok (u "Le Président a une interview.").
Proof. vm_compute. reflexivity. Qed.

Example format_2f_rounds_half_even :
  map PyFloat.format_2f [2.54; 0.125; 0.375; 1234.5678]%float
  = [u "2.54"; u "0.12"; u "0.38"; u "1234.57"].
Proof. vm_compute. reflexivity. Qed.

(** ** Python strings *)

Lemma chr_eqb_eq (a b : char) : chr_eqb a b = true <-> a = b.
Proof. apply N.eqb_eq. Qed.

Lemma chr_eqb_refl (a : char) : chr_eqb a a = true.
Proof. apply N.eqb_refl. Qed.

Lemma str_eqb_eq (a b : str) : str_eqb a b = true <-> a = b.
Proof.
  revert b; induction a as [|x a IH]; intros [|y b]; simpl; split;
    try congruence; try reflexivity.
  - intros H. apply andb_true_iff in H as [Hx Hab].
    apply chr_eqb_eq in Hx. apply IH in Hab. congruence.
  - intros H. injection H as -> ->.
    rewrite chr_eqb_refl. simpl. now apply IH.
Qed.

Lemma mem_In (c : char) (t : str) : mem c t = true <-> In c t.
Proof.
  unfold mem. rewrite existsb_exists. split.
  - intros (x & Hx & E). apply chr_eqb_eq in E. now subst.
  - intros H. exists c. split; [assumption | apply chr_eqb_refl].
Qed.

(** Replacing a one-character pattern maps each character on its own. *)
Lemma replace_char (k : char) (r t : str) :
  replace [k] r t = flat_map (fun c => if chr_eqb c k then r else [c]) t.
Proof.
  unfold replace. induction t as [|c t IH]; simpl; [reflexivity|].
  rewrite andb_true_r. unfold chr_eqb at 1. rewrite N.eqb_sym.
  fold (chr_eqb c k). destruct (chr_eqb c k); simpl; now rewrite IH.
Qed.

Lemma In_replace_char (x k : char) (r t : str) :
  In x (replace [k] r t) -> In x r \/ (In x t /\ x <> k).
Proof.
  rewrite replace_char, in_flat_map. intros (c & Hc & Hx).
  destruct (chr_eqb c k) eqn:E.
  - now left.
  - right. destruct Hx as [<- | []]. split; [assumption|].
    intros ->. rewrite chr_eqb_refl in E. discriminate.
Qed.

(** ** Text Sanitizer *)

Section Escape.

(** The characters of [K] are introduced by no replacement of [m]. *)
Lemma fold_replace_clean (K : char -> Prop) (m : list (str * str)) :
  (forall k r, In (k, r) m -> exists k0, k = [k0]) ->
  (forall k r c, In (k, r) m -> K c -> ~ In c r) ->
  forall (t : str) (c : char),
    K c ->
    In [c] (map fst m) \/ ~ In c t ->
    ~ In c (fold_left (fun text item => replace (fst item) (snd item) text) m t).
Proof.
  induction m as [|[k r] m IH]; intros Hkeys Hrepl t c Hc Hcase; simpl.
  - destruct Hcase as [[] | H]; exact H.
  - destruct (Hkeys k r (or_introl eq_refl)) as [k0 ->].
    apply IH; try assumption.
    + intros k' r' Hin. apply (Hkeys k' r'). now right.
    + intros k' r' c' Hin. apply (Hrepl k' r' c'). now right.
    + assert (Hr : ~ In c r) by (apply (Hrepl [k0] r c); [now left | assumption]).
      destruct Hcase as [[Hhead | Htail] | Habsent].
      * right. simpl in Hhead. injection Hhead as ->.
        intros Hin. apply In_replace_char in Hin as [Hin | [_ Hne]]; tauto.
      * now left.
      * right. intros Hin. apply In_replace_char in Hin as [Hin | [Hin _]]; tauto.
Qed.

Lemma single_character_keys_spec (config : Config) :
  single_character_keys config = true ->
  forall k r, In (k, r) (LATEX_SPECIAL_CHARS config) -> exists k0, k = [k0].
Proof.
  unfold single_character_keys, reserved_keys. rewrite forallb_forall.
  intros H k r Hin.
  assert (Hk : In k (map fst (LATEX_SPECIAL_CHARS config)))
    by (apply in_map_iff; exists (k, r); auto).
  apply H, Nat.eqb_eq in Hk.
  destruct k as [|k0 [|? ?]]; try discriminate. now exists k0.
Qed.

Lemma non_conflicting_spec (config : Config) :
  non_conflicting config = true ->
  forall k r c, In (k, r) (LATEX_SPECIAL_CHARS config) ->
                reserved config c -> ~ In c r.
Proof.
  unfold non_conflicting, reserved. rewrite forallb_forall.
  intros H k r c Hin Hc.
  assert (Hr : In r (map snd (LATEX_SPECIAL_CHARS config)))
    by (apply in_map_iff; exists (k, r); auto).
  apply H in Hr. rewrite forallb_forall in Hr.
  apply Hr in Hc. simpl in Hc. rewrite andb_true_r in Hc.
  intros Hmem. apply mem_In in Hmem. rewrite Hmem in Hc. discriminate.
Qed.

(** C6: under a mapping of one-character keys none of which occurs in a
    replacement, [escape_latex] applies the replacements of the mapping
    one after the other in its insertion order, and its result holds no
    occurrence at all of a reserved character, whatever the text. *)
Theorem escape_latex_no_reserved (config : Config) :
  single_character_keys config = true ->
  non_conflicting config = true ->
  forall T : str,
    escape_latex config T
    = fold_left (fun text item => replace (fst item) (snd item) text)
                (LATEX_SPECIAL_CHARS config) T
    /\ forall c : char, reserved config c -> ~ In c (escape_latex config T).
Proof.
  intros Hkeys Hnc T.
  pose proof (single_character_keys_spec config Hkeys) as Hsingle.
  pose proof (non_conflicting_spec config Hnc) as Hclean.
  assert (Hfold : escape_latex config T
                  = fold_left (fun text item => replace (fst item) (snd item) text)
                              (LATEX_SPECIAL_CHARS config) T).
  { unfold escape_latex. destruct T as [|c T]; [|reflexivity].
    revert Hsingle. generalize (LATEX_SPECIAL_CHARS config).
    induction l as [|[k r] l IH]; intros Hs; simpl; [reflexivity|].
    destruct (Hs k r (or_introl eq_refl)) as [k0 ->]. simpl.
    apply IH. intros k' r' Hin. apply (Hs k' r'). now right. }
  split; [exact Hfold|].
  intros c Hc. rewrite Hfold.
  apply (fold_replace_clean (reserved config)); auto.
Qed.

(** The theorem at work on the text ["a~b<c>"]. *)
Lemma escape_latex_no_reserved_witness :
  escape_latex plain_config (u "a~b<c>")
  = u "a\textasciitilde b\textless c\textgreater "
  /\ ~ In 60%N (escape_latex plain_config (u "a~b<c>")).
Proof.
  split; [reflexivity|].
  apply (escape_latex_no_reserved plain_config); [reflexivity | reflexivity |].
  right. left. reflexivity.
Defined.

End Escape.

(** ** Loops *)

(** The computation that a chain of binds runs first. *)
Ltac first_run m :=
  lazymatch m with
  | bind ?m' _ => first_run m'
  | match ?m' with Ok _ => _ | Raise _ => _ end => first_run m'
  | _ => m
  end.

(** [returned H as p eqn:E]: the computation that the hypothesis
    [H : _ = Ok _] runs first has returned a value, named by [p]; [E] is
    the equation of that run. The case of an exception contradicts [H]. *)
Tactic Notation "returned" hyp(H) "as" simple_intropattern(p) "eqn" ":" ident(E) :=
  match type of H with
  | ?c = Ok _ =>
      let m := first_run c in
      destruct m as [p|] eqn:E; cbn [bind] in H; [|discriminate H]
  end.

Lemma for_each_total {S A : Type} (body : S -> A -> result S) (f : S -> A -> S)
      (items : list A) :
  (forall s x, In x items -> body s x = Ok (f s x)) ->
  forall s, for_each body items s = Ok (fold_left f items s).
Proof.
  induction items as [|x items IH]; intros Hbody s; simpl; [reflexivity|].
  rewrite Hbody by now left. simpl. apply IH.
  intros s' y Hy. apply Hbody. now right.
Qed.

Lemma for_each_app {S A : Type} (body : S -> A -> result S) (l1 l2 : list A) (s : S) :
  for_each body (l1 ++ l2) s = (s' <- for_each body l1 s ;; for_each body l2 s').
Proof.
  revert s; induction l1 as [|x l1 IH]; intros s; simpl; [reflexivity|].
  destruct (body s x); simpl; [apply IH | reflexivity].
Qed.

(** ** Table Normalizer *)

Section TableDedupe.

Lemma same_columnb_spec (t : list (list str)) (i j : nat) :
  same_columnb t i j = true <-> same_column t i j.
Proof.
  unfold same_columnb, same_column. rewrite forallb_forall.
  split; intros H row Hrow; specialize (H row Hrow).
  - destruct (nth_error row i), (nth_error row j); try discriminate; auto.
    apply str_eqb_eq in H. now subst.
  - rewrite H. destruct (nth_error row j); auto. now apply str_eqb_eq.
Qed.

Lemma all_equal_total (t : list (list str)) (i j : nat) :
  (forall row, In row t -> i < length row /\ j < length row) ->
  all_equal i j t = Ok (same_columnb t i j).
Proof.
  induction t as [|row t IH]; intros Hlen; simpl; [reflexivity|].
  destruct (Hlen row (or_introl eq_refl)) as [Hi Hj].
  unfold row_get.
  destruct (nth_error row i) as [a|] eqn:Ea;
    [| apply nth_error_None in Ea; lia].
  destruct (nth_error row j) as [b|] eqn:Eb;
    [| apply nth_error_None in Eb; lia].
  simpl. destruct (str_eqb a b); simpl; [|reflexivity].
  apply IH. intros r Hr. apply Hlen. now right.
Qed.

(** Membership in the set that one pass of a loop of additions builds. *)
Lemma In_fold_add (p : nat -> bool) (l s : list nat) (j : nat) :
  In j (fold_left (fun set c => if p c then c :: set else set) l s)
  <-> In j s \/ (In j l /\ p j = true).
Proof.
  revert s; induction l as [|c l IH]; intros s; simpl.
  - tauto.
  - rewrite IH. destruct (p c) eqn:E; simpl; split; intros H.
    + destruct H as [[<- | H] | [H1 H2]]; auto.
    + destruct H as [H | [[<- | H1] H2]]; auto.
    + destruct H as [H | [H1 H2]]; auto.
    + destruct H as [H | [[<- | H1] H2]]; auto. congruence.
Qed.

Lemma In_fold_fold_add (p : nat -> nat -> bool) (L : nat -> list nat)
      (l s : list nat) (j : nat) :
  In j (fold_left (fun set c1 =>
                     fold_left (fun set c2 => if p c1 c2 then c2 :: set else set)
                               (L c1) set) l s)
  <-> In j s \/ exists c1, In c1 l /\ In j (L c1) /\ p c1 j = true.
Proof.
  revert s; induction l as [|c l IH]; intros s; simpl.
  - split; [auto | intros [H | (c1 & [] & _)]; exact H].
  - rewrite IH, In_fold_add. split.
    + intros [[H | [H1 H2]] | (c1 & H1 & H2 & H3)].
      * now left.
      * right. exists c. auto.
      * right. exists c1. auto.
    + intros [H | (c1 & [<- | H1] & H2 & H3)].
      * left. now left.
      * left. right. auto.
      * right. exists c1. auto.
Qed.

(** On a table whose rows all have [n] cells the two loops end without
    exception, with the set of the later duplicates. *)
Lemma duplicate_columns_spec (n : nat) (t : list (list str)) :
  (forall row, In row t -> length row = n) ->
  exists removed,
    duplicate_columns n t = Ok removed
    /\ forall j, In j removed <-> j < n /\ exists i, i < j /\ same_column t i j.
Proof.
  intros Hlen.
  set (inner := fun (c1 : nat) (set : list nat) =>
         fold_left (fun set c2 => if same_columnb t c1 c2 then c2 :: set else set)
                   (seq (c1 + 1) (n - (c1 + 1))) set).
  exists (fold_left (fun set c1 => inner c1 set) (seq 0 (n - 1)) []).
  split.
  - unfold duplicate_columns. apply for_each_total.
    intros s c1 Hc1. apply in_seq in Hc1. unfold inner.
    apply for_each_total. intros s' c2 Hc2. apply in_seq in Hc2.
    rewrite all_equal_total; [reflexivity|].
    intros row Hrow. rewrite (Hlen row Hrow). lia.
  - intros j. unfold inner. rewrite In_fold_fold_add. split.
    + intros [[] | (c1 & H1 & H2 & H3)].
      apply in_seq in H1, H2. apply same_columnb_spec in H3.
      split; [lia|]. exists c1. split; [lia | assumption].
    + intros (Hj & i & Hi & Hsame). right. exists i.
      rewrite !in_seq. apply same_columnb_spec in Hsame.
      repeat split; try lia; assumption.
Qed.

Lemma filter_columns_nil (i : nat) (row : list str) : filter_columns [] i row = row.
Proof.
  revert i; induction row as [|c row IH]; intros i; simpl; [reflexivity|].
  now rewrite IH.
Qed.

(** Every column has an equal column, itself or an earlier one, that is
    not removed. *)
Lemma kept_representative (t : list (list str)) (removed : list nat) :
  (forall j, In j removed -> exists i, i < j /\ same_column t i j) ->
  forall j, exists i, i <= j /\ ~ In i removed /\ same_column t i j.
Proof.
  intros Hrem j. induction j as [j IH] using (well_founded_induction lt_wf).
  destruct (in_dec Nat.eq_dec j removed) as [Hin | Hout].
  - destruct (Hrem j Hin) as (i & Hi & Hsame).
    destruct (IH i Hi) as (i' & Hle & Hkept & Hsame').
    exists i'. repeat split; [lia | assumption |].
    intros row Hrow. now rewrite (Hsame' row Hrow), (Hsame row Hrow).
  - exists j. repeat split; [lia | assumption].
Qed.

(** C8: on a rectangular table [remove_duplicate_columns] returns the rows
    without the cells of a set of columns, which is exactly the set of the
    columns equal, in every row, to some earlier column; every column has
    an equal column at its place or before it that is kept; and the rows
    [["a","a","b"],["c","c","d"]] become [["a","b"],["c","d"]]. *)
Theorem remove_duplicate_columns_spec :
  (forall table_data : list (list str),
      rectangular table_data ->
      exists removed : list nat,
        remove_duplicate_columns table_data
        = Ok (map (filter_columns removed 0) table_data)
        /\ (forall j, In j removed <-> later_duplicate table_data j)
        /\ (forall j, exists i,
               i <= j /\ ~ In i removed /\ same_column table_data i j))
  /\ remove_duplicate_columns [[u "a"; u "a"; u "b"]; [u "c"; u "c"; u "d"]]
     = Ok [[u "a"; u "b"]; [u "c"; u "d"]].
Proof.
  split; [|reflexivity].
  intros t Hrect.
  assert (Hgoal : exists removed : list nat,
             remove_duplicate_columns t = Ok (map (filter_columns removed 0) t)
             /\ (forall j, In j removed <-> later_duplicate t j)).
  { destruct t as [|first rest].
    - exists []. split; [reflexivity|].
      intros j; split; [intros [] | intros [H _]; simpl in H; lia].
    - unfold remove_duplicate_columns.
      destruct (length first <=? 1) eqn:E.
      + exists []. split.
        * f_equal. symmetry. erewrite map_ext; [apply map_id|].
          intros row. apply filter_columns_nil.
        * apply Nat.leb_le in E.
          intros j; split; [intros [] | intros [H (i & Hi & _)]; simpl in H; lia].
      + destruct (duplicate_columns_spec (length first) (first :: rest))
          as (removed & Hdup & Hmem).
        { intros row Hrow. apply Hrect; [assumption | now left]. }
        exists removed. rewrite Hdup. split; [reflexivity|].
        intros j. rewrite Hmem. reflexivity. }
  destruct Hgoal as (removed & Hres & Hmem).
  exists removed. split; [exact Hres | split; [exact Hmem |]].
  apply kept_representative.
  intros j Hj. apply Hmem in Hj as [_ H]. exact H.
Qed.

(** The theorem at work on the rows of the example. *)
Lemma remove_duplicate_columns_witness :
  exists removed : list nat,
    remove_duplicate_columns [[u "a"; u "a"; u "b"]; [u "c"; u "c"; u "d"]]
    = Ok (map (filter_columns removed 0)
              [[u "a"; u "a"; u "b"]; [u "c"; u "c"; u "d"]])
    /\ (forall j, In j removed
                  <-> later_duplicate [[u "a"; u "a"; u "b"]; [u "c"; u "c"; u "d"]] j)
    /\ (forall j, exists i,
           i <= j /\ ~ In i removed
           /\ same_column [[u "a"; u "a"; u "b"]; [u "c"; u "c"; u "d"]] i j).
Proof.
  apply (proj1 remove_duplicate_columns_spec).
  intros r1 r2 [<- | [<- | []]] [<- | [<- | []]]; reflexivity.
Defined.

End TableDedupe.

(** ** Structural Classifier *)

Section OutlineScan.
Context {R : Runtime}.

Lemma split_once_In (sep : char) (t : str) :
  In sep t -> exists a b, split_once sep t = Some (a, b).
Proof.
  induction t as [|c t IH]; intros Hin; [destruct Hin|]. simpl.
  destruct (chr_eqb c sep) eqn:E; [eauto|].
  destruct Hin as [-> | Hin]; [rewrite chr_eqb_refl in E; discriminate|].
  destruct (IH Hin) as (a & b & ->). eauto.
Qed.

Lemma startswith_cons (c : char) (t : str) :
  startswith [c] t = true -> exists t', t = c :: t'.
Proof.
  destruct t as [|d t]; simpl; [discriminate|].
  rewrite andb_true_r. intros H. apply chr_eqb_eq in H. subst. eauto.
Qed.

(** A way to read [p+] at the head of a text splits the text. *)
Lemma runs_of_split (p : char -> bool) (t d r : str) :
  In (d, r) (runs_of p t) -> t = d ++ r.
Proof.
  revert d r; induction t as [|c t IH]; intros d r Hin; simpl in Hin; [tauto|].
  destruct (p c); [|destruct Hin].
  apply in_app_or in Hin as [Hin | [Hin | []]].
  - apply in_map_iff in Hin as ([d' r'] & E & Hin). simpl in E.
    injection E as <- <-. simpl. f_equal. now apply IH.
  - now injection Hin as <- <-.
Qed.

Lemma header_has_parenthesis (text : str) :
  is_section_header text || is_subsection_header text = true -> In 41%N text.
Proof.
  intros H. apply orb_true_iff in H as [H | H].
  - unfold is_section_header in H. apply existsb_exists in H as ([d r] & Hin & Hr).
    cbn [snd] in Hr. change (u ")") with [41%N] in Hr.
    apply startswith_cons in Hr as [r' ->].
    apply runs_of_split in Hin as ->. apply in_or_app. right. now left.
  - destruct text as [|c rest]; [discriminate|]. unfold is_subsection_header in H.
    change (u ")") with [41%N] in H.
    apply andb_true_iff in H as [_ H]. apply startswith_cons in H as [r' ->].
    right. now left.
Qed.

(** On a header the title is extracted without exception. *)
Lemma extract_section_title_header (text : str) :
  is_section_header text || is_subsection_header text = true ->
  exists title, extract_section_title text = Ok title.
Proof.
  intros H. unfold extract_section_title. rewrite H.
  destruct (split_once_In 41%N text (header_has_parenthesis text H)) as (a & b & ->).
  eauto.
Qed.

Lemma classified_section_title (p : paragraph) :
  classified_section p = true ->
  exists title, extract_section_title (text_of p) = Ok title.
Proof.
  unfold classified_section. intros H.
  apply extract_section_title_header. now rewrite H.
Qed.

Lemma classified_subsection_title (p : paragraph) :
  classified_subsection p = true ->
  exists title, extract_section_title (text_of p) = Ok title.
Proof.
  unfold classified_subsection. intros H. apply andb_true_iff in H as [_ H].
  apply extract_section_title_header. rewrite H. apply orb_true_r.
Qed.

(** The three branches of the loop of the scan. *)
Lemma scan_sections_section (p : paragraph) (rest : list paragraph)
      (sections subsections : list str) (owner : option str) (title : str) :
  classified_section p = true ->
  extract_section_title (text_of p) = Ok title ->
  scan_sections (p :: rest) sections subsections owner
  = scan_sections rest (sections ++ [title]) subsections (Some title).
Proof.
  unfold classified_section, text_of. intros Hs Ht. simpl.
  now rewrite Hs, Ht.
Qed.

Lemma scan_sections_subsection (p : paragraph) (rest : list paragraph)
      (sections subsections : list str) (owner : option str) (title : str) :
  classified_subsection p = true ->
  extract_section_title (text_of p) = Ok title ->
  scan_sections (p :: rest) sections subsections owner
  = match owner with
    | None => Raise UnboundLocalError
    | Some o => scan_sections rest sections (subsections ++ [o; title]) owner
    end.
Proof.
  unfold classified_subsection, text_of. intros Hs Ht.
  apply andb_true_iff in Hs as [Hn Hs]. apply negb_true_iff in Hn.
  simpl. now rewrite Hn, Hs, Ht.
Qed.

Lemma scan_sections_other (p : paragraph) (rest : list paragraph)
      (sections subsections : list str) (owner : option str) :
  classified_section p = false ->
  classified_subsection p = false ->
  scan_sections (p :: rest) sections subsections owner
  = scan_sections rest sections subsections owner.
Proof.
  unfold classified_section, classified_subsection, text_of. intros Hs Hn.
  rewrite Hs in Hn. simpl in Hn. simpl. now rewrite Hs, Hn.
Qed.

(** Once a section header has been seen the scan returns. *)
Lemma scan_sections_bound (ps : list paragraph) :
  forall sections subsections (o : str),
  exists outline, scan_sections ps sections subsections (Some o) = Ok outline.
Proof.
  induction ps as [|p rest IH]; intros sections subsections o; [simpl; eauto|].
  destruct (classified_section p) eqn:Hs.
  - destruct (classified_section_title p Hs) as [t Ht].
    rewrite (scan_sections_section p rest _ _ _ t Hs Ht). apply IH.
  - destruct (classified_subsection p) eqn:Hn.
    + destruct (classified_subsection_title p Hn) as [t Ht].
      rewrite (scan_sections_subsection p rest _ _ _ t Hn Ht). apply IH.
    + rewrite (scan_sections_other p rest _ _ _ Hs Hn). apply IH.
Qed.

(** With no section header seen yet, the scan returns or raises according
    to the kind of the first header. *)
Lemma scan_sections_unbound (ps : list paragraph) :
  forall sections subsections,
    (first_header_is_subsection ps = false ->
     exists outline, scan_sections ps sections subsections None = Ok outline)
    /\ (first_header_is_subsection ps = true ->
        scan_sections ps sections subsections None = Raise UnboundLocalError).
Proof.
  induction ps as [|p rest IH]; intros sections subsections; simpl first_header_is_subsection.
  - split; [simpl; eauto | discriminate].
  - destruct (classified_section p) eqn:Hs.
    + destruct (classified_section_title p Hs) as [t Ht].
      rewrite (scan_sections_section p rest _ _ _ t Hs Ht).
      split; [intros _; apply scan_sections_bound | discriminate].
    + destruct (classified_subsection p) eqn:Hn.
      * destruct (classified_subsection_title p Hn) as [t Ht].
        rewrite (scan_sections_subsection p rest _ _ _ t Hn Ht).
        split; [discriminate | reflexivity].
      * rewrite (scan_sections_other p rest _ _ _ Hs Hn). apply IH.
Qed.

Lemma subsections_owned_iff (ps : list paragraph) :
  first_header_is_subsection ps = false <-> subsections_owned ps.
Proof.
  unfold subsections_owned. induction ps as [|p rest IH]; simpl.
  - split; [|reflexivity]. intros _ [|? ?] q after E; discriminate.
  - destruct (classified_section p) eqn:Hs.
    + split; [|reflexivity]. intros _ [|p' before] q after E Hq.
      * injection E as <- _. unfold classified_subsection in Hq.
        unfold classified_section in Hs. rewrite Hs in Hq. discriminate.
      * injection E as <- _. simpl. now rewrite Hs.
    + destruct (classified_subsection p) eqn:Hn.
      * split; [discriminate|]. intros H.
        specialize (H [] p rest eq_refl Hn). discriminate.
      * rewrite IH. split.
        -- intros H [|p' before] q after E Hq.
           ++ injection E as <- _. congruence.
           ++ injection E as <- E. simpl. rewrite Hs. simpl. eapply H; eauto.
        -- intros H before q after E Hq.
           specialize (H (p :: before) q after). simpl in H.
           rewrite Hs in H. simpl in H. apply H; [now rewrite E | assumption].
Qed.

Lemma classified_section_not_subsection (p : paragraph) :
  classified_section p = true -> classified_subsection p = false.
Proof.
  unfold classified_section, classified_subsection. now intros ->.
Qed.

Lemma count_subsections_cons (p : paragraph) (ps : list paragraph) :
  count_subsections (p :: ps)
  = (if classified_subsection p then 1 else 0) + count_subsections ps.
Proof.
  unfold count_subsections. simpl. now destruct (classified_subsection p).
Qed.

(** What a scan that returns has appended: the titles of the section
    headers to the first list and, to the second, two entries for each
    subsection header: the title of the last section header before it,
    then its own title. *)
Lemma scan_sections_positions (ps : list paragraph) :
  forall sections subsections owner out_sections out_subsections,
    scan_sections ps sections subsections owner = Ok (out_sections, out_subsections) ->
    out_sections = sections ++ section_titles ps
    /\ exists added,
        out_subsections = subsections ++ added
        /\ length added = 2 * count_subsections ps
        /\ forall before p after,
            ps = before ++ p :: after ->
            classified_subsection p = true ->
            exists o own,
              owning_section_title owner before = Some o
              /\ extract_section_title (text_of p) = Ok own
              /\ nth_error added (2 * count_subsections before) = Some o
              /\ nth_error added (2 * count_subsections before + 1) = Some own.
Proof.
  induction ps as [|p rest IH]; intros sections subsections owner os ob Hscan.
  - simpl in Hscan. injection Hscan as <- <-. split; [now rewrite app_nil_r|].
    exists []. rewrite app_nil_r. repeat split.
    intros [|? ?] q after E; discriminate.
  - rewrite count_subsections_cons.
    destruct (classified_section p) eqn:Hs.
    + destruct (classified_section_title p Hs) as [t Ht].
      rewrite (scan_sections_section p rest _ _ _ t Hs Ht) in Hscan.
      apply IH in Hscan as (Hsec & added & Hsub & Hlen & Hpos).
      rewrite (classified_section_not_subsection p Hs).
      split; [simpl; rewrite Hs, Ht, Hsec, <- app_assoc; reflexivity|].
      exists added. repeat split; try assumption.
      intros [|p' before] q after E Hq.
      * injection E as <- _.
        rewrite (classified_section_not_subsection p Hs) in Hq. discriminate.
      * injection E as <- E. rewrite count_subsections_cons.
        rewrite (classified_section_not_subsection p Hs).
        simpl owning_section_title. rewrite Hs, Ht.
        apply (Hpos before q after E Hq).
    + destruct (classified_subsection p) eqn:Hn.
      * destruct (classified_subsection_title p Hn) as [t Ht].
        rewrite (scan_sections_subsection p rest _ _ _ t Hn Ht) in Hscan.
        destruct owner as [o0|]; [|discriminate].
        apply IH in Hscan as (Hsec & added & Hsub & Hlen & Hpos).
        split; [simpl; rewrite Hs; exact Hsec|].
        exists (o0 :: t :: added). split; [|split].
        -- rewrite Hsub, <- app_assoc. reflexivity.
        -- simpl. lia.
        -- intros [|p' before] q after E Hq.
           ++ injection E as <- _. exists o0, t. repeat split; assumption.
           ++ injection E as <- E. rewrite count_subsections_cons, Hn.
              simpl owning_section_title. rewrite Hs.
              destruct (Hpos before q after E Hq) as (o & own & H1 & H2 & H3 & H4).
              exists o, own. repeat split; try assumption.
              ** replace (2 * (1 + count_subsections before))
                   with (S (S (2 * count_subsections before))) by lia.
                 exact H3.
              ** replace (2 * (1 + count_subsections before) + 1)
                   with (S (S (2 * count_subsections before + 1))) by lia.
                 exact H4.
      * rewrite (scan_sections_other p rest _ _ _ Hs Hn) in Hscan.
        apply IH in Hscan as (Hsec & added & Hsub & Hlen & Hpos).
        split; [simpl; rewrite Hs; exact Hsec|].
        exists added. repeat split; try assumption.
        intros [|p' before] q after E Hq.
        -- injection E as <- _. congruence.
        -- injection E as <- E. rewrite count_subsections_cons, Hn.
           simpl owning_section_title. rewrite Hs.
           apply (Hpos before q after E Hq).
Qed.

(** C3 (amended): on a paragraph sequence whose first header is not a
    subsection header the outline scan returns two lists; the first holds
    the titles of the section headers; the second holds two entries for
    each subsection header, in order: the title of the last section header
    before it, and then the own extracted title of the subsection. *)
Theorem extract_sections_list_pairs (ps : list paragraph) :
  first_header_is_subsection ps = false ->
  exists sections subsections,
    extract_sections_list ps = Ok (sections, subsections)
    /\ sections = section_titles ps
    /\ length subsections = 2 * count_subsections ps
    /\ forall before p after,
        ps = before ++ p :: after ->
        classified_subsection p = true ->
        exists owner own,
          owning_section_title None before = Some owner
          /\ extract_section_title (text_of p) = Ok own
          /\ nth_error subsections (2 * count_subsections before) = Some owner
          /\ nth_error subsections (2 * count_subsections before + 1) = Some own.
Proof.
  intros Hfirst.
  destruct (proj1 (scan_sections_unbound ps [] []) Hfirst) as [[sections subsections] Hscan].
  exists sections, subsections. split; [exact Hscan|].
  apply scan_sections_positions in Hscan as (Hsec & added & Hsub & Hlen & Hpos).
  simpl in Hsec, Hsub. subst. auto.
Qed.

(** C10: the outline scan returns exactly on the paragraph sequences where
    every subsection header comes after a section header, which are those
    whose first header is not a subsection header; on a sequence whose
    first header is a subsection header it raises [UnboundLocalError]. *)
Theorem extract_sections_list_total_iff (ps : list paragraph) :
  (first_header_is_subsection ps = false <-> subsections_owned ps)
  /\ (subsections_owned ps <-> exists outline, extract_sections_list ps = Ok outline)
  /\ (first_header_is_subsection ps = true ->
      extract_sections_list ps = Raise UnboundLocalError).
Proof.
  destruct (scan_sections_unbound ps [] []) as [Hok Hraise].
  split; [apply subsections_owned_iff|]. split; [|exact Hraise].
  rewrite <- subsections_owned_iff. split; [exact Hok|].
  intros [outline Hout].
  destruct (first_header_is_subsection ps); [|reflexivity].
  unfold extract_sections_list in Hout. rewrite Hraise in Hout by reflexivity.
  discriminate.
Qed.

End OutlineScan.

(** The theorem at work: ["a) Sub"] alone, and after ["1) Budget"]. *)
Lemma extract_sections_list_total_iff_witness :
  extract_sections_list [plain (u "a) Sub")] = Raise UnboundLocalError
  /\ exists outline,
       extract_sections_list [plain (u "1) Budget"); plain (u "a) Sub")] = Ok outline.
Proof.
  split.
  - apply (proj2 (proj2 (extract_sections_list_total_iff [plain (u "a) Sub")]))).
    reflexivity.
  - apply (proj1 (proj2 (extract_sections_list_total_iff
                           [plain (u "1) Budget"); plain (u "a) Sub")]))).
    apply (proj1 (proj1 (extract_sections_list_total_iff
                           [plain (u "1) Budget"); plain (u "a) Sub")]))).
    reflexivity.
Defined.

(** C3 as stated fails: on the single paragraph ["a) Sub"] the scan
    returns no outline. *)
Lemma extract_sections_list_orphan_subsection :
  ~ exists outline, extract_sections_list [plain (u "a) Sub")] = Ok outline.
Proof. intros [outline H]. vm_compute in H. discriminate. Qed.

(** The amended statement at work on four paragraphs. *)
Lemma extract_sections_list_pairs_witness :
  exists sections subsections,
    extract_sections_list
      [plain (u "1) Budget"); plain (u "a) Sub"); plain (u "Texte"); plain (u "b) Autre")]
    = Ok (sections, subsections)
    /\ sections
       = section_titles
           [plain (u "1) Budget"); plain (u "a) Sub"); plain (u "Texte"); plain (u "b) Autre")]
    /\ length subsections
       = 2 * count_subsections
               [plain (u "1) Budget"); plain (u "a) Sub"); plain (u "Texte"); plain (u "b) Autre")]
    /\ forall before p after,
        [plain (u "1) Budget"); plain (u "a) Sub"); plain (u "Texte"); plain (u "b) Autre")]
        = before ++ p :: after ->
        classified_subsection p = true ->
        exists owner own,
          owning_section_title None before = Some owner
          /\ extract_section_title (text_of p) = Ok own
          /\ nth_error subsections (2 * count_subsections before) = Some owner
          /\ nth_error subsections (2 * count_subsections before + 1) = Some own.
Proof.
  apply (extract_sections_list_pairs
           [plain (u "1) Budget"); plain (u "a) Sub"); plain (u "Texte"); plain (u "b) Autre")]).
  reflexivity.
Defined.

Example extract_sections_list_example :
  extract_sections_list
    [plain (u "1) Budget"); plain (u "a) Sub"); plain (u "Texte"); plain (u "b) Autre")]
  = Ok ([u "Budget"], [u "Budget"; u "Sub"; u "Budget"; u "Autre"]).
Proof. reflexivity. Qed.

(** ** Image sizes *)

Section ImageSizes.
Context {R : Runtime}.

Lemma size_option_emitted (key : str) (value : option float) :
  size_option key value <> [] ->
  exists v, value = Some v /\ PyFloat.truthy v = true /\ PyFloat.gt_zero v = true.
Proof.
  unfold size_option. destruct value as [v|]; [|congruence].
  destruct (PyFloat.truthy v && PyFloat.gt_zero v) eqn:E; [|congruence].
  apply andb_true_iff in E as [Ht Hp]. intros _. now exists v.
Qed.

Lemma image_options_emitted (width_cm height_cm : option float) (opt : str) :
  In opt (image_options width_cm height_cm) ->
  (exists v, width_cm = Some v /\ PyFloat.gt_zero v = true
             /\ opt = u "width=" ++ PyFloat.format_2f v ++ u "cm")
  \/ (exists v, height_cm = Some v /\ PyFloat.gt_zero v = true
                /\ opt = u "height=" ++ PyFloat.format_2f v ++ u "cm").
Proof.
  unfold image_options. intros H. apply in_app_or in H as [H | H]; [left | right].
  - assert (Hne : size_option (u "width") width_cm <> [])
      by (intros E; rewrite E in H; destruct H).
    apply size_option_emitted in Hne as (v & -> & Ht & Hp).
    exists v. repeat split; try assumption.
    unfold size_option in H. rewrite Ht, Hp in H. destruct H as [<- | []].
    reflexivity.
  - assert (Hne : size_option (u "height") height_cm <> [])
      by (intros E; rewrite E in H; destruct H).
    apply size_option_emitted in Hne as (v & -> & Ht & Hp).
    exists v. repeat split; try assumption.
    unfold size_option in H. rewrite Ht, Hp in H. destruct H as [<- | []].
    reflexivity.
Qed.

(** A size greater than zero is not zero. *)
Lemma gt_zero_truthy (v : float) :
  PyFloat.gt_zero v = true -> PyFloat.truthy v = true.
Proof.
  unfold PyFloat.gt_zero, PyFloat.truthy. rewrite ltb_spec, eqb_spec.
  change (Prim2SF 0%float) with (S754_zero false).
  destruct (Prim2SF v) as [s|s| |s m e]; simpl; try discriminate;
    destruct s; (discriminate || reflexivity).
Qed.

(** The option that [_write_latex_file] writes for a size: none unless it
    is present and strictly positive. *)
Lemma size_option_positive (key : str) (value : option float) :
  size_option key value
  = match value with
    | Some v =>
        if PrimFloat.ltb 0%float v
        then [key ++ u "=" ++ PyFloat.format_2f v ++ u "cm"]
        else []
    | None => []
    end.
Proof.
  unfold size_option. destruct value as [v|]; [|reflexivity].
  change (PrimFloat.ltb 0%float v) with (PyFloat.gt_zero v).
  destruct (PyFloat.gt_zero v) eqn:E.
  - now rewrite (gt_zero_truthy v E).
  - now rewrite andb_false_r.
Qed.

Lemma image_markup_figure (path : str) (width_cm height_cm : option float) :
  path <> [] ->
  image_markup path width_cm height_cm
  = figure match image_options width_cm height_cm with
           | [] => []
           | opts => u "[" ++ join (u ",") opts ++ u "]"
           end
           (image_rel_path path).
Proof.
  intros Hpath. unfold image_markup, figure, image_rel_path.
  destruct path as [|c path]; [contradiction|].
  destruct (path_name (c :: path)); destruct (image_options _ _); reflexivity.
Qed.


End ImageSizes.


(** ** Document Walker *)

Section WalkerTitle.
Context {R : Runtime}.
Variable config : Config.
Variable doc : document.
Variable image_map : list (str * str).

Lemma elements_fold_append (l : list element) (d : data) :
  elements (fold_left append_element l d) = elements d ++ l.
Proof.
  revert d; induction l as [|e l IH]; intros d; simpl.
  - now rewrite app_nil_r.
  - rewrite IH. simpl. now rewrite <- app_assoc.
Qed.

Lemma first_text_fold_append (l : list element) (d : data) :
  first_text (fold_left append_element l d) = first_text d.
Proof.
  revert d; induction l as [|e l IH]; intros d; simpl; [reflexivity|].
  now rewrite IH.
Qed.

Lemma title_texts_app (l1 l2 : list element) :
  title_texts (l1 ++ l2) = title_texts l1 ++ title_texts l2.
Proof. apply flat_map_app. Qed.

Lemma title_texts_image_elements (xml : par_xml) (idx : nat) (rs : list str) :
  title_texts (image_elements image_map xml idx rs) = [].
Proof.
  revert idx; induction rs as [|rid rs IH]; intros idx; simpl; [reflexivity|].
  destruct (image_lookup image_map rid); [|apply IH].
  destruct (nonzero _ && nonzero _); simpl; apply IH.
Qed.

(** The step on the first paragraph with a non-empty text: its images
    and one Title are emitted, and nothing else of the walker changes. *)
Lemma walk_step_title (w : walker) (xml : par_xml) (r : ref) (para : paragraph) :
  first_text (w_data w) = None ->
  nth_error (paragraphs doc) r = Some para ->
  strip (para_text para) <> [] ->
  walk_step config doc image_map w (P xml r)
  = Ok (with_data w
          (append_element
             (set_first_text
                (fold_left append_element
                           (image_elements image_map xml 0 (rids xml)) (w_data w))
                (strip (para_text para)))
             (title_element (strip (para_text para))))).
Proof.
  intros Hfirst Hpara Htext. unfold walk_step, _process_element.
  rewrite Hpara, first_text_fold_append, Hfirst.
  destruct (strip (para_text para)) as [|c text]; [congruence|].
  reflexivity.
Qed.

(** What one step does to the Title elements and to [first_text]. *)
Lemma walk_step_titles (w w' : walker) (e : body_element) :
  walk_step config doc image_map w e = Ok w' ->
  first_text (w_data w')
  = match first_text (w_data w) with
    | Some text => Some text
    | None => first_non_empty doc [e]
    end
  /\ title_texts (elements (w_data w'))
     = title_texts (elements (w_data w))
         ++ match first_text (w_data w), first_non_empty doc [e] with
            | None, Some text => [text]
            | _, _ => []
            end.
Proof.
  unfold walk_step, _process_element. intros H.
  destruct e as [|xml r|]; simpl first_non_empty.
  - destruct (nth_error (data_tables (w_data w)) (table_index w)).
    + destruct (remove_duplicate_columns _); simpl in H; [|discriminate].
      injection H as <-. simpl. rewrite title_texts_app. simpl.
      destruct (first_text (w_data w)); auto.
    + simpl in H. injection H as <-. simpl.
      destruct (first_text (w_data w)); rewrite app_nil_r; auto.
  - set (d := fold_left append_element
                        (image_elements image_map xml 0 (rids xml)) (w_data w)) in *.
    assert (Hd1 : first_text d = first_text (w_data w))
      by apply first_text_fold_append.
    assert (Hd2 : title_texts (elements d) = title_texts (elements (w_data w))).
    { unfold d. rewrite elements_fold_append, title_texts_app,
        title_texts_image_elements. apply app_nil_r. }
    destruct (nth_error (paragraphs doc) r) as [para|].
    2:{ simpl in H. injection H as <-. simpl. rewrite Hd1, Hd2.
        destruct (first_text (w_data w)); rewrite app_nil_r; auto. }
    rewrite Hd1 in H.
    assert (Hother :
              (first_text (w_data w) = None -> strip (para_text para) = []) ->
              first_text (w_data w') = first_text (w_data w)
              /\ title_texts (elements (w_data w'))
                 = title_texts (elements (w_data w))).
    { intros Hcase.
      destruct (first_text (w_data w)) as [seen|] eqn:Hseen;
        destruct (strip (para_text para)) as [|c text] eqn:Htext;
        try (specialize (Hcase eq_refl); discriminate).
      - destruct (startswith _ _); [|destruct (in_present_section w)];
          simpl in H; injection H as <-; simpl;
          rewrite ?title_texts_app, ?Hd1, ?Hd2; simpl; rewrite ?app_nil_r; auto.
      - destruct (startswith (u "Présents") _);
          [|destruct (in_present_section w);
            [destruct (startswith (u "__") _)
            |destruct (is_section_header _);
             [destruct (extract_section_title _)
             |destruct (is_subsection_header _);
              [destruct (extract_section_title _)|]]]];
          simpl in H; try discriminate; injection H as <-; simpl;
          rewrite ?title_texts_app, ?Hd1, ?Hd2; simpl; rewrite ?app_nil_r; auto.
      - destruct (startswith _ _); [|destruct (in_present_section w)];
          simpl in H; injection H as <-; simpl;
          rewrite ?title_texts_app, ?Hd1, ?Hd2; simpl; rewrite ?app_nil_r; auto. }
    destruct (first_text (w_data w)) as [seen|] eqn:Hseen.
    + destruct Hother as [-> ->]; [discriminate|]. rewrite app_nil_r.
      destruct (strip (para_text para)); auto.
    + destruct (strip (para_text para)) as [|c text] eqn:Htext.
      * destruct Hother as [-> ->]; [reflexivity|]. rewrite app_nil_r. auto.
      * simpl in H. injection H as <-. simpl.
        rewrite title_texts_app, Hd2. auto.
  - simpl in H. injection H as <-. simpl.
    destruct (first_text (w_data w)); rewrite app_nil_r; auto.
Qed.

Lemma first_non_empty_cons (e : body_element) (els : list body_element) :
  first_non_empty doc (e :: els)
  = match first_non_empty doc [e] with
    | Some text => Some text
    | None => first_non_empty doc els
    end.
Proof.
  destruct e as [|xml r|]; simpl; try reflexivity.
  destruct (nth_error (paragraphs doc) r) as [para|]; [|reflexivity].
  destruct (strip (para_text para)); reflexivity.
Qed.

Lemma walk_titles (els : list body_element) :
  forall w w',
    walk config doc image_map els w = Ok w' ->
    first_text (w_data w')
    = match first_text (w_data w) with
      | Some text => Some text
      | None => first_non_empty doc els
      end
    /\ title_texts (elements (w_data w'))
       = title_texts (elements (w_data w))
           ++ match first_text (w_data w), first_non_empty doc els with
              | None, Some text => [text]
              | _, _ => []
              end.
Proof.
  unfold walk. induction els as [|e els IH]; intros w w' H.
  - simpl in H. injection H as <-. simpl.
    destruct (first_text (w_data w)); rewrite app_nil_r; auto.
  - simpl in H. returned H as w1 eqn:Hstep.
    apply walk_step_titles in Hstep as [Hf1 Ht1].
    apply IH in H as [Hf Ht].
    rewrite Hf, Ht, Hf1, Ht1, (first_non_empty_cons e els).
    destruct (first_text (w_data w)); [now rewrite !app_nil_r|].
    destruct (first_non_empty doc [e]); rewrite ?app_nil_r; auto.
Qed.

Variable cohere_client : option (list str -> str -> option str).

(** C7 (amended): a traversal that completes has emitted at most one
    Title: none when no paragraph of the body has a non-empty stripped
    text, and otherwise exactly one, which carries the stripped text of the
    first such paragraph. The step on that paragraph, whatever pattern its
    text matches, emits its embedded images and the Title and changes
    nothing else of the state of the walker. *)
Theorem title_is_first_non_empty_text :
  (forall doc_title d h,
      _process_document config cohere_client doc doc_title image_map = Ok (d, h) ->
      title_texts (elements d)
      = match first_non_empty doc (body doc) with
        | Some text => [text]
        | None => []
        end)
  /\ (forall d0 els w,
         first_text d0 = None ->
         title_texts (elements d0) = [] ->
         walk config doc image_map els (initial_walker d0) = Ok w ->
         title_texts (elements (w_data w))
         = match first_non_empty doc els with
           | Some text => [text]
           | None => []
           end)
  /\ (forall d0 before xml r para w,
         first_text d0 = None ->
         walk config doc image_map before (initial_walker d0) = Ok w ->
         first_non_empty doc before = None ->
         nth_error (paragraphs doc) r = Some para ->
         strip (para_text para) <> [] ->
         walk_step config doc image_map w (P xml r)
         = Ok (with_data w
                 (append_element
                    (set_first_text
                       (fold_left append_element
                                  (image_elements image_map xml 0 (rids xml))
                                  (w_data w))
                       (strip (para_text para)))
                    (title_element (strip (para_text para)))))).
Proof.
  split; [|split].
  - intros doc_title d h H. unfold _process_document in H.
    returned H as [sections subsections] eqn:Hscan.
    returned H as w eqn:Hwalk.
    apply walk_titles in Hwalk as [_ Ht]. simpl in Ht.
    returned H as h' eqn:Hcorrect.
    injection H as <- _. exact Ht.
  - intros d0 els w Hd0 Hnone Hwalk.
    apply walk_titles in Hwalk as [_ Ht]. simpl in Ht.
    now rewrite Hd0, Hnone in Ht.
  - intros d0 before xml r para w Hd0 Hwalk Hbefore Hpara Htext.
    apply walk_step_title; try assumption.
    apply walk_titles in Hwalk as [Hf _]. simpl in Hf.
    now rewrite Hd0, Hbefore in Hf.
Qed.

End WalkerTitle.

(** C7 as stated fails: the traversal of a document of one blank
    paragraph emits no Title. *)
Lemma blank_document_has_no_title :
  exists d h,
    _process_document default_config None blank_document (u "PV") [] = Ok (d, h)
    /\ elements d = []
    /\ length (title_texts (elements d)) <> 1.
Proof.
  eexists. eexists. split; [vm_compute; reflexivity|].
  split; [reflexivity | discriminate].
Qed.

(** The amended statement at work: the text ["1) Budget"] has the form of
    a section header and is the Title. *)
Lemma title_is_first_non_empty_text_witness :
  exists d h,
    _process_document default_config None budget_document (u "PV") [] = Ok (d, h)
    /\ elements d = [title_element (u "1) Budget"); paragraph_element 2]
    /\ title_texts (elements d)
       = match first_non_empty budget_document (body budget_document) with
         | Some text => [text]
         | None => []
         end.
Proof.
  eexists. eexists. split; [vm_compute; reflexivity|].
  split; [reflexivity|].
  apply (proj1 (title_is_first_non_empty_text
                  default_config budget_document [] None) (u "PV") _
               (paragraphs budget_document)).
  vm_compute. reflexivity.
Defined.

(** ** The attendee block *)

Section AttendeeBlock.
Context {R : Runtime}.
Variable config : Config.
Variable doc : document.
Variable image_map : list (str * str).

(** Inside the attendee block a name is buffered as the stripped text of
    its paragraph, a leading ["#"] included. *)
Lemma walk_step_buffers_name (w : walker) (xml : par_xml) (r : ref)
      (para : paragraph) (seen : str) :
  first_text (w_data w) = Some seen ->
  in_present_section w = true ->
  nth_error (paragraphs doc) r = Some para ->
  strip (para_text para) <> [] ->
  startswith (u "Présents") (strip (para_text para)) = false ->
  startswith (u "__") (strip (para_text para)) = false ->
  walk_step config doc image_map w (P xml r)
  = Ok {| w_data := fold_left append_element
                              (image_elements image_map xml 0 (rids xml)) (w_data w);
          table_index := table_index w;
          in_present_section := true;
          present_names_buffer := present_names_buffer w ++ [strip (para_text para)];
          paragraphs_to_correct := paragraphs_to_correct w |}.
Proof.
  intros Hseen Hin Hpara Htext Hmarker Hend.
  unfold walk_step, _process_element.
  rewrite Hpara, first_text_fold_append, Hseen. cbv iota.
  rewrite Hmarker, Hin.
  destruct (strip (para_text para)) as [|c text]; [congruence|].
  rewrite Hend. reflexivity.
Qed.

End AttendeeBlock.

(** C2 (amended): after the title, on the paragraphs ["Présents"],
    ["Alice"], ["#Bob"], [""], ["Next"]: the marker paragraph opens the
    block and is not buffered; the two names are buffered as they are, so
    the buffer is ["Alice"; "#Bob"]; the empty paragraph emits it as one
    attendee element, empties it and closes the block; ["Next"] is then
    emitted as a plain paragraph. The leading ["#"] is removed by the
    renderer: on the attendee element [write_element] writes the list of
    the names ["Alice"; "Bob"], and so does [_write_latex_file] on the
    data of the traversal. *)
Theorem attendee_block_trace :
  exists w2 w3 w4 w5,
    walk default_config attendee_document [] [par 0]
         (initial_walker
            {| title := u "Titre"; elements := []; present_names := [];
               sections_list := []; subsections_list := [];
               first_text := None; data_tables := [] |})
    = Ok title_seen
    /\ walk default_config attendee_document [] [par 1] title_seen = Ok w2
    /\ in_present_section w2 = true
    /\ present_names_buffer w2 = []
    /\ elements (w_data w2) = [title_element (u "Titre")]
    /\ walk default_config attendee_document [] [par 2; par 3] w2 = Ok w3
    /\ in_present_section w3 = true
    /\ present_names_buffer w3 = [u "Alice"; u "#Bob"]
    /\ elements (w_data w3) = [title_element (u "Titre")]
    /\ walk default_config attendee_document [] [par 4] w3 = Ok w4
    /\ in_present_section w4 = false
    /\ present_names_buffer w4 = []
    /\ elements (w_data w4)
       = [title_element (u "Titre");
          present_section_element [u "Alice"; u "#Bob"]]
    /\ walk default_config attendee_document [] [par 5] w4 = Ok w5
    /\ in_present_section w5 = false
    /\ elements (w_data w5)
       = [title_element (u "Titre");
          present_section_element [u "Alice"; u "#Bob"];
          paragraph_element 5]
    /\ cleaned_names [u "Alice"; u "#Bob"] = [u "Alice"; u "Bob"]
    /\ (forall sections h w,
           write_element default_config sections h w
                         (present_section_element [u "Alice"; u "#Bob"])
           = Ok {| written := written w
                                ++ generate_present_section default_config
                                     [u "Alice"; u "Bob"];
                   toc_inserted := toc_inserted w;
                   present_inserted := true;
                   subsections := subsections w |})
    /\ generate_present_section default_config [u "Alice"; u "Bob"]
       = u "\section*{Camarades présents :}" ++ nl ++ nl
           ++ u "\begin{multicols}{2}" ++ nl
           ++ u " Alice\\ " ++ nl
           ++ u " Bob " ++ nl
           ++ u "\end{multicols}" ++ nl
    /\ _write_latex_file default_config (w_data w5) (paragraphs attendee_document)
       = Ok (generate_document_header default_config
               ++ generate_title_header default_config (u "Titre") ++ nl ++ nl
               ++ generate_title_section default_config (u "Titre")
               ++ generate_present_section default_config [u "Alice"; u "Bob"]
               ++ generate_document_footer,
             w_data w5).
Proof.
  do 4 eexists.
  split; [vm_compute; reflexivity|].
  split; [vm_compute; reflexivity|].
  do 3 (split; [reflexivity|]).
  split; [vm_compute; reflexivity|].
  do 3 (split; [reflexivity|]).
  split; [vm_compute; reflexivity|].
  do 3 (split; [reflexivity|]).
  split; [vm_compute; reflexivity|].
  do 2 (split; [reflexivity|]).
  split; [vm_compute; reflexivity|].
  split; [intros sections h w; reflexivity|].
  split; [vm_compute; reflexivity|].
  vm_compute. reflexivity.
Qed.

(** C2 as stated fails: the attendee element that the walker emits does
    not hold the names ["Alice"; "Bob"]. *)
Lemma attendee_buffer_keeps_hash :
  ~ exists w,
      walk default_config attendee_document []
           [par 1; par 2; par 3; par 4; par 5] title_seen = Ok w
      /\ In (present_section_element [u "Alice"; u "Bob"]) (elements (w_data w)).
Proof.
  intros (w & Hwalk & Hin). vm_compute in Hwalk. injection Hwalk as <-.
  vm_compute in Hin. destruct Hin as [H | [H | [H | []]]]; discriminate.
Qed.

(** ** Markup Renderer *)

Section RendererFrame.
Context {R : Runtime}.
Variable config : Config.

(** The table of contents takes its subsections from the head of the
    list and leaves the rest. *)
Lemma attach_subsections_suffix (section : str) (subs : list str) :
  forall lines remaining,
    attach_subsections config section subs = Ok (lines, remaining) ->
    exists consumed, subs = consumed ++ remaining.
Proof.
  remember (length subs) as n eqn:Hn. revert subs Hn.
  induction n as [n IH] using (well_founded_induction lt_wf).
  intros subs Hn lines remaining H. destruct subs as [|head [|sub rest]]; simpl in H.
  - injection H as _ <-. now exists [].
  - destruct (startswith section head); [discriminate|].
    injection H as _ <-. now exists [].
  - destruct (startswith section head).
    + returned H as [l r] eqn:E. injection H as _ <-.
      destruct (IH (length rest) (ltac:(subst n; simpl; lia)) rest eq_refl l r E)
        as [consumed ->].
      now exists (head :: sub :: consumed).
    + injection H as _ <-. now exists [].
Qed.

Lemma toc_sections_suffix (sections : list str) :
  forall lines subs lines' remaining,
    for_each (toc_section config) sections (lines, subs) = Ok (lines', remaining) ->
    exists consumed, subs = consumed ++ remaining.
Proof.
  induction sections as [|section sections IH]; intros lines subs lines' remaining H;
    simpl in H.
  - injection H as _ <-. now exists [].
  - returned H as [l r] eqn:E.
    apply attach_subsections_suffix in E as [c1 ->].
    apply IH in H as [c2 ->]. exists (c1 ++ c2). now rewrite app_assoc.
Qed.

Lemma generate_toc_suffix (sections subs : list str) (toc : str) (remaining : list str) :
  generate_toc config sections subs = Ok (toc, remaining) ->
  exists consumed, subs = consumed ++ remaining.
Proof.
  unfold generate_toc. destruct sections as [|section sections].
  - intros H. injection H as _ <-. now exists [].
  - intros H. returned H as [l' r] eqn:E.
    injection H as _ <-. now apply toc_sections_suffix in E.
Qed.

Lemma write_element_suffix (sections : list str) (h : heap) (w w' : writer)
      (e : element) :
  write_element config sections h w e = Ok w' ->
  exists consumed, subsections w = consumed ++ subsections w'.
Proof.
  assert (Hsame : forall w1 : writer,
             subsections w1 = subsections w ->
             exists consumed, subsections w = consumed ++ subsections w1)
    by (intros w1 ->; now exists []).
  assert (Hbranch :
            (if is_start_text e || present_inserted w
             then match toc_inserted w, sections with
                  | false, _ :: _ =>
                      '(toc, remaining) <- generate_toc config sections (subsections w) ;;
                      Ok {| written := written w ++ toc ++ generate_logo_section config;
                            toc_inserted := true; present_inserted := false;
                            subsections := remaining |}
                  | _, _ =>
                      Ok {| written := written w; toc_inserted := toc_inserted w;
                            present_inserted := false; subsections := subsections w |}
                  end
             else match e with
                  | section_element title _ =>
                      Ok (write w (generate_section config title))
                  | subsection_element title _ =>
                      Ok (write w (generate_subsection config title))
                  | paragraph_element para =>
                      text <- _format_paragraph_with_runs config (deref h para) ;;
                      Ok (write w text)
                  | _ => Ok w
                  end) = Ok w' ->
            exists consumed, subsections w = consumed ++ subsections w').
  { destruct (is_start_text e || present_inserted w).
    - destruct (toc_inserted w); [intros H; injection H as <-; now apply Hsame|].
      destruct sections as [|s0 ss]; [intros H; injection H as <-; now apply Hsame|].
      destruct (generate_toc config (s0 :: ss) (subsections w)) as [[toc r]|] eqn:E;
        simpl; [|discriminate].
      intros H. injection H as <-. simpl. now apply generate_toc_suffix in E.
    - destruct e as [| | | | | | |para];
        try (intros H; injection H as <-; now apply Hsame).
      destruct (_format_paragraph_with_runs config (deref h para));
        simpl; [|discriminate].
      intros H. injection H as <-. now apply Hsame. }
  destruct e; simpl; try exact Hbranch;
    intros H; injection H as <-; now apply Hsame.
Qed.

Lemma write_elements_suffix (sections : list str) (h : heap) (es : list element) :
  forall w w',
    for_each (write_element config sections h) es w = Ok w' ->
    exists consumed, subsections w = consumed ++ subsections w'.
Proof.
  induction es as [|e es IH]; intros w w' H; simpl in H.
  - injection H as <-. now exists [].
  - returned H as w1 eqn:E.
    apply write_element_suffix in E as [c1 E1]. apply IH in H as [c2 E2].
    exists (c1 ++ c2). now rewrite E1, E2, app_assoc.
Qed.


End RendererFrame.



(** When the attendee latch is set, the element that follows is used up
    by the insertion of the table of contents: a section writes no
    heading. *)
Lemma write_element_latched_section {R : Runtime} (config : Config)
      (sections : list str) (h : heap) (w w' : writer) (title : str) (p : ref) :
  present_inserted w = true ->
  write_element config sections h w (section_element title p) = Ok w' ->
  present_inserted w' = false
  /\ (written w' = written w
      \/ exists toc remaining,
           generate_toc config sections (subsections w) = Ok (toc, remaining)
           /\ written w' = written w ++ toc ++ generate_logo_section config).
Proof.
  intros Hlatch H. simpl in H. rewrite Hlatch in H. simpl in H.
  destruct (toc_inserted w); [injection H as <-; auto|].
  destruct sections as [|s0 ss]; [injection H as <-; auto|].
  returned H as [toc r] eqn:E.
  injection H as <-. simpl. split; [reflexivity|]. right. eauto.
Qed.

(** C4 fails on the code: in minutes whose attendee block is closed by an
    empty paragraph, the Section element that follows the attendee list
    (a Subsection element likewise) is in the element sequence, but it is
    rendered as the table of contents and the logo block only, without
    its heading; when the block is closed by the end marker the same
    Section element gets its heading. *)
Theorem section_after_attendees_has_no_heading :
  exists d h out d' h' out' out'',
    _process_document default_config None minutes_blank_closed (u "PV") []
    = Ok (d, h)
    /\ elements d
       = [ title_element (u "Titre");
           present_section_element [u "Alice"];
           section_element (u "budget") 4;
           subsection_element (u "divers") 5 ]
    /\ convert default_config None minutes_blank_closed (u "PV") [] = Ok out
    /\ contains (u "Ordre du jour") out = true
    /\ contains (generate_section default_config (u "budget")) out = false
    /\ contains (generate_subsection default_config (u "divers")) out = true
    /\ _process_document default_config None minutes_subsection_first (u "PV") []
       = Ok (d', h')
    /\ elements d'
       = [ title_element (u "1) budget");
           present_section_element [u "Alice"];
           subsection_element (u "divers") 4;
           paragraph_element 5 ]
    /\ convert default_config None minutes_subsection_first (u "PV") [] = Ok out'
    /\ contains (generate_subsection default_config (u "divers")) out' = false
    /\ convert default_config None minutes_marker_closed (u "PV") [] = Ok out''
    /\ contains (generate_section default_config (u "budget")) out'' = true.
Proof.
  do 7 eexists.
  split; [vm_compute; reflexivity|].
  split; [reflexivity|].
  split; [vm_compute; reflexivity|].
  split; [vm_compute; reflexivity|].
  split; [vm_compute; reflexivity|].
  split; [vm_compute; reflexivity|].
  split; [vm_compute; reflexivity|].
  split; [reflexivity|].
  split; [vm_compute; reflexivity|].
  split; [vm_compute; reflexivity|].
  split; [vm_compute; reflexivity|].
  vm_compute. reflexivity.
Qed.

(** ** Correction service *)

(** When the call raises, [_call_correction_api] returns the text it was
    given, and not [None]. *)
Lemma call_correction_api_failure {R : Runtime} (text : str) (whitelist : list str) :
  _call_correction_api failing_client text whitelist = Some text.
Proof. reflexivity. Qed.

(** C5 fails on the code: when the call of the service raises, no
    exception escapes, but the batch is written back to its paragraphs:
    the text is stripped and distributed again over the runs, so that the
    runs ["Note"] (bold) and [" importante "] become ["Not"] (bold) and
    ["e importante"], and the single run [" Bonjour "] becomes
    ["Bonjour"]. *)
Theorem failed_correction_rewrites_runs :
  _correct_batch default_config failing_client [styled_paragraph] [0]
                 (CORRECTION_WHITELIST default_config)
  = Ok ([ {| runs := [ {| run_text := u "Not"; bold := true; italic := false |};
                       {| run_text := u "e importante"; bold := false;
                          italic := false |} ];
             links := [] |} ], 1)
  /\ correct_paragraphs_batch default_config failing_client
                              [plain (u " Bonjour ")] [0]
     = Ok [plain (u "Bonjour")]
  /\ correct_paragraphs_batch default_config failing_client
                              [styled_paragraph; plain (u " Bonjour ")] [0; 1]
     <> Ok [styled_paragraph; plain (u " Bonjour ")].
Proof.
  split; [vm_compute; reflexivity|].
  split; [vm_compute; reflexivity|].
  vm_compute. discriminate.
Qed.

(* ================================================================= *)
(** * Further properties of the code *)

(** ** White space *)

Section Strip.
Context {R : Runtime}.

Lemma dropwhile_head (p : char -> bool) (t : str) (c : char) (r : str) :
  dropwhile p t = c :: r -> p c = false.
Proof.
  induction t as [|x t IH]; simpl; [discriminate|].
  destruct (p x) eqn:E; [exact IH|]. intros H. injection H as <- _. exact E.
Qed.

Lemma dropwhile_fixed (p : char -> bool) (c : char) (r : str) :
  p c = false -> dropwhile p (c :: r) = c :: r.
Proof. intros H. simpl. now rewrite H. Qed.

Lemma dropwhile_idempotent (p : char -> bool) (t : str) :
  dropwhile p (dropwhile p t) = dropwhile p t.
Proof.
  destruct (dropwhile p t) as [|c r] eqn:E; [reflexivity|].
  apply dropwhile_fixed. now apply dropwhile_head in E.
Qed.

Lemma dropwhile_app_last (p : char -> bool) (l : str) (c : char) :
  p c = false -> dropwhile p (l ++ [c]) = dropwhile p l ++ [c].
Proof.
  intros H. induction l as [|x l IH]; simpl; [now rewrite H|].
  destruct (p x); [exact IH | reflexivity].
Qed.

Lemma rstrip_cons (c : char) (r : str) :
  isspace c = false -> rstrip (c :: r) = c :: rstrip r.
Proof.
  intros H. unfold rstrip. simpl rev.
  rewrite (dropwhile_app_last isspace (rev r) c H), rev_app_distr. reflexivity.
Qed.

Lemma rstrip_idempotent (t : str) : rstrip (rstrip t) = rstrip t.
Proof. unfold rstrip. now rewrite rev_involutive, dropwhile_idempotent. Qed.

(** A stripped text does not start with white space. *)
Lemma strip_head (t : str) (c : char) (r : str) :
  strip t = c :: r -> isspace c = false.
Proof.
  unfold strip, lstrip. destruct (dropwhile isspace t) as [|d x] eqn:E.
  - discriminate.
  - pose proof (dropwhile_head _ _ _ _ E) as Hd.
    rewrite (rstrip_cons d x Hd). intros H. now injection H as <- _.
Qed.

Lemma strip_idempotent (t : str) : strip (strip t) = strip t.
Proof.
  destruct (strip t) as [|c r] eqn:E; [reflexivity|].
  pose proof (strip_head t c r E) as Hc.
  unfold strip at 1. unfold lstrip. rewrite (dropwhile_fixed isspace c r Hc).
  rewrite <- E. unfold strip. apply rstrip_idempotent.
Qed.

End Strip.

(** ** Text Sanitizer *)

Lemma contains_cons (sub : str) (c : char) (t : str) :
  contains sub (c :: t) = false ->
  startswith sub (c :: t) = false /\ contains sub t = false.
Proof. simpl contains. intros H. now apply orb_false_iff in H. Qed.

(** Replacing a pattern that does not occur changes nothing. *)
Lemma replace_absent (old new t : str) :
  old <> [] -> contains old t = false -> replace old new t = t.
Proof.
  intros Hold. unfold replace. destruct old as [|o old]; [congruence|].
  induction t as [|c t IH]; intros H; [reflexivity|].
  apply contains_cons in H as [Hs Hc].
  cbn [replace_from]. rewrite Hs. f_equal. now apply IH.
Qed.

(** X1: a text in which no key of the escape mapping occurs (the keys
    being non-empty) is returned unchanged by [escape_latex]. *)
Theorem escape_latex_identity (config : Config) (text : str) :
  free_of_keys config text = true -> escape_latex config text = text.
Proof.
  unfold free_of_keys, reserved_keys, escape_latex. intros H.
  destruct text as [|c text]; [reflexivity|].
  revert H. generalize (c :: text) as t. generalize (LATEX_SPECIAL_CHARS config).
  induction l as [|[k r] l IH]; intros t H; simpl; [reflexivity|].
  simpl in H. apply andb_true_iff in H as [Hk Hl].
  apply andb_true_iff in Hk as [Hne Hc].
  apply negb_true_iff in Hne, Hc.
  rewrite replace_absent; [now apply IH | | exact Hc].
  intros ->. discriminate.
Qed.

Lemma escape_latex_identity_witness :
  escape_latex default_config (u "Budget 2025 : voté à 12 voix")
  = u "Budget 2025 : voté à 12 voix".
Proof. apply escape_latex_identity. reflexivity. Defined.

(** ** Structural Classifier *)

Section Titles.
Context {R : Runtime}.

Lemma split_once_spec (sep : char) (t a b : str) :
  split_once sep t = Some (a, b) -> t = a ++ sep :: b /\ ~ In sep a.
Proof.
  revert a; induction t as [|c t IH]; intros a; simpl; [discriminate|].
  destruct (chr_eqb c sep) eqn:E.
  - intros H. injection H as <- <-. apply chr_eqb_eq in E. subst. auto.
  - destruct (split_once sep t) as [[a' b']|]; [|discriminate].
    intros H. injection H as <- <-. destruct (IH a' eq_refl) as [-> Hnot].
    split; [reflexivity|]. intros [-> | Hin]; [|tauto].
    rewrite chr_eqb_refl in E. discriminate.
Qed.

(** X2: [extract_section_title] never raises: a text that matches one of
    the header patterns holds a [")"], and the title is what follows the
    first one, without surrounding white space; any other text is
    returned as it is. *)
Theorem extract_section_title_never_raises (text : str) :
  exists title,
    extract_section_title text = Ok title
    /\ (is_section_header text || is_subsection_header text = true ->
        strip title = title
        /\ exists marker after,
            text = marker ++ 41%N :: after
            /\ ~ In 41%N marker
            /\ title = strip after)
    /\ (is_section_header text || is_subsection_header text = false ->
        title = text).
Proof.
  unfold extract_section_title.
  destruct (is_section_header text || is_subsection_header text) eqn:H.
  - destruct (split_once_In 41%N text (header_has_parenthesis text H))
      as (a & b & E).
    rewrite E. exists (strip b). split; [reflexivity|]. split; [|discriminate].
    intros _. split; [apply strip_idempotent|].
    apply split_once_spec in E as [-> Hnot]. now exists a, b.
  - exists text. split; [reflexivity|]. split; [discriminate | reflexivity].
Qed.

End Titles.

Lemma extract_section_title_never_raises_witness :
  strip (u "Budget") = u "Budget"
  /\ exists marker after,
      u "12)  Budget " = marker ++ 41%N :: after
      /\ ~ In 41%N marker
      /\ u "Budget" = strip after.
Proof.
  destruct (extract_section_title_never_raises (u "12)  Budget "))
    as (title & Ht & Hheader & _).
  vm_compute in Ht. injection Ht as <-.
  apply Hheader. reflexivity.
Defined.

(** ** Table Normalizer *)

Section TableShape.

Lemma for_each_preserves {S A : Type} (body : S -> A -> result S) (P : S -> Prop)
      (items : list A) :
  (forall s x s', In x items -> body s x = Ok s' -> P s -> P s') ->
  forall s s', for_each body items s = Ok s' -> P s -> P s'.
Proof.
  induction items as [|x items IH]; intros Hbody s s' H Hs; simpl in H.
  - now injection H as <-.
  - returned H as s1 eqn:E.
    apply (IH (fun s x s' Hin => Hbody s x s' (or_intror Hin)) s1 s' H).
    apply (Hbody s x s1); auto. now left.
Qed.

(** Column 0 is never in the set of the columns to remove. *)
Lemma duplicate_columns_positive (n : nat) (t : list (list str)) (removed : list nat) :
  duplicate_columns n t = Ok removed -> Forall (fun j => 1 <= j) removed.
Proof.
  unfold duplicate_columns. intros H.
  refine (for_each_preserves _ (Forall (fun j => 1 <= j)) _ _ _ _ H (Forall_nil _)).
  intros s col1 s' _ Hinner Hs.
  refine (for_each_preserves _ (Forall (fun j => 1 <= j)) _ _ _ _ Hinner Hs).
  intros s2 col2 s2' Hcol2 Hbody Hs2. apply in_seq in Hcol2.
  returned Hbody as dup eqn:E. injection Hbody as <-.
  destruct dup; [constructor; [lia | assumption] | assumption].
Qed.

Lemma filter_columns_length (removed : list nat) (base : nat) (row : list str) :
  length (filter_columns removed base row) <= length row.
Proof.
  revert base; induction row as [|c row IH]; intros base; simpl; [lia|].
  destruct (in_set base removed); simpl; specialize (IH (S base)); lia.
Qed.

Lemma in_set_In (i : nat) (s : list nat) : in_set i s = true <-> In i s.
Proof.
  unfold in_set. rewrite existsb_exists. split.
  - intros (x & Hx & E). apply Nat.eqb_eq in E. now subst.
  - intros H. exists i. split; [assumption | apply Nat.eqb_refl].
Qed.

(** X3: whenever [remove_duplicate_columns] returns, on a table of any
    shape, it returns as many rows as it was given, each row keeps its
    first cell and gets no longer. *)
Theorem remove_duplicate_columns_shape (table_data out : list (list str)) :
  remove_duplicate_columns table_data = Ok out ->
  Forall2 (fun row row' => hd_error row' = hd_error row
                           /\ length row' <= length row)
          table_data out.
Proof.
  assert (Hsame : forall t : list (list str),
             Forall2 (fun row row' : list str =>
                        hd_error row' = hd_error row /\ length row' <= length row) t t).
  { induction t; constructor; auto. }
  unfold remove_duplicate_columns. destruct table_data as [|first rest].
  - intros H. injection H as <-. constructor.
  - destruct (length first <=? 1); [intros H; injection H as <-; apply Hsame|].
    intros H. returned H as removed eqn:E. injection H as <-.
    apply duplicate_columns_positive in E.
    assert (Hzero : in_set 0 removed = false).
    { destruct (in_set 0 removed) eqn:Hin; [|reflexivity].
      apply in_set_In in Hin. rewrite Forall_forall in E. apply E in Hin. lia. }
    assert (Hmap : forall t : list (list str),
               Forall2 (fun row row' : list str =>
                          hd_error row' = hd_error row
                          /\ length row' <= length row)
                       t (map (filter_columns removed 0) t)).
    { induction t as [|row t IH]; simpl; constructor; [|exact IH].
      split; [|apply filter_columns_length].
      destruct row as [|c row]; [reflexivity|]. simpl. now rewrite Hzero. }
    apply (Hmap (first :: rest)).
Qed.

Lemma remove_duplicate_columns_shape_witness :
  Forall2 (fun row row' => hd_error row' = hd_error row
                           /\ length row' <= length row)
          [[u "a"; u "a"; u "b"]; [u "c"; u "c"]]
          [[u "a"; u "b"]; [u "c"]].
Proof.
  apply remove_duplicate_columns_shape. reflexivity.
Defined.

End TableShape.

Section TableIdempotent.

Lemma kept_columns_cons (removed : list nat) (base n : nat) :
  kept_columns removed base (S n)
  = if in_set base removed then kept_columns removed (S base) n
    else base :: kept_columns removed (S base) n.
Proof.
  unfold kept_columns. simpl. now destruct (in_set base removed).
Qed.

Lemma kept_columns_In (removed : list nat) (base n i : nat) :
  In i (kept_columns removed base n)
  <-> base <= i < base + n /\ ~ In i removed.
Proof.
  unfold kept_columns. rewrite filter_In, in_seq, negb_true_iff.
  rewrite <- in_set_In. destruct (in_set i removed); intuition congruence.
Qed.

(** The kept columns are listed in increasing order. *)
Lemma kept_columns_increasing (removed : list nat) (n : nat) :
  forall base a b i j,
    a < b ->
    nth_error (kept_columns removed base n) a = Some i ->
    nth_error (kept_columns removed base n) b = Some j ->
    i < j.
Proof.
  induction n as [|n IH]; intros base a b i j Hab Ha Hb.
  - destruct a; discriminate.
  - rewrite kept_columns_cons in Ha, Hb.
    destruct (in_set base removed); [now apply (IH (S base) a b)|].
    destruct b as [|b]; [lia|]. simpl in Hb.
    destruct a as [|a].
    + simpl in Ha. injection Ha as <-.
      apply nth_error_In, kept_columns_In in Hb. lia.
    + simpl in Ha. apply (IH (S base) a b); [lia | assumption | assumption].
Qed.

(** The cell at place [k] of a filtered row is the cell of the row at the
    [k]-th kept column. *)
Lemma filter_columns_nth (removed : list nat) (row : list str) :
  forall base k,
    nth_error (filter_columns removed base row) k
    = match nth_error (kept_columns removed base (length row)) k with
      | Some i => nth_error row (i - base)
      | None => None
      end.
Proof.
  induction row as [|c row IH]; intros base k.
  - simpl. destruct k; reflexivity.
  - simpl length. rewrite kept_columns_cons. simpl filter_columns.
    assert (Hshift : forall k',
               match nth_error (kept_columns removed (S base) (length row)) k' with
               | Some i => nth_error row (i - S base)
               | None => None
               end
               = match nth_error (kept_columns removed (S base) (length row)) k' with
                 | Some i => nth_error (c :: row) (i - base)
                 | None => None
                 end).
    { intros k'.
      destruct (nth_error (kept_columns removed (S base) (length row)) k')
        as [i|] eqn:E; [|reflexivity].
      apply nth_error_In, kept_columns_In in E.
      replace (i - base) with (S (i - S base)) by lia. reflexivity. }
    destruct (in_set base removed).
    + rewrite IH. apply Hshift.
    + destruct k as [|k]; simpl.
      * now rewrite Nat.sub_diag.
      * rewrite IH. apply Hshift.
Qed.

Lemma filter_columns_kept_length (removed : list nat) (row : list str) :
  forall base,
    length (filter_columns removed base row)
    = length (kept_columns removed base (length row)).
Proof.
  induction row as [|c row IH]; intros base; [reflexivity|].
  simpl length. rewrite kept_columns_cons. simpl.
  destruct (in_set base removed); simpl; now rewrite IH.
Qed.

(** X4: on a rectangular table [remove_duplicate_columns] is idempotent:
    its result has no duplicate column left, and is returned unchanged by
    a second call. *)
Theorem remove_duplicate_columns_idempotent (table_data out : list (list str)) :
  rectangular table_data ->
  remove_duplicate_columns table_data = Ok out ->
  remove_duplicate_columns out = Ok out.
Proof.
  intros Hrect H. unfold remove_duplicate_columns in H.
  destruct table_data as [|first rest]; [now injection H as <-|].
  destruct (length first <=? 1) eqn:Hw.
  { injection H as <-. unfold remove_duplicate_columns. now rewrite Hw. }
  assert (Hlen : forall row, In row (first :: rest) -> length row = length first)
    by (intros row Hrow; apply Hrect; [assumption | now left]).
  destruct (duplicate_columns_spec (length first) (first :: rest) Hlen)
    as (removed & Hdup & Hmem).
  rewrite Hdup in H. cbn [bind] in H.
  remember (first :: rest) as t eqn:Et.
  remember (map (filter_columns removed 0) t) as res eqn:Eout.
  injection H as <-.
  assert (Hout : forall row', In row' res ->
             length row' = length (kept_columns removed 0 (length first))).
  { intros row' Hin. rewrite Eout in Hin.
    apply in_map_iff in Hin as (row & <- & Hrow).
    now rewrite filter_columns_kept_length, (Hlen row Hrow). }
  unfold remove_duplicate_columns.
  destruct res as [|first' rest']; [reflexivity|].
  destruct (length first' <=? 1); [reflexivity|].
  assert (Hlen' : forall row', In row' (first' :: rest') -> length row' = length first').
  { intros row' Hin. rewrite (Hout row' Hin). symmetry. apply Hout. now left. }
  destruct (duplicate_columns_spec (length first') (first' :: rest') Hlen')
    as (removed' & Hdup' & Hmem').
  rewrite Hdup'. cbn [bind].
  assert (Hnone : removed' = []).
  { destruct removed' as [|j' more]; [reflexivity|]. exfalso.
    destruct (proj1 (Hmem' j') (or_introl eq_refl)) as (Hj' & i' & Hi' & Hsame').
    rewrite (Hout first' (or_introl eq_refl)) in Hj'.
    destruct (nth_error (kept_columns removed 0 (length first)) j') as [j|] eqn:Ej;
      [|apply nth_error_None in Ej; lia].
    destruct (nth_error (kept_columns removed 0 (length first)) i') as [i|] eqn:Ei;
      [|apply nth_error_None in Ei; lia].
    pose proof (kept_columns_increasing removed _ 0 i' j' i j Hi' Ei Ej) as Hij.
    pose proof (proj1 (kept_columns_In removed 0 _ j) (nth_error_In _ _ Ej)) as [Hj Hkept].
    apply Hkept, Hmem. split; [lia|]. exists i. split; [exact Hij|].
    intros row Hrow.
    assert (Hin : In (filter_columns removed 0 row) (first' :: rest')).
    { rewrite Eout. now apply in_map. }
    specialize (Hsame' _ Hin).
    rewrite !filter_columns_nth, (Hlen row Hrow), Ei, Ej, !Nat.sub_0_r in Hsame'.
    exact Hsame'. }
  rewrite Hnone. f_equal. erewrite map_ext; [apply map_id|].
  intros row. apply filter_columns_nil.
Qed.

Lemma remove_duplicate_columns_idempotent_witness :
  remove_duplicate_columns [[u "a"; u "b"]; [u "c"; u "d"]]
  = Ok [[u "a"; u "b"]; [u "c"; u "d"]].
Proof.
  apply (remove_duplicate_columns_idempotent
           [[u "a"; u "a"; u "b"]; [u "c"; u "c"; u "d"]]).
  - intros r1 r2 [<- | [<- | []]] [<- | [<- | []]]; reflexivity.
  - reflexivity.
Defined.

End TableIdempotent.

(** ** Outline and table of contents *)

Section OutlineToc.
Context {R : Runtime}.
Variable config : Config.

(** On a list of an even number of entries the loop that attaches the
    subsections never pops an empty list. *)
Lemma attach_subsections_pairs (section : str) (n : nat) :
  forall subs,
    length subs = 2 * n ->
    exists lines remaining m,
      attach_subsections config section subs = Ok (lines, remaining)
      /\ length remaining = 2 * m.
Proof.
  induction n as [|n IH]; intros subs Hlen.
  - destruct subs; [|discriminate]. simpl. now exists [], [], 0.
  - destruct subs as [|head [|sub rest]]; try (simpl in Hlen; lia).
    simpl. destruct (startswith section head).
    + destruct (IH rest) as (lines & remaining & m & -> & Hm);
        [simpl in Hlen; lia|].
      cbn [bind]. eexists _, remaining, m. split; [reflexivity | exact Hm].
    + exists [], (head :: sub :: rest), (S n). auto.
Qed.

Lemma toc_sections_pairs (sections : list str) :
  forall lines subs n,
    length subs = 2 * n ->
    exists lines' remaining,
      for_each (toc_section config) sections (lines, subs) = Ok (lines', remaining).
Proof.
  induction sections as [|section sections IH]; intros lines subs n Hlen; simpl.
  - eauto.
  - destruct (attach_subsections_pairs section n subs Hlen)
      as (sub_lines & remaining & m & -> & Hm).
    cbn [bind]. apply (IH _ remaining m Hm).
Qed.

(** X5: the outline that [extract_sections_list] returns never makes
    [generate_toc] raise, whatever the sections it is rendered for: the
    list of the subsections has an even number of entries. A list with a
    single entry that starts with the section makes it raise
    [IndexError]. *)
Theorem outline_never_breaks_toc :
  (forall ps sections subsections,
      extract_sections_list ps = Ok (sections, subsections) ->
      forall toc_sections,
      exists toc remaining,
        generate_toc config toc_sections subsections = Ok (toc, remaining))
  /\ (forall section entry,
         startswith section entry = true ->
         generate_toc config [section] [entry] = Raise IndexError).
Proof.
  split.
  - intros ps sections subsections Hscan toc_sections.
    apply scan_sections_positions in Hscan as (_ & added & Hsub & Hlen & _).
    simpl in Hsub. subst added.
    unfold generate_toc. destruct toc_sections as [|s0 ss]; [eauto|].
    match goal with
    | |- context [for_each _ ?l (?lines, _)] =>
        destruct (toc_sections_pairs l lines subsections _ Hlen)
          as (lines' & remaining & ->)
    end.
    cbn [bind]. eauto.
  - intros section entry H. unfold generate_toc. simpl. now rewrite H.
Qed.

End OutlineToc.

Lemma outline_never_breaks_toc_witness :
  exists toc remaining,
    generate_toc default_config [u "Budget"; u "Divers"]
                 [u "Budget"; u "Sub"; u "Budget"; u "Autre"]
    = Ok (toc, remaining).
Proof.
  apply (proj1 (outline_never_breaks_toc default_config)
               [plain (u "1) Budget"); plain (u "a) Sub"); plain (u "Texte");
                plain (u "b) Autre")]
               [u "Budget"]).
  reflexivity.
Defined.

(** ** The latches of the renderer *)

Section RendererLatches.
Context {R : Runtime}.
Variable config : Config.

Lemma write_element_latches (sections : list str) (h : heap) (w w' : writer)
      (e : element) :
  write_element config sections h w e = Ok w' ->
  (exists added, written w' = written w ++ added)
  /\ (toc_inserted w = true ->
      toc_inserted w' = true /\ subsections w' = subsections w)
  /\ (sections = [] ->
      toc_inserted w' = toc_inserted w /\ subsections w' = subsections w).
Proof.
  assert (Hwrite : forall text,
             (exists added, written (write w text) = written w ++ added)
             /\ (toc_inserted w = true ->
                 toc_inserted (write w text) = true
                 /\ subsections (write w text) = subsections w)
             /\ (sections = [] ->
                 toc_inserted (write w text) = toc_inserted w
                 /\ subsections (write w text) = subsections w))
    by (intros text; simpl; split; [now exists text | split; intros Hx; split; auto]).
  assert (Hkeep : forall w1 : writer,
             written w1 = written w -> toc_inserted w1 = toc_inserted w ->
             subsections w1 = subsections w ->
             (exists added, written w1 = written w ++ added)
             /\ (toc_inserted w = true ->
                 toc_inserted w1 = true /\ subsections w1 = subsections w)
             /\ (sections = [] ->
                 toc_inserted w1 = toc_inserted w
                 /\ subsections w1 = subsections w)).
  { intros w1 -> -> ->. split; [exists []; now rewrite app_nil_r | auto]. }
  intros H.
  destruct e as [text|table_data|path wd ht|names|text|title p|title p|p];
    simpl in H.
  - injection H as <-. apply Hwrite.
  - injection H as <-. apply Hwrite.
  - injection H as <-. apply Hwrite.
  - injection H as <-. simpl.
    split; [eexists; reflexivity | split; intros Hx; split; auto].
  - destruct (toc_inserted w) eqn:Htoc.
    + injection H as <-. now apply Hkeep.
    + destruct sections as [|s0 ss].
      * injection H as <-. now apply Hkeep.
      * returned H as [toc remaining] eqn:E. injection H as <-. simpl.
        split; [eauto|]. split; [discriminate | discriminate].
  - destruct (present_inserted w).
    + simpl in H. destruct (toc_inserted w) eqn:Htoc.
      * injection H as <-. now apply Hkeep.
      * destruct sections as [|s0 ss].
        -- injection H as <-. now apply Hkeep.
        -- returned H as [toc remaining] eqn:E. injection H as <-. simpl.
           split; [eauto|]. split; [discriminate | discriminate].
    + simpl in H. injection H as <-. apply Hwrite.
  - destruct (present_inserted w).
    + simpl in H. destruct (toc_inserted w) eqn:Htoc.
      * injection H as <-. now apply Hkeep.
      * destruct sections as [|s0 ss].
        -- injection H as <-. now apply Hkeep.
        -- returned H as [toc remaining] eqn:E. injection H as <-. simpl.
           split; [eauto|]. split; [discriminate | discriminate].
    + simpl in H. injection H as <-. apply Hwrite.
  - destruct (present_inserted w).
    + simpl in H. destruct (toc_inserted w) eqn:Htoc.
      * injection H as <-. now apply Hkeep.
      * destruct sections as [|s0 ss].
        -- injection H as <-. now apply Hkeep.
        -- returned H as [toc remaining] eqn:E. injection H as <-. simpl.
           split; [eauto|]. split; [discriminate | discriminate].
    + simpl in H. returned H as text eqn:E. injection H as <-. apply Hwrite.
Qed.

(** Once the table of contents is inserted, the renderer writes for an
    element its own markup or nothing. *)
Lemma write_element_piece (sections : list str) (h : heap) (w w' : writer)
      (e : element) :
  toc_inserted w = true ->
  write_element config sections h w e = Ok w' ->
  exists piece,
    written w' = written w ++ piece
    /\ (piece = [] \/ element_markup config h e = Ok piece).
Proof.
  intros Htoc H.
  assert (Hskip : forall w1 : writer,
             written w1 = written w ->
             exists piece,
               written w1 = written w ++ piece
               /\ (piece = [] \/ element_markup config h e = Ok piece)).
  { intros w1 ->. exists []. rewrite app_nil_r. auto. }
  destruct e as [text|table_data|path wd ht|names|text|title p|title p|p];
    simpl in H.
  - injection H as <-. eexists. split; [reflexivity | now right].
  - injection H as <-. eexists. split; [reflexivity | now right].
  - injection H as <-. eexists. split; [reflexivity | now right].
  - injection H as <-. eexists. split; [reflexivity | now right].
  - rewrite Htoc in H. injection H as <-. now apply Hskip.
  - destruct (present_inserted w); simpl in H.
    + rewrite Htoc in H. injection H as <-. now apply Hskip.
    + injection H as <-. eexists. split; [reflexivity | now right].
  - destruct (present_inserted w); simpl in H.
    + rewrite Htoc in H. injection H as <-. now apply Hskip.
    + injection H as <-. eexists. split; [reflexivity | now right].
  - destruct (present_inserted w); simpl in H.
    + rewrite Htoc in H. injection H as <-. now apply Hskip.
    + returned H as text eqn:E. injection H as <-.
      exists text. split; [reflexivity | right; exact E].
Qed.

(** X6: the renderer only adds to the text it has written; once the table
    of contents has been inserted it is not written again: what is
    written after that is, element by element, the markup of the element
    itself or nothing, the latch stays set and the outline of the
    subsections is not consumed any more; and with an empty outline of
    sections the table of contents is never inserted. *)
Theorem toc_inserted_at_most_once (sections : list str) (h : heap)
        (es : list element) (w w' : writer) :
  for_each (write_element config sections h) es w = Ok w' ->
  (exists added, written w' = written w ++ added)
  /\ (toc_inserted w = true ->
      toc_inserted w' = true
      /\ subsections w' = subsections w
      /\ exists pieces,
           written w' = written w ++ concat pieces
           /\ Forall2 (fun e piece =>
                         piece = [] \/ element_markup config h e = Ok piece)
                      es pieces)
  /\ (sections = [] ->
      toc_inserted w' = toc_inserted w /\ subsections w' = subsections w).
Proof.
  revert w. induction es as [|e es IH]; intros w H; simpl in H.
  - injection H as <-. split; [exists []; now rewrite app_nil_r|].
    split; [|auto]. intros Htoc. repeat split; auto.
    exists []. simpl. rewrite app_nil_r. split; [reflexivity | constructor].
  - returned H as w1 eqn:E.
    pose proof (write_element_latches _ _ _ _ _ E) as ([a1 Ha1] & Htoc1 & Hnil1).
    apply IH in H as ([a2 Ha2] & Htoc2 & Hnil2).
    split; [exists (a1 ++ a2); now rewrite Ha2, Ha1, app_assoc|].
    split.
    + intros Htoc. destruct (Htoc1 Htoc) as [Ht1 Hs1].
      destruct (Htoc2 Ht1) as (Ht2 & Hs2 & pieces & Hw & Hpieces).
      destruct (write_element_piece _ _ _ _ _ Htoc E) as (piece & Hp & Hmarkup).
      split; [exact Ht2|]. split; [congruence|].
      exists (piece :: pieces). split.
      * simpl. now rewrite Hw, Hp, app_assoc.
      * now constructor.
    + intros Hnil. destruct (Hnil1 Hnil) as [Ht1 Hs1].
      destruct (Hnil2 Hnil) as [Ht2 Hs2]. split; congruence.
Qed.

End RendererLatches.

Lemma toc_inserted_at_most_once_witness :
  exists w1 w',
    write_element default_config [u "budget"]
                  (paragraphs minutes_without_attendees)
                  (writer_with [u "budget"; u "divers"])
                  (start_text_element (u "__")) = Ok w1
    /\ toc_inserted w1 = true
    /\ for_each (write_element default_config [u "budget"]
                               (paragraphs minutes_without_attendees))
                [section_element (u "budget") 1;
                 start_text_element (u "__");
                 subsection_element (u "divers") 2]
                w1 = Ok w'
    /\ written w'
       = written w1 ++ generate_section default_config (u "budget")
                    ++ generate_subsection default_config (u "divers")
    /\ toc_inserted w' = true
    /\ subsections w' = subsections w1
    /\ exists pieces,
         written w' = written w1 ++ concat pieces
         /\ Forall2 (fun e piece =>
                       piece = []
                       \/ element_markup default_config
                                         (paragraphs minutes_without_attendees) e
                          = Ok piece)
                    [section_element (u "budget") 1;
                     start_text_element (u "__");
                     subsection_element (u "divers") 2]
                    pieces.
Proof.
  eexists. eexists. split; [vm_compute; reflexivity|].
  split; [reflexivity|].
  split; [vm_compute; reflexivity|].
  split; [vm_compute; reflexivity|].
  match goal with
  | |- toc_inserted ?w' = true /\ subsections ?w' = subsections ?w1 /\ _ =>
      assert (Hrun : for_each (write_element default_config [u "budget"]
                                 (paragraphs minutes_without_attendees))
                              [section_element (u "budget") 1;
                               start_text_element (u "__");
                               subsection_element (u "divers") 2]
                              w1 = Ok w')
        by (vm_compute; reflexivity);
      exact (proj1 (proj2 (toc_inserted_at_most_once
                             default_config [u "budget"]
                             (paragraphs minutes_without_attendees) _ w1 w' Hrun))
                   eq_refl)
  end.
Defined.

(** ** Invariants of the walker *)

Section WalkerInvariants.
Context {R : Runtime}.
Variable config : Config.
Variable doc : document.
Variable image_map : list (str * str).

Lemma paragraph_refs_app (l1 l2 : list element) :
  paragraph_refs (l1 ++ l2) = paragraph_refs l1 ++ paragraph_refs l2.
Proof. apply flat_map_app. Qed.

Lemma count_tables_app (l1 l2 : list element) :
  count_tables (l1 ++ l2) = count_tables l1 + count_tables l2.
Proof. unfold count_tables. now rewrite filter_app, length_app. Qed.

Lemma image_elements_plain (xml : par_xml) (idx : nat) (rs : list str) :
  paragraph_refs (image_elements image_map xml idx rs) = []
  /\ count_tables (image_elements image_map xml idx rs) = 0.
Proof.
  revert idx; induction rs as [|rid rs IH]; intros idx; simpl; [auto|].
  destruct (image_lookup image_map rid); [|apply IH].
  destruct (nonzero _ && nonzero _); simpl; apply IH.
Qed.

Lemma data_tables_fold_append (l : list element) (d : data) :
  data_tables (fold_left append_element l d) = data_tables d.
Proof.
  revert d; induction l as [|i l IHl]; intros d; simpl;
    [reflexivity | now rewrite IHl].
Qed.

(** What one step of the traversal adds: elements at the end of the
    sequence, their paragraphs at the end of the queue of the paragraphs
    to correct, and one to the table index for a Table element. *)
Lemma walk_step_delta (w w' : walker) (e : body_element) :
  walk_step config doc image_map w e = Ok w' ->
  exists new,
    elements (w_data w') = elements (w_data w) ++ new
    /\ paragraphs_to_correct w' = paragraphs_to_correct w ++ paragraph_refs new
    /\ data_tables (w_data w') = data_tables (w_data w)
    /\ table_index w' = table_index w + count_tables new
    /\ count_tables new
       = match e with
         | Tbl => if table_index w <? length (data_tables (w_data w)) then 1 else 0
         | _ => 0
         end.
Proof.
  unfold walk_step, _process_element. intros H.
  destruct e as [|xml r|].
  - destruct (nth_error (data_tables (w_data w)) (table_index w)) as [table|] eqn:Et.
    + assert (Hlt : (table_index w <? length (data_tables (w_data w))) = true).
      { apply Nat.ltb_lt, nth_error_Some. congruence. }
      returned H as table_data eqn:E. injection H as <-. simpl.
      exists [table_element table_data]. rewrite Hlt.
      repeat split; simpl; try reflexivity. now rewrite app_nil_r.
    + assert (Hge : (table_index w <? length (data_tables (w_data w))) = false).
      { apply Nat.ltb_ge, nth_error_None. assumption. }
      cbn [bind] in H. injection H as <-. simpl. exists []. rewrite Hge.
      repeat split; simpl; rewrite ?app_nil_r; auto.
  - pose proof (image_elements_plain xml 0 (rids xml)) as [Hrefs Htables].
    set (images := image_elements image_map xml 0 (rids xml)) in *.
    assert (Hfinish : forall (extra es : list element) (tabs : list table) queue index,
               es = elements (fold_left append_element images (w_data w)) ++ extra ->
               tabs = data_tables (fold_left append_element images (w_data w)) ->
               queue = paragraphs_to_correct w ++ paragraph_refs extra ->
               count_tables extra = 0 ->
               index = table_index w ->
               exists new,
                 es = elements (w_data w) ++ new
                 /\ queue = paragraphs_to_correct w ++ paragraph_refs new
                 /\ tabs = data_tables (w_data w)
                 /\ index = table_index w + count_tables new
                 /\ count_tables new = 0).
    { intros extra es tabs queue index He Ht Hq Hc Hi. exists (images ++ extra).
      rewrite He, elements_fold_append, <- app_assoc, paragraph_refs_app,
        count_tables_app, Hrefs, Htables, Hc, Hq, Hi, Ht,
        data_tables_fold_append.
      repeat split; auto. }
    destruct (nth_error (paragraphs doc) r) as [para|].
    2:{ cbn [bind] in H. injection H as <-. simpl.
        apply (Hfinish []); simpl; rewrite ?app_nil_r; auto. }
    destruct (first_text (fold_left append_element images (w_data w))) as [seen|];
      destruct (strip (para_text para)) as [|c text] eqn:Htext;
      try (destruct (startswith (u "Présents") _);
           [|destruct (in_present_section w);
             [try destruct (startswith (u "__") _)
             |try (destruct (is_section_header _);
                   [destruct (extract_section_title _)
                   |destruct (is_subsection_header _);
                    [destruct (extract_section_title _)|]])]]);
      cbn [bind] in H; try discriminate H; injection H as <-; simpl;
      first [ apply (Hfinish []); simpl; rewrite ?app_nil_r; auto; fail
            | eapply Hfinish;
              [ rewrite <- ?app_assoc; reflexivity
              | simpl; rewrite ?app_nil_r; auto .. ]; fail ].
  - cbn [bind] in H. injection H as <-. simpl. exists [].
    repeat split; simpl; rewrite ?app_nil_r; auto.
Qed.

(** X7: the paragraphs queued for correction are exactly the paragraphs
    of the Section, Subsection and Paragraph elements emitted, in the same
    order: the title, the attendee names and the markers are never sent to
    the correction service. *)
Theorem correction_queue_matches_elements (els : list body_element) (w w' : walker) :
  paragraphs_to_correct w = paragraph_refs (elements (w_data w)) ->
  walk config doc image_map els w = Ok w' ->
  paragraphs_to_correct w' = paragraph_refs (elements (w_data w')).
Proof.
  intros Hw H. unfold walk in H.
  refine (for_each_preserves _
            (fun w => paragraphs_to_correct w = paragraph_refs (elements (w_data w)))
            _ _ _ _ H Hw).
  intros s x s' _ Hstep Hs.
  apply walk_step_delta in Hstep as (new & He & Hq & _).
  now rewrite Hq, He, paragraph_refs_app, Hs.
Qed.

(** X8: a table node of the body emits a Table element as long as tables
    of the document are left, and is ignored after that: the table index
    ends at the smaller of the number of table nodes and the number of
    tables, and counts the Table elements emitted. *)
Theorem table_index_bounded (els : list body_element) :
  forall w w',
    table_index w <= length (data_tables (w_data w)) ->
    walk config doc image_map els w = Ok w' ->
    table_index w'
    = Nat.min (table_index w + count_tbl els) (length (data_tables (w_data w)))
    /\ count_tables (elements (w_data w'))
       = count_tables (elements (w_data w)) + (table_index w' - table_index w)
    /\ data_tables (w_data w') = data_tables (w_data w).
Proof.
  unfold walk. induction els as [|e els IH]; intros w w' Hw H; simpl in H.
  - injection H as <-. unfold count_tbl. simpl. repeat split; lia.
  - returned H as w1 eqn:E.
    apply walk_step_delta in E as (new & He & _ & Ht & Hi & Hc).
    assert (Hw1 : table_index w1 <= length (data_tables (w_data w1))).
    { rewrite Ht, Hi, Hc. destruct e; try lia.
      destruct (table_index w <? length (data_tables (w_data w))) eqn:Hlt; [|lia].
      apply Nat.ltb_lt in Hlt. lia. }
    destruct (IH w1 w' Hw1 H) as (Hidx & Hcount & Htab).
    rewrite Ht in Hidx, Hw1. rewrite Hi in Hidx, Hcount, Hw1.
    rewrite He, count_tables_app in Hcount. rewrite Htab, Ht.
    assert (Hcons : count_tbl (e :: els)
                    = match e with Tbl => 1 | _ => 0 end + count_tbl els)
      by (destruct e; reflexivity).
    rewrite Hcons.
    destruct e; try (repeat split; lia).
    destruct (table_index w <? length (data_tables (w_data w))) eqn:Hlt;
      [apply Nat.ltb_lt in Hlt | apply Nat.ltb_ge in Hlt]; repeat split; lia.
Qed.

(** X9: inside the attendee block, paragraphs that are names are only
    buffered: apart from their embedded images no element is emitted, the
    block stays open and nothing is queued for correction. A block that
    runs to the end of the document therefore emits no attendee list. *)
Theorem names_are_only_buffered (els : list body_element) :
  forall (w : walker) (seen : str),
    first_text (w_data w) = Some seen ->
    in_present_section w = true ->
    forallb (name_paragraph doc) els = true ->
    walk config doc image_map els w
    = Ok {| w_data := fold_left append_element (images_of image_map els) (w_data w);
            table_index := table_index w;
            in_present_section := true;
            present_names_buffer := present_names_buffer w ++ texts_of doc els;
            paragraphs_to_correct := paragraphs_to_correct w |}.
Proof.
  unfold walk. induction els as [|e els IH]; intros w seen Hseen Hin Hnames.
  - simpl. rewrite app_nil_r, <- Hin. now destruct w.
  - simpl in Hnames. apply andb_true_iff in Hnames as [He Hels].
    destruct e as [|xml r|]; try discriminate. simpl in He.
    destruct (nth_error (paragraphs doc) r) as [para|] eqn:Hpara; [|discriminate].
    apply andb_true_iff in He as [He Hend]. apply andb_true_iff in He as [Hne Hmark].
    apply negb_true_iff in Hne, Hmark, Hend.
    assert (Htext : strip (para_text para) <> [])
      by (intros E; rewrite E in Hne; discriminate).
    simpl for_each.
    rewrite (walk_step_buffers_name config doc image_map w xml r para seen
               Hseen Hin Hpara Htext Hmark Hend).
    cbn [bind].
    rewrite (IH _ seen); try assumption; try reflexivity.
    + simpl. unfold images_of, texts_of. simpl. rewrite Hpara.
      now rewrite fold_left_app, <- app_assoc.
    + simpl. now rewrite first_text_fold_append.
Qed.

End WalkerInvariants.

Lemma correction_queue_matches_elements_witness :
  exists w',
    walk default_config minutes_blank_closed [] (body minutes_blank_closed)
         (initial_walker (starting_data minutes_blank_closed)) = Ok w'
    /\ paragraphs_to_correct w' = [4; 5]
    /\ paragraphs_to_correct w' = paragraph_refs (elements (w_data w')).
Proof.
  eexists. split; [vm_compute; reflexivity|]. split; [reflexivity|].
  apply (correction_queue_matches_elements
           default_config minutes_blank_closed [] (body minutes_blank_closed)
           (initial_walker (starting_data minutes_blank_closed))).
  - reflexivity.
  - vm_compute. reflexivity.
Defined.

Lemma table_index_bounded_witness :
  exists w',
    walk default_config table_document [] (body table_document)
         (initial_walker (starting_data table_document)) = Ok w'
    /\ table_index w' = 2
    /\ count_tables (elements (w_data w')) = 2.
Proof.
  eexists. split; [vm_compute; reflexivity|].
  pose proof (table_index_bounded
                default_config table_document [] (body table_document)
                (initial_walker (starting_data table_document)) _
                (le_S _ _ (le_S _ _ (le_n 0))) eq_refl) as (Hidx & Hcount & _).
  split; [exact Hidx | exact Hcount].
Defined.

Lemma names_are_only_buffered_witness :
  walk default_config attendee_document [] [par 2; par 3] inside_block
  = Ok {| w_data := w_data inside_block;
          table_index := 0;
          in_present_section := true;
          present_names_buffer := [u "Alice"; u "#Bob"];
          paragraphs_to_correct := [] |}.
Proof.
  refine (eq_trans (names_are_only_buffered
                      default_config attendee_document [] [par 2; par 3]
                      inside_block (u "Titre") eq_refl eq_refl _) _).
  - vm_compute. reflexivity.
  - vm_compute. reflexivity.
Defined.

(** ** The correction pass *)

Section Corrector.
Context {R : Runtime}.
Variable config : Config.
Variable cohere_client : option (list str -> str -> option str).

Lemma concat_emptied (rs : list run) :
  concat (map run_text (map (fun r => set_text r []) rs)) = [].
Proof. induction rs as [|r rs IH]; simpl; auto. Qed.

Lemma first_takes_all (r : run) (rs : list run) (new_text : str) :
  concat (map run_text (set_text r new_text :: map (fun r => set_text r []) rs))
  = new_text.
Proof. simpl. now rewrite concat_emptied, app_nil_r. Qed.

Lemma set_text_all_style (rs : list run) (f : run -> run) :
  (forall r, bold (f r) = bold r /\ italic (f r) = italic r) ->
  map bold (map f rs) = map bold rs /\ map italic (map f rs) = map italic rs.
Proof.
  intros Hf. induction rs as [|r rs [IHb IHi]]; simpl; [auto|].
  destruct (Hf r) as [-> ->]. now rewrite IHb, IHi.
Qed.

(** Once the text is used up, the runs left are emptied. *)
Lemma distribute_loop_empty (total : Z) (new_text : str) (n : nat) (rs : list run) :
  forall i res,
    distribute_loop total new_text n i rs [] = Ok res ->
    concat (map run_text res) = []
    /\ map bold res = map bold rs /\ map italic res = map italic rs.
Proof.
  induction rs as [|r rs IH]; intros i res H; simpl in H.
  - injection H as <-. auto.
  - returned H as rest eqn:E. injection H as <-.
    destruct (IH _ _ E) as (Hc & Hb & Hi). simpl. now rewrite Hc, Hb, Hi.
Qed.

(** The loop hands out the whole of the remaining text, the last run
    taking what is left. *)
Lemma distribute_loop_conserves (total : Z) (new_text : str) (n : nat) (rs : list run) :
  forall i remaining res,
    n = i + length rs -> rs <> [] ->
    distribute_loop total new_text n i rs remaining = Ok res ->
    concat (map run_text res) = remaining
    /\ map bold res = map bold rs /\ map italic res = map italic rs.
Proof.
  induction rs as [|r rs IH]; intros i remaining res Hn Hne H; [contradiction|].
  destruct remaining as [|c remaining].
  { now apply distribute_loop_empty in H. }
  simpl in H. simpl in Hn.
  destruct (i =? n - 1) eqn:Ei.
  - apply Nat.eqb_eq in Ei. destruct rs as [|r' rs]; [|simpl in Hn; lia].
    simpl in H. injection H as <-. simpl. now rewrite app_nil_r.
  - apply Nat.eqb_neq in Ei.
    returned H as k eqn:Ek. returned H as rest eqn:Er. injection H as <-.
    apply IH in Er; [|lia|intros ->; simpl in Hn; lia].
    destruct Er as (Hc & Hb & Hi). simpl.
    now rewrite Hc, Hb, Hi, firstn_skipn.
Qed.

Lemma total_length_sum (rs : list run) (a : Z) :
  fold_left (fun acc r => (acc + len (run_text r))%Z) rs a
  = (a + len (concat (map run_text rs)))%Z.
Proof.
  revert a; induction rs as [|r rs IH]; intros a; simpl.
  - unfold len. simpl. lia.
  - rewrite IH. unfold len. rewrite length_app. lia.
Qed.

Lemma weave_plain (rs : list run) : weave rs [] = concat (map run_text rs).
Proof. induction rs as [|r rs IH]; simpl; [reflexivity | now rewrite IH]. Qed.

(** What [_update_paragraph_text] leaves when it returns. *)
Lemma update_paragraph_text_spec (p p' : paragraph) (new_text : str) :
  _update_paragraph_text p new_text = Ok p' ->
  run_texts p' = new_text
  /\ (runs p <> [] ->
      map bold (runs p') = map bold (runs p)
      /\ map italic (runs p') = map italic (runs p)
      /\ links p' = links p)
  /\ (links p = [] -> links p' = []).
Proof.
  unfold _update_paragraph_text, run_texts.
  intros H. destruct (runs p) as [|r [|r2 rs]] eqn:Hruns.
  - injection H as <-. simpl. rewrite app_nil_r. split; [reflexivity|].
    split; [intros Hne; contradiction|]. now intros ->.
  - injection H as <-. simpl. rewrite app_nil_r. auto.
  - returned H as rs' eqn:E. injection H as <-. cbn [runs links].
    unfold _distribute_text_across_runs in E.
    destruct (_ =? 0)%Z.
    + injection E as <-.
      destruct (set_text_all_style (r2 :: rs) (fun r => set_text r []))
        as [Hb Hi]; [intros; auto|].
      split; [apply (first_takes_all r (r2 :: rs))|].
      split; [|auto]. intros _.
      split; [exact (f_equal (cons (bold r)) Hb)|].
      split; [exact (f_equal (cons (italic r)) Hi) | reflexivity].
    + apply distribute_loop_conserves in E; [|reflexivity|discriminate].
      destruct E as (Hc & Hb & Hi). auto.
Qed.

(** X10: when [_update_paragraph_text] returns, the texts of the runs of
    the paragraph, concatenated, are the new text, whole and once, and a
    paragraph that had runs keeps their number, the bold and italic flag
    of each, and its hyperlinks. The text of the paragraph is the new text
    when the paragraph has no hyperlink; the text of a hyperlink stays
    where it is: for a paragraph of one run, the text of the paragraph
    becomes the new text between the texts of the hyperlinks before and
    after the run. The function returns for every paragraph of at most one
    run and for every paragraph whose runs are all empty. *)
Theorem update_paragraph_text_conserves (p : paragraph) (new_text : str) :
  (forall p',
      _update_paragraph_text p new_text = Ok p' ->
      run_texts p' = new_text
      /\ (links p = [] -> para_text p' = new_text)
      /\ (runs p <> [] ->
          map bold (runs p') = map bold (runs p)
          /\ map italic (runs p') = map italic (runs p)
          /\ links p' = links p))
  /\ (forall r,
         runs p = [r] ->
         exists p',
           _update_paragraph_text p new_text = Ok p'
           /\ para_text p'
              = hd [] (links p) ++ new_text ++ concat (tl (links p)))
  /\ (length (runs p) <= 1 \/ (runs p <> [] /\ run_texts p = []) ->
      exists p', _update_paragraph_text p new_text = Ok p').
Proof.
  split; [|split].
  - intros p' H.
    destruct (update_paragraph_text_spec _ _ _ H) as (Htext & Hstyle & Hlinks).
    split; [exact Htext|]. split; [|exact Hstyle].
    intros Hnone. unfold para_text. rewrite (Hlinks Hnone), weave_plain.
    exact Htext.
  - intros r Hr. unfold _update_paragraph_text. rewrite Hr.
    eexists. split; [reflexivity|]. reflexivity.
  - unfold _update_paragraph_text, run_texts.
    intros [Hlen | [Hne Hempty]].
    + destruct (runs p) as [|r [|r2 rs]]; simpl in Hlen; try lia; eauto.
    + destruct (runs p) as [|r [|r2 rs]] eqn:Hruns; try contradiction; eauto.
      unfold _distribute_text_across_runs.
      rewrite total_length_sum, Hempty. cbn [bind]. simpl. eauto.
Qed.

Lemma update_paragraph_text_conserves_witness :
  (exists p',
      _update_paragraph_text styled_paragraph (u "Note tres importante") = Ok p'
      /\ run_texts p' = u "Note tres importante"
      /\ para_text p' = u "Note tres importante"
      /\ map bold (runs p') = [true; false])
  /\ (exists p',
         _update_paragraph_text linked_paragraph (u "voir ici") = Ok p'
         /\ run_texts p' = u "voir ici"
         /\ para_text p' = u "voir iciici").
Proof.
  split.
  - eexists. split; [vm_compute; reflexivity|].
    destruct (proj1 (update_paragraph_text_conserves
                       styled_paragraph (u "Note tres importante")) _ eq_refl)
      as (Hruns & Htext & Hstyle).
    split; [exact Hruns|]. split; [exact (Htext eq_refl)|].
    apply Hstyle. discriminate.
  - eexists. split; [vm_compute; reflexivity|].
    split; [|reflexivity].
    exact (proj1 (proj1 (update_paragraph_text_conserves
                           linked_paragraph (u "voir ici")) _ eq_refl)).
Defined.

(** X11: with a batch size that is not zero, the batches of
    [correct_paragraphs_batch] are the list of the paragraphs cut in
    order: each paragraph is in exactly one batch, and no batch is empty or
    longer than the batch size. *)
Theorem batches_cover_once (batch_size : nat) (l : list ref) :
  0 < batch_size ->
  concat (batches (length l) batch_size l) = l
  /\ Forall (fun b => 0 < length b <= batch_size)
            (batches (length l) batch_size l).
Proof.
  intros Hsize.
  assert (Hfuel : length l <= length l) by lia.
  revert Hfuel. generalize (length l) at 2 3 4 as fuel. intros fuel.
  revert l. induction fuel as [|fuel IH]; intros l Hl.
  - destruct l; [simpl; auto | simpl in Hl; lia].
  - destruct l as [|x l]; [simpl; auto|].
    cbn [batches].
    destruct (IH (skipn batch_size (x :: l))) as [Hc Hf].
    { rewrite length_skipn. lia. }
    cbn [concat]. rewrite Hc, firstn_skipn. split; [reflexivity|].
    constructor; [|assumption].
    rewrite length_firstn. simpl length. lia.
Qed.

Lemma batches_cover_once_witness :
  concat (batches 5 2 [0; 1; 2; 3; 4]) = [0; 1; 2; 3; 4]
  /\ Forall (fun b => 0 < length b <= 2) (batches 5 2 [0; 1; 2; 3; 4]).
Proof. apply (batches_cover_once 2 [0; 1; 2; 3; 4]). lia. Defined.

Lemma update_length (h : heap) (r : ref) (p : paragraph) :
  length (update h r p) = length h.
Proof.
  revert r; induction h as [|q h IH]; intros [|r]; simpl; auto.
Qed.

Lemma deref_update (h : heap) (r r' : ref) (p : paragraph) :
  deref (update h r p) r'
  = if (r =? r') && (r <? length h) then p else deref h r'.
Proof.
  unfold deref. revert r r'; induction h as [|q h IH]; intros r r'.
  - simpl. rewrite andb_false_r. reflexivity.
  - destruct r as [|r], r' as [|r']; simpl; try reflexivity.
    rewrite IH. reflexivity.
Qed.

Lemma batches_In (batch_size : nat) (fuel : nat) :
  forall l b r, In b (batches fuel batch_size l) -> In r b -> In r l.
Proof.
  induction fuel as [|fuel IH]; intros l b r Hb Hr; [destruct Hb|].
  destruct l as [|x l]; [destruct Hb|]. cbn [batches] in Hb.
  rewrite <- (firstn_skipn batch_size (x :: l)). apply in_or_app.
  destruct Hb as [<- | Hb]; [now left | right; eauto].
Qed.

(** What [apply_corrections] keeps of a property of the paragraphs that
    every update keeps. *)
Lemma apply_corrections_invariant (P : heap -> Prop) :
  forall texts batch h h' n,
    (forall h r p t,
        In r batch -> P h ->
        _update_paragraph_text (deref h r) t = Ok p -> P (update h r p)) ->
    apply_corrections h batch texts = Ok (h', n) ->
    P h -> P h'.
Proof.
  induction texts as [|t texts IH]; intros batch h h' n Hstep H Hh.
  - destruct batch; simpl in H; inversion H; subst; assumption.
  - destruct batch as [|para batch]; [simpl in H; inversion H; subst; assumption|].
    simpl in H. returned H as p eqn:Ep. returned H as [h1 n1] eqn:Er.
    inversion H; subst.
    refine (IH batch _ _ _ _ Er _).
    + intros h0 r p0 t0 Hin. apply Hstep. now right.
    + apply (Hstep h para p (strip t)); [now left | assumption | assumption].
Qed.

Lemma correct_batch_invariant (P : heap -> Prop) (h h' : heap)
      (batch : list ref) (whitelist : list str) (n : nat) :
  (forall h r p t,
      In r batch -> P h ->
      _update_paragraph_text (deref h r) t = Ok p -> P (update h r p)) ->
  _correct_batch config cohere_client h batch whitelist = Ok (h', n) ->
  P h -> P h'.
Proof.
  unfold _correct_batch. intros Hstep H Hh.
  destruct batch as [|b batch]; [inversion H; subst; assumption|].
  destruct (_call_correction_api _ _ _) as [[|c corrected]|];
    try (inversion H; subst; assumption).
  returned H as texts eqn:E.
  exact (apply_corrections_invariant P _ _ _ _ _ Hstep H Hh).
Qed.

Lemma correct_paragraphs_batch_invariant (P : heap -> Prop) (h h' : heap)
      (paragraphs : list ref) :
  (forall h0 r p t,
      In r paragraphs -> strip (para_text (deref h r)) <> [] -> P h0 ->
      _update_paragraph_text (deref h0 r) t = Ok p -> P (update h0 r p)) ->
  correct_paragraphs_batch config cohere_client h paragraphs = Ok h' ->
  P h -> P h'.
Proof.
  unfold correct_paragraphs_batch. intros Hstep H Hh.
  destruct cohere_client as [chat|] eqn:Hclient; [|injection H as <-; assumption].
  set (valid := filter _ paragraphs) in H.
  assert (Hvalid : forall r, In r valid ->
                             In r paragraphs /\ strip (para_text (deref h r)) <> []).
  { intros r Hr. apply filter_In in Hr as [Hin Hne]. split; [assumption|].
    intros Heq. rewrite Heq in Hne. discriminate. }
  clearbody valid.
  destruct valid as [|v valid]; [injection H as <-; assumption|].
  destruct (BATCH_SIZE config =? 0); [discriminate|].
  refine (for_each_preserves _ P _ _ _ _ H Hh).
  intros s batch s' Hbatch Hbody Hs.
  returned Hbody as [h1 n1] eqn:E. injection Hbody as <-.
  rewrite <- Hclient in E.
  refine (correct_batch_invariant P _ _ _ _ _ _ E Hs).
  intros h0 r p t Hr. destruct (Hvalid r (batches_In _ _ _ _ _ Hbatch Hr)).
  now apply Hstep.
Qed.

(** X12: the correction pass touches only the paragraphs it was given, and
    among them only those whose text is not blank: the number of
    paragraphs is kept, and every other paragraph is the object it was. *)
Theorem correction_frame (h h' : heap) (paragraphs : list ref) :
  correct_paragraphs_batch config cohere_client h paragraphs = Ok h' ->
  length h' = length h
  /\ forall r,
       ~ In r paragraphs \/ strip (para_text (deref h r)) = [] ->
       deref h' r = deref h r.
Proof.
  intros H.
  refine (correct_paragraphs_batch_invariant
            (fun h0 => length h0 = length h
                       /\ forall r,
                            ~ In r paragraphs \/ strip (para_text (deref h r)) = [] ->
                            deref h0 r = deref h r)
            h h' paragraphs _ H (conj eq_refl (fun _ _ => eq_refl))).
  intros h0 r p t Hin Hne [Hlen Hframe] _. split.
  - now rewrite update_length.
  - intros r' Hr'. rewrite deref_update.
    destruct (r =? r') eqn:Err; [|now apply Hframe].
    apply Nat.eqb_eq in Err. subst r'. destruct Hr' as [Hr' | Hr']; contradiction.
Qed.

(** X13: the correction pass keeps the formatting: every paragraph that
    has runs keeps their number and the bold and italic flag of each,
    whatever the service answers. *)
Theorem correction_keeps_formatting (h h' : heap) (paragraphs : list ref) :
  correct_paragraphs_batch config cohere_client h paragraphs = Ok h' ->
  forall r,
    runs (deref h r) <> [] ->
    map bold (runs (deref h' r)) = map bold (runs (deref h r))
    /\ map italic (runs (deref h' r)) = map italic (runs (deref h r)).
Proof.
  intros H.
  refine (correct_paragraphs_batch_invariant
            (fun h0 => forall r,
                 runs (deref h r) <> [] ->
                 map bold (runs (deref h0 r)) = map bold (runs (deref h r))
                 /\ map italic (runs (deref h0 r)) = map italic (runs (deref h r)))
            h h' paragraphs _ H (fun _ _ => conj eq_refl eq_refl)).
  intros h0 r p t _ _ Hinv Hupdate r' Hr'. rewrite deref_update.
  destruct ((r =? r') && (r <? length h0)) eqn:Err; [|now apply Hinv].
  apply andb_true_iff in Err as [Err _]. apply Nat.eqb_eq in Err. subst r'.
  destruct (Hinv r Hr') as [Hb Hi].
  destruct (update_paragraph_text_spec _ _ _ Hupdate) as (_ & Hstyle & _).
  destruct Hstyle as (Hb' & Hi' & _).
  { intros Hnil. rewrite Hnil in Hb. destruct (runs (deref h r)); [auto|discriminate]. }
  now rewrite Hb', Hi'.
Qed.

(** The loop of [_correct_batch] applies the texts by position. *)
Lemma apply_corrections_by_position (texts : list str) :
  forall (batch : list ref) (h h' : heap) (n : nat),
    apply_corrections h batch texts = Ok (h', n) ->
    NoDup batch ->
    (forall r, In r batch -> r < length h) ->
    n = Nat.min (length texts) (length batch)
    /\ length h' = length h
    /\ (forall i r t,
           nth_error batch i = Some r -> nth_error texts i = Some t ->
           run_texts (deref h' r) = strip t
           /\ (links (deref h r) = [] -> para_text (deref h' r) = strip t))
    /\ (forall i r,
           nth_error batch i = Some r -> length texts <= i ->
           deref h' r = deref h r)
    /\ (forall r, ~ In r batch -> deref h' r = deref h r).
Proof.
  induction texts as [|t texts IH]; intros batch h h' n H Hdup Hbound.
  - assert (E : h' = h /\ n = 0)
      by (destruct batch; simpl in H; inversion H; auto).
    destruct E as [-> ->].
    split; [reflexivity|]. split; [reflexivity|].
    split; [intros i r0 t0 _ Ht; destruct i; discriminate|]. split; auto.
  - destruct batch as [|r batch].
    { simpl in H. inversion H; subst.
      split; [reflexivity|]. split; [reflexivity|].
      split; [intros i r0 t0 Hb; destruct i; discriminate|]. split; auto. }
    simpl in H. returned H as p eqn:Ep. returned H as [h1 n1] eqn:Er.
    inversion H; subst. clear H.
    inversion Hdup as [|? ? Hnot Hdup']; subst.
    assert (Hr : r < length h) by (apply Hbound; now left).
    destruct (IH batch (update h r p) h' n1 Er Hdup')
      as (Hn & Hlen & Htexts & Hrest & Hframe).
    { intros r' Hr'. rewrite update_length. apply Hbound. now right. }
    assert (Hhere : deref (update h r p) r = p).
    { rewrite deref_update, Nat.eqb_refl.
      apply Nat.ltb_lt in Hr. now rewrite Hr. }
    assert (Hother : forall r', r' <> r -> deref (update h r p) r' = deref h r').
    { intros r' Hne. rewrite deref_update.
      destruct (r =? r') eqn:E; [apply Nat.eqb_eq in E; congruence | reflexivity]. }
    split; [simpl; now rewrite Hn|].
    split; [now rewrite Hlen, update_length|].
    split; [|split].
    + intros [|i] r' t' Hb Ht; simpl in Hb, Ht.
      * injection Hb as <-. injection Ht as <-.
        rewrite (Hframe r Hnot), Hhere.
        destruct (update_paragraph_text_spec _ _ _ Ep) as (Htext & _ & Hlinks).
        split; [exact Htext|]. intros Hnone.
        unfold para_text. rewrite (Hlinks Hnone), weave_plain. exact Htext.
      * destruct (Htexts i r' t' Hb Ht) as [Htext Hplain].
        split; [exact Htext|].
        rewrite Hother in Hplain; [exact Hplain|].
        intros ->. apply Hnot. exact (nth_error_In _ _ Hb).
    + intros [|i] r' Hb Hi; simpl in Hb, Hi; [lia|].
      rewrite (Hrest i r' Hb) by lia. apply Hother.
      intros ->. apply Hnot. exact (nth_error_In _ _ Hb).
    + intros r' Hnotin. rewrite Hframe by (intros Hin; apply Hnotin; now right).
      apply Hother. intros ->. apply Hnotin. now left.
Qed.

(** X23: [_correct_batch] applies the answer of the service by position.
    Either it changes nothing, or the answer, cut at the separator, gives
    texts of which the one at position [i] becomes, stripped, the
    concatenation of the texts of the runs of the paragraph at position
    [i] of the batch, and the text of that paragraph when it has no
    hyperlink; texts beyond the length of the batch are dropped,
    paragraphs beyond the number of texts and paragraphs outside the batch
    are left as they were. The batch holds distinct paragraphs of the
    document. *)
Theorem corrections_apply_by_position (h h' : heap) (batch : list ref)
        (whitelist : list str) (n : nat) :
  _correct_batch config cohere_client h batch whitelist = Ok (h', n) ->
  NoDup batch ->
  (forall r, In r batch -> r < length h) ->
  (n = 0 /\ h' = h)
  \/ exists response texts,
       _call_correction_api cohere_client
         (join (BATCH_SEPARATOR config)
               (map (fun para => strip (para_text (deref h para))) batch))
         whitelist = Some response
       /\ split (BATCH_SEPARATOR config) response = Ok texts
       /\ n = Nat.min (length texts) (length batch)
       /\ (forall i r t,
              nth_error batch i = Some r -> nth_error texts i = Some t ->
              run_texts (deref h' r) = strip t
              /\ (links (deref h r) = [] -> para_text (deref h' r) = strip t))
       /\ (forall i r,
              nth_error batch i = Some r -> length texts <= i ->
              deref h' r = deref h r)
       /\ (forall r, ~ In r batch -> deref h' r = deref h r).
Proof.
  unfold _correct_batch. intros H Hdup Hbound.
  destruct batch as [|b batch]; [left; inversion H; auto|].
  destruct (_call_correction_api _ _ _) as [[|c corrected]|] eqn:Hcall;
    try (left; inversion H; auto; fail).
  returned H as texts eqn:Hsplit.
  right. exists (c :: corrected), texts.
  destruct (apply_corrections_by_position _ _ _ _ _ H Hdup Hbound)
    as (Hn & _ & Htexts & Hrest & Hframe).
  repeat split; try assumption; now apply (Htexts i r t).
Qed.

End Corrector.

Lemma correction_frame_witness :
  exists h',
    correct_paragraphs_batch default_config
      (constant_client (u "Alicia#SEP#Suivant"))
      (paragraphs attendee_document) [2; 4; 5] = Ok h'
    /\ para_text (deref h' 2) = u "Alicia"
    /\ length h' = 6
    /\ deref h' 0 = plain (u "Titre")
    /\ deref h' 4 = plain [].
Proof.
  eexists. split; [vm_compute; reflexivity|]. split; [reflexivity|].
  match goal with
  | |- length ?h' = _ /\ _ =>
      assert (Hrun : correct_paragraphs_batch default_config
                       (constant_client (u "Alicia#SEP#Suivant"))
                       (paragraphs attendee_document) [2; 4; 5] = Ok h')
        by (vm_compute; reflexivity)
  end.
  destruct (correction_frame default_config
              (constant_client (u "Alicia#SEP#Suivant"))
              (paragraphs attendee_document) _ [2; 4; 5] Hrun)
    as [Hlen Hframe].
  split; [exact Hlen|]. split.
  - refine (eq_trans (Hframe 0 (or_introl _)) eq_refl).
    simpl. intuition discriminate.
  - exact (Hframe 4 (or_intror eq_refl)).
Defined.

Lemma corrections_apply_by_position_witness :
  exists h',
    _correct_batch default_config
      (constant_client (u " Alicia #SEP#voir ici#SEP#en trop"))
      (paragraphs attendee_document ++ [linked_paragraph]) [2; 6] [] = Ok (h', 2)
    /\ para_text (deref h' 2) = u "Alicia"
    /\ run_texts (deref h' 6) = u "voir ici"
    /\ para_text (deref h' 6) = u "voir iciici"
    /\ (forall r, ~ In r [2; 6] ->
                  deref h' r
                  = deref (paragraphs attendee_document ++ [linked_paragraph]) r).
Proof.
  eexists. split; [vm_compute; reflexivity|].
  match goal with
  | |- para_text (deref ?h' 2) = _ /\ _ =>
      assert (Hrun : _correct_batch default_config
                       (constant_client (u " Alicia #SEP#voir ici#SEP#en trop"))
                       (paragraphs attendee_document ++ [linked_paragraph])
                       [2; 6] [] = Ok (h', 2))
        by (vm_compute; reflexivity)
  end.
  destruct (corrections_apply_by_position _ _ _ _ _ _ _ Hrun)
    as [[Hn _] | (response & texts & Hcall & Hsplit & _ & Htexts & _ & Hframe)].
  - repeat constructor; simpl; intuition discriminate.
  - intros r [<- | [<- | []]]; simpl; lia.
  - discriminate Hn.
  - vm_compute in Hcall. injection Hcall as <-.
    vm_compute in Hsplit. injection Hsplit as <-.
    split; [exact (proj2 (Htexts 0 2 _ eq_refl eq_refl) eq_refl)|].
    split; [exact (proj1 (Htexts 1 6 _ eq_refl eq_refl))|].
    split; [reflexivity | exact Hframe].
Defined.

Lemma correction_keeps_formatting_witness :
  exists h',
    correct_paragraphs_batch default_config
      (constant_client (u "Note tres importante")) [styled_paragraph] [0] = Ok h'
    /\ para_text (deref h' 0) = u "Note tres importante"
    /\ map bold (runs (deref h' 0)) = [true; false].
Proof.
  eexists. split; [vm_compute; reflexivity|]. split; [reflexivity|].
  match goal with
  | |- map bold (runs (deref ?h' 0)) = _ =>
      assert (Hrun : correct_paragraphs_batch default_config
                       (constant_client (u "Note tres importante"))
                       [styled_paragraph] [0] = Ok h')
        by (vm_compute; reflexivity)
  end.
  refine (proj1 (correction_keeps_formatting default_config
                   (constant_client (u "Note tres importante"))
                   [styled_paragraph] _ [0] Hrun 0 _)).
  discriminate.
Defined.

(** ** The title of the minutes *)

Section Title.
Context {R : Runtime}.

Lemma startswith_prefix (l t : str) :
  startswith l t = true -> t = l ++ skipn (length l) t.
Proof.
  revert t; induction l as [|x l IH]; intros t H; [reflexivity|].
  destruct t as [|y t]; [discriminate|]. simpl in H.
  apply andb_true_iff in H as [Hxy H]. apply chr_eqb_eq in Hxy. subst y.
  simpl. f_equal. now apply IH.
Qed.

Lemma lit_spec (l t r : str) : lit l t = Some r -> t = l ++ r.
Proof.
  unfold lit. destruct (startswith l t) eqn:E; [|discriminate].
  intros H. injection H as <-. now apply startswith_prefix.
Qed.

Lemma first_some_In {A B : Type} (f : A -> option B) (l : list A) (b : B) :
  first_some f l = Some b -> exists x, In x l /\ f x = Some b.
Proof.
  induction l as [|x l IH]; simpl; [discriminate|].
  destruct (f x) as [b'|] eqn:E.
  - intros H. injection H as <-. exists x. auto.
  - intros H. destruct (IH H) as (y & Hin & Hy). exists y. auto.
Qed.

(** A way to read [p+] is not empty and holds only characters of [p]. *)
Lemma runs_of_all (p : char -> bool) (t d r : str) :
  In (d, r) (runs_of p t) -> d <> [] /\ forallb p d = true.
Proof.
  revert d r; induction t as [|c t IH]; intros d r Hin; simpl in Hin; [tauto|].
  destruct (p c) eqn:Hc; [|destruct Hin].
  apply in_app_or in Hin as [Hin | [Hin | []]].
  - apply in_map_iff in Hin as ([d' r'] & E & Hin). simpl in E.
    injection E as <- <-. split; [discriminate|].
    simpl. rewrite Hc. now apply (IH d' r').
  - injection Hin as <- <-. split; [discriminate|]. simpl. now rewrite Hc.
Qed.

Lemma exactly_spec (p : char -> bool) (n : nat) :
  forall t d r,
    exactly p n t = Some (d, r) ->
    t = d ++ r /\ length d = n /\ forallb p d = true.
Proof.
  induction n as [|n IH]; intros t d r H; simpl in H.
  - injection H as <- <-. auto.
  - destruct t as [|c t]; [discriminate|].
    destruct (p c) eqn:Hc; [|discriminate].
    destruct (exactly p n t) as [[d' r']|] eqn:E; [|discriminate].
    injection H as <- <-. destruct (IH _ _ _ E) as (-> & <- & Hall).
    simpl. now rewrite Hc, Hall.
Qed.

(** X14: a title that [parse_title] accepts starts with the documented
    form, and the components are its parts: the meeting number is a
    non-empty run of digits, the anno a non-empty run of Roman numeral
    letters, year, month and day have four, two and two digits, and the
    formatted date is day/month/year. Text after the day is accepted and
    ignored. *)
Theorem parse_title_sound (title : str) (c : title_components) :
  parse_title title = Some c ->
  (exists rest,
      title = u "PV RC " ++ numero_reunion c ++ u " - Anno " ++ anno c
                ++ u " - " ++ annee c ++ u "-" ++ mois c ++ u "-" ++ jour c
                ++ rest)
  /\ (numero_reunion c <> [] /\ forallb isdecimal (numero_reunion c) = true)
  /\ (anno c <> [] /\ forallb is_roman (anno c) = true)
  /\ (length (annee c) = 4 /\ forallb isdecimal (annee c) = true)
  /\ (length (mois c) = 2 /\ forallb isdecimal (mois c) = true)
  /\ (length (jour c) = 2 /\ forallb isdecimal (jour c) = true)
  /\ date_formatee c = jour c ++ u "/" ++ mois c ++ u "/" ++ annee c.
Proof.
  unfold parse_title. intros H.
  destruct (lit (u "PV RC ") title) as [t1|] eqn:E1; [|discriminate].
  apply lit_spec in E1.
  apply first_some_In in H as ([numero r1] & Hnumero & H). cbn [fst snd] in H.
  destruct (lit (u " - Anno ") r1) as [t2|] eqn:E2; [|discriminate].
  apply lit_spec in E2.
  apply first_some_In in H as ([roman r2] & Hroman & H). cbn [fst snd] in H.
  destruct (lit (u " - ") r2) as [t3|] eqn:E3; [|discriminate].
  apply lit_spec in E3.
  destruct (exactly isdecimal 4 t3) as [[y t4]|] eqn:Ey; [|discriminate].
  destruct (lit (u "-") t4) as [t5|] eqn:E5; [|discriminate].
  apply lit_spec in E5.
  destruct (exactly isdecimal 2 t5) as [[m t6]|] eqn:Em; [|discriminate].
  destruct (lit (u "-") t6) as [t7|] eqn:E7; [|discriminate].
  apply lit_spec in E7.
  destruct (exactly isdecimal 2 t7) as [[d rest]|] eqn:Ed; [|discriminate].
  injection H as <-. cbn [numero_reunion anno annee mois jour date_formatee].
  apply exactly_spec in Ey as (Hy & Hylen & Hyall).
  apply exactly_spec in Em as (Hm & Hmlen & Hmall).
  apply exactly_spec in Ed as (Hd & Hdlen & Hdall).
  pose proof (runs_of_split _ _ _ _ Hnumero) as Ht1.
  pose proof (runs_of_all _ _ _ _ Hnumero) as Hdigits.
  assert (Hanno : r1 = u " - Anno " ++ roman ++ r2
                  /\ roman <> [] /\ forallb is_roman roman = true).
  { apply in_app_or in Hroman as [Hlix | Hrun].
    - destruct (lit (u "LIX") t2) as [r|] eqn:El; [|destruct Hlix].
      destruct Hlix as [Hlix | []]. injection Hlix as <- <-.
      apply lit_spec in El. rewrite E2, El.
      split; [reflexivity | split; [discriminate | reflexivity]].
    - pose proof (runs_of_split _ _ _ _ Hrun) as Ht2.
      pose proof (runs_of_all _ _ _ _ Hrun) as Hall.
      rewrite E2, Ht2. split; [reflexivity | assumption]. }
  destruct Hanno as (Hr1 & Hroman').
  split.
  { exists rest.
    rewrite E1, Ht1, Hr1, E3, Hy, E5, Hm, E7, Hd.
    reflexivity. }
  repeat split; try tauto.
Qed.

Lemma lit_app (l r : str) : lit l (l ++ r) = Some r.
Proof.
  unfold lit.
  assert (Hstart : startswith l (l ++ r) = true)
    by (induction l as [|x l IH]; simpl; [|rewrite chr_eqb_refl]; auto).
  rewrite Hstart. f_equal. clear Hstart. induction l as [|x l IH]; simpl; auto.
Qed.

Lemma runs_of_cons (p : char -> bool) (c : char) (t : str) :
  runs_of p (c :: t)
  = if p c
    then map (fun dr => (c :: fst dr, snd dr)) (runs_of p t) ++ [([c], t)]
    else [].
Proof. reflexivity. Qed.

(** The longest way to read [p+] comes first. *)
Lemma runs_of_longest (p : char -> bool) (d r : str) :
  d <> [] -> forallb p d = true ->
  match r with
  | [] => True
  | c :: _ => p c = false
  end ->
  exists tl, runs_of p (d ++ r) = (d, r) :: tl.
Proof.
  induction d as [|c d IH]; intros Hne Hall Hr; [contradiction|].
  simpl in Hall. apply andb_true_iff in Hall as [Hc Hall].
  change ((c :: d) ++ r) with (c :: (d ++ r)). rewrite runs_of_cons, Hc.
  destruct d as [|c' d].
  - assert (Hnone : runs_of p r = [])
      by (destruct r; simpl; [|rewrite Hr]; reflexivity).
    change ([] ++ r) with r. rewrite Hnone. simpl. eauto.
  - destruct IH as [tl Htl]; [discriminate | assumption | assumption |].
    rewrite Htl. simpl. eauto.
Qed.

Lemma exactly_app (p : char -> bool) (d r : str) :
  forallb p d = true -> exactly p (length d) (d ++ r) = Some (d, r).
Proof.
  induction d as [|c d IH]; simpl; intros Hall; [reflexivity|].
  apply andb_true_iff in Hall as [Hc Hall]. now rewrite Hc, IH.
Qed.

(** Two runs of [p] that end at a character outside [p] are the same. *)
Lemma run_boundary_unique (p : char -> bool) (c : char) :
  p c = false ->
  forall d1 d2 r1 r2,
    forallb p d1 = true -> forallb p d2 = true ->
    d1 ++ c :: r1 = d2 ++ c :: r2 -> d1 = d2 /\ r1 = r2.
Proof.
  intros Hc. induction d1 as [|x d1 IH]; intros [|y d2] r1 r2 H1 H2 E;
    simpl in *.
  - injection E as <-. auto.
  - injection E as <- _. apply andb_true_iff in H2 as [H2 _]. congruence.
  - injection E as -> _. apply andb_true_iff in H1 as [H1 _]. congruence.
  - injection E as <- E. apply andb_true_iff in H1 as [_ H1].
    apply andb_true_iff in H2 as [_ H2].
    destruct (IH _ _ _ H1 H2 E) as [-> ->]. auto.
Qed.

Lemma first_some_head {A B : Type} (f : A -> option B) (x : A) (l : list A) (b : B) :
  f x = Some b -> first_some f (x :: l) = Some b.
Proof. intros H. simpl. now rewrite H. Qed.

Lemma first_some_skip {A B : Type} (f : A -> option B) (x : A) (l : list A) :
  f x = None -> first_some f (x :: l) = first_some f l.
Proof. intros H. simpl. now rewrite H. Qed.

(** X15: every title of the documented form is accepted, whatever
    follows the day, and the components are its parts, provided the
    space is not a digit of the runtime. *)
Theorem parse_title_complete (numero roman y m d rest : str) :
  isdecimal 32%N = false ->
  numero <> [] -> forallb isdecimal numero = true ->
  roman <> [] -> forallb is_roman roman = true ->
  length y = 4 -> forallb isdecimal y = true ->
  length m = 2 -> forallb isdecimal m = true ->
  length d = 2 -> forallb isdecimal d = true ->
  parse_title (u "PV RC " ++ numero ++ u " - Anno " ++ roman ++ u " - "
                 ++ y ++ u "-" ++ m ++ u "-" ++ d ++ rest)
  = Some {| numero_reunion := numero;
            anno := roman;
            annee := y;
            mois := m;
            jour := d;
            date_formatee := d ++ u "/" ++ m ++ u "/" ++ y |}.
Proof.
  intros Hspace Hn Hnall Hr Hrall Hy Hyall Hm Hmall Hd Hdall.
  unfold parse_title. rewrite lit_app.
  destruct (runs_of_longest isdecimal numero
              (u " - Anno " ++ roman ++ u " - " ++ y ++ u "-" ++ m ++ u "-"
                 ++ d ++ rest) Hn Hnall Hspace) as [tl Htl].
  rewrite Htl. cbn [first_some fst snd]. rewrite lit_app.
  match goal with
  | |- match ?e with _ => _ end = Some ?c =>
      assert (He : e = Some c); [|now rewrite He]
  end.
  match goal with
  | |- first_some ?f _ = _ => set (inner := f)
  end.
  set (date := u " - " ++ y ++ u "-" ++ m ++ u "-" ++ d ++ rest).
  assert (Hinner : inner (roman, date)
                   = Some {| numero_reunion := numero;
                             anno := roman;
                             annee := y;
                             mois := m;
                             jour := d;
                             date_formatee := d ++ u "/" ++ m ++ u "/" ++ y |}).
  { unfold inner, date. cbn [fst snd]. rewrite lit_app.
    rewrite <- Hy at 1. rewrite (exactly_app isdecimal y _ Hyall), lit_app.
    rewrite <- Hm at 1. rewrite (exactly_app isdecimal m _ Hmall), lit_app.
    rewrite <- Hd at 1. rewrite (exactly_app isdecimal d _ Hdall).
    reflexivity. }
  destruct (runs_of_longest is_roman roman date Hr Hrall eq_refl) as [tl2 Htl2].
  rewrite Htl2.
  destruct (lit (u "LIX") (roman ++ date)) as [r|] eqn:El;
    [|apply first_some_head; exact Hinner].
  destruct (inner (u "LIX", r)) as [c|] eqn:Ec.
  - assert (Hsame : (u "LIX", r) = (roman, date)).
    { unfold inner in Ec. cbn [fst snd] in Ec.
      destruct (lit (u " - ") r) as [t3|] eqn:E3; [|discriminate].
      apply lit_spec in El, E3. subst r.
      destruct (run_boundary_unique is_roman 32%N eq_refl
                  roman (u "LIX")
                  (u "- " ++ y ++ u "-" ++ m ++ u "-" ++ d ++ rest)
                  (u "- " ++ t3) Hrall eq_refl El) as [Hroman Hrest].
      subst roman. unfold date.
      change (u " - " ++ t3) with (32%N :: (u "- " ++ t3)). rewrite <- Hrest.
      reflexivity. }
    apply first_some_head. rewrite Hsame. exact Hinner.
  - refine (eq_trans (first_some_skip inner _ _ Ec) _).
    apply first_some_head. exact Hinner.
Qed.

End Title.

Lemma parse_title_sound_witness :
  exists c,
    parse_title (u "PV RC 12 - Anno LX - 2025-10-06 (brouillon)") = Some c
    /\ numero_reunion c = u "12"
    /\ anno c = u "LX"
    /\ date_formatee c = jour c ++ u "/" ++ mois c ++ u "/" ++ annee c.
Proof.
  eexists. split; [vm_compute; reflexivity|].
  split; [reflexivity|]. split; [reflexivity|].
  match goal with
  | |- date_formatee ?c = _ =>
      assert (Hrun : parse_title (u "PV RC 12 - Anno LX - 2025-10-06 (brouillon)")
                     = Some c) by (vm_compute; reflexivity)
  end.
  exact (proj2 (proj2 (proj2 (proj2 (proj2 (proj2
           (parse_title_sound _ _ Hrun))))))).
Defined.

Lemma parse_title_complete_witness :
  parse_title (u "PV RC " ++ u "7" ++ u " - Anno " ++ u "LIXI" ++ u " - "
                 ++ u "2025" ++ u "-" ++ u "01" ++ u "-" ++ u "27" ++ u " bis")
  = Some {| numero_reunion := u "7";
            anno := u "LIXI";
            annee := u "2025";
            mois := u "01";
            jour := u "27";
            date_formatee := u "27" ++ u "/" ++ u "01" ++ u "/" ++ u "2025" |}.
Proof.
  apply (parse_title_complete (u "7") (u "LIXI") (u "2025") (u "01") (u "27")
                              (u " bis"));
    first [reflexivity | discriminate].
Defined.

(** ** The editable files of the configuration *)

Import ConfigFile.

Section ConfigFiles.
Context {R : Runtime}.

Lemma dict_set_In (d : list (str * str)) (k v k' v' : str) :
  In (k', v') (dict_set d k v) -> (k', v') = (k, v) \/ In (k', v') d.
Proof.
  induction d as [|[k0 v0] d IH]; simpl.
  - intros [H | []]. left. now symmetry.
  - destruct (str_eqb k0 k) eqn:E.
    + apply str_eqb_eq in E. subst k0. intros [H | H]; [left; now symmetry | auto].
    + intros [H | H]; [auto|]. destruct (IH H); auto.
Qed.

Lemma dict_set_keys (d : list (str * str)) (k v : str) :
  map fst (dict_set d k v) = map fst d
  \/ (~ In k (map fst d) /\ map fst (dict_set d k v) = map fst d ++ [k]).
Proof.
  induction d as [|[k0 v0] d IH]; simpl.
  - right. auto.
  - destruct (str_eqb k0 k) eqn:E; [left; reflexivity|].
    destruct IH as [IH | [Hnot IH]]; simpl; rewrite IH; [left; reflexivity|].
    right. split; [|reflexivity].
    intros [H | H]; [|contradiction]. subst k0.
    assert (Hrefl : str_eqb k k = true) by now apply str_eqb_eq.
    congruence.
Qed.

Lemma partition_prefix (sep t a b : str) :
  partition sep t = Some (a, b) -> exists t', t = a ++ t'.
Proof.
  revert a b; induction t as [|c t IH]; intros a b H; simpl in H.
  - destruct (startswith sep []); [|discriminate].
    injection H as <- _. now exists [].
  - destruct (startswith sep (c :: t)).
    + injection H as <- _. now exists (c :: t).
    + destruct (partition sep t) as [[a' b']|] eqn:E; [|discriminate].
      injection H as <- <-. destruct (IH _ _ eq_refl) as [t' ->].
      now exists t'.
Qed.

(** The key read on a line that is not a comment does not start with
    ["#"]. *)
Lemma key_of_stripped_line (line left_ rest : str) (c : char) :
  strip line = c :: rest ->
  startswith (u "#") (strip line) = false ->
  (exists t', strip line = left_ ++ t') ->
  startswith (u "#") (strip left_) = false.
Proof.
  intros Hline Hcomment [t' Hprefix]. rewrite Hline in Hcomment, Hprefix.
  pose proof (strip_head _ _ _ Hline) as Hc.
  destruct left_ as [|x left_].
  - reflexivity.
  - injection Hprefix as <- _.
    unfold strip, lstrip. rewrite (dropwhile_fixed isspace c left_ Hc).
    rewrite (rstrip_cons c left_ Hc). exact Hcomment.
Qed.

(** X16: whatever the file holds, [_read_kv_file] returns the default
    mapping or a mapping read from the file in which the keys are pairwise
    distinct, keys and values are stripped, and no key starts with ["#"]:
    an entry for the character ["#"] cannot be loaded from a file. *)
Theorem read_kv_file_entries (f : file) (default : list (str * str)) :
  _read_kv_file f default = default
  \/ (NoDup (map fst (_read_kv_file f default))
      /\ forall k v,
           In (k, v) (_read_kv_file f default) ->
           startswith (u "#") k = false /\ strip k = k /\ strip v = v).
Proof.
  destruct f as [| |lines]; simpl; auto.
  set (good := fun d : list (str * str) =>
         NoDup (map fst d)
         /\ forall k v, In (k, v) d ->
                        startswith (u "#") k = false /\ strip k = k /\ strip v = v).
  assert (Hstep : forall d line, good d -> good (read_kv_line d line)).
  { intros d line [Hdup Hall]. unfold read_kv_line.
    destruct (strip line) as [|c rest] eqn:Hline; [now split|].
    destruct (startswith (u "#") (c :: rest)) eqn:Hcomment; [now split|].
    set (parts := if contains (u "=>") (c :: rest) then partition (u "=>") (c :: rest)
                  else if contains (u ":") (c :: rest) then partition (u ":") (c :: rest)
                  else if contains (u "=") (c :: rest) then partition (u "=") (c :: rest)
                  else None).
    assert (Hparts : forall a b, parts = Some (a, b) -> exists t', strip line = a ++ t').
    { intros a b. unfold parts. rewrite Hline.
      repeat match goal with
             | |- context [if ?x then _ else _] => destruct x
             end; try discriminate; apply partition_prefix. }
    destruct parts as [[left_ right_]|]; [|now split].
    rewrite <- Hline in Hcomment.
    pose proof (key_of_stripped_line line left_ rest c Hline Hcomment
                  (Hparts _ _ eq_refl)) as Hkey.
    split.
    - destruct (dict_set_keys d (strip left_) (strip right_)) as [-> | [Hnot ->]];
        [assumption|].
      apply NoDup_app; [assumption | repeat constructor; intros [] | ].
      intros k Hk [<- | []]. contradiction.
    - intros k v Hin. apply dict_set_In in Hin as [Heq | Hin]; [|now apply Hall].
      injection Heq as -> ->. now rewrite !strip_idempotent. }
  assert (Hfold : forall d, good d -> good (fold_left read_kv_line lines d)).
  { induction lines as [|line lines IH]; intros d Hd; simpl; [assumption|].
    apply IH, Hstep, Hd. }
  specialize (Hfold [] (conj (NoDup_nil _) (fun _ _ (H : In _ []) => match H with end))).
  destruct (fold_left read_kv_line lines []); [left; reflexivity | right; exact Hfold].
Qed.

(** X17: whatever the file holds, [_read_list_file] returns the default
    list or the stripped lines of the file that are neither empty nor
    comments, in the order of the file. *)
Theorem read_list_file_entries (f : file) (default : list str) :
  _read_list_file f default = default
  \/ exists lines,
       f = Lines lines
       /\ _read_list_file f default
          = filter (fun line => negb (str_eqb line [])
                                && negb (startswith (u "#") line))
                   (map strip lines).
Proof.
  destruct f as [| |lines]; [left; reflexivity | left; reflexivity |].
  unfold _read_list_file.
  assert (Hfold : forall acc,
             fold_left read_list_line lines acc
             = acc ++ filter (fun line => negb (str_eqb line [])
                                          && negb (startswith (u "#") line))
                             (map strip lines)).
  { induction lines as [|line lines IH]; intros acc.
    - simpl. now rewrite app_nil_r.
    - cbn [fold_left map filter]. rewrite IH. unfold read_list_line.
      destruct (strip line) as [|c rest]; [reflexivity|].
      destruct (startswith (u "#") (c :: rest)); [reflexivity|].
      rewrite <- app_assoc. reflexivity. }
  rewrite (Hfold []). cbn [app].
  destruct (filter _ (map strip lines)) eqn:E; [left; reflexivity|].
  right. exists lines. split; [reflexivity | symmetry; exact E].
Qed.

End ConfigFiles.

(** ** The traversal returns *)

Section WalkerTotal.
Context {R : Runtime}.
Variable config : Config.
Variable doc : document.
Variable image_map : list (str * str).

Lemma extract_section_title_returns (text : str) :
  exists title, extract_section_title text = Ok title.
Proof.
  unfold extract_section_title.
  destruct (is_section_header text || is_subsection_header text) eqn:H.
  - destruct (split_once_In 41%N text (header_has_parenthesis text H))
      as (a & b & E).
    rewrite E. eauto.
  - eauto.
Qed.

Lemma remove_duplicate_columns_returns (t : list (list str)) :
  rectangular t -> exists out, remove_duplicate_columns t = Ok out.
Proof.
  intros Hrect. destruct t as [|first rest]; [simpl; eauto|].
  unfold remove_duplicate_columns.
  destruct (length first <=? 1); [eauto|].
  destruct (duplicate_columns_spec (length first) (first :: rest))
    as (removed & Hdup & _).
  { intros row Hrow. apply Hrect; [assumption | now left]. }
  rewrite Hdup. simpl. eauto.
Qed.

Lemma walk_step_returns (w : walker) (e : body_element) :
  (forall t, In t (data_tables (w_data w)) ->
             rectangular (extract_table_data config t)) ->
  exists w', walk_step config doc image_map w e = Ok w'.
Proof.
  intros Htables. unfold walk_step, _process_element.
  destruct e as [|xml r|].
  - destruct (nth_error (data_tables (w_data w)) (table_index w)) as [t|] eqn:Et.
    + destruct (remove_duplicate_columns_returns _ (Htables t (nth_error_In _ _ Et)))
        as [out ->].
      cbn [bind]. eauto.
    + cbn [bind]. eauto.
  - destruct (nth_error (paragraphs doc) r) as [para|]; [|cbn [bind]; eauto].
    destruct (strip (para_text para)) as [|c text].
    + destruct (first_text _); destruct (startswith _ _);
        try destruct (in_present_section w); cbn [bind]; eauto.
    + destruct (extract_section_title_returns (c :: text)) as [title Htitle].
      destruct (first_text _); [|cbn [bind]; eauto].
      destruct (startswith (u "Présents") _); [cbn [bind]; eauto|].
      destruct (in_present_section w).
      * destruct (startswith (u "__") _); cbn [bind]; eauto.
      * destruct (is_section_header _);
          [|destruct (is_subsection_header _)];
          rewrite ?Htitle; cbn [bind]; eauto.
  - cbn [bind]. eauto.
Qed.

(** X18: the traversal returns on every body when the data of every
    table of the document is rectangular: nothing else in a document makes
    it raise. *)
Theorem traversal_returns (els : list body_element) :
  forall w,
    (forall t, In t (data_tables (w_data w)) ->
               rectangular (extract_table_data config t)) ->
    exists w', walk config doc image_map els w = Ok w'.
Proof.
  unfold walk. induction els as [|e els IH]; intros w Htables; simpl; [eauto|].
  destruct (walk_step_returns w e Htables) as [w1 Hstep].
  rewrite Hstep. cbn [bind]. apply IH.
  apply walk_step_delta in Hstep as (_ & _ & _ & Htab & _).
  now rewrite Htab.
Qed.

End WalkerTotal.

Lemma traversal_returns_witness :
  exists w',
    walk default_config table_document [] (body table_document)
         (initial_walker (starting_data table_document)) = Ok w'.
Proof.
  apply (traversal_returns default_config table_document []
                           (body table_document)
                           (initial_walker (starting_data table_document))).
  intros t [<- | [<- | []]]; intros r1 r2 H1 H2; vm_compute in H1, H2;
    intuition subst; reflexivity.
Defined.

(** ** The attendee list *)

Section PresentSection.
Context {R : Runtime}.
Variable config : Config.

Lemma index_position (x : str) (a b : list str) :
  NoDup (a ++ x :: b) -> index x (a ++ x :: b) = length a.
Proof.
  induction a as [|y a IH]; intros Hdup; simpl.
  - assert (Hrefl : str_eqb x x = true) by now apply str_eqb_eq.
    now rewrite Hrefl.
  - simpl in Hdup. inversion Hdup as [|? ? Hnot Hrest]; subst.
    destruct (str_eqb y x) eqn:E.
    + apply str_eqb_eq in E. subst y. exfalso. apply Hnot.
      apply in_or_app. right. now left.
    + f_equal. now apply IH.
Qed.

(** The lines that the loop over the names adds for names that are not
    the last one. *)
Lemma present_lines_before_last (names : list str) :
  NoDup names ->
  forall pre seen post lines,
    names = seen ++ pre ++ post -> post <> [] ->
    fold_left (present_line config names) pre lines
    = lines ++ flat_map (present_entry config (u "\\ ")) pre.
Proof.
  intros Hdup. induction pre as [|x pre IH]; intros seen post lines Hnames Hpost.
  - simpl. now rewrite app_nil_r.
  - cbn [fold_left flat_map].
    rewrite (IH (seen ++ [x]) post);
      [|rewrite Hnames, <- app_assoc; reflexivity|assumption].
    rewrite app_assoc. f_equal.
    unfold present_line, present_entry.
    destruct (escape_latex config (strip x)) as [|c e]; [now rewrite app_nil_r|].
    assert (Hindex : index x names = length seen).
    { pose proof Hdup as Hdup'. rewrite Hnames in Hdup'. rewrite Hnames.
      exact (index_position x seen (pre ++ post) Hdup'). }
    assert (Hlt : (index x names <? length names - 1) = true).
    { apply Nat.ltb_lt. rewrite Hindex, Hnames, !length_app. simpl.
      destruct post; [contradiction | simpl; lia]. }
    now rewrite Hlt.
Qed.

(** X19: when the names are pairwise distinct, every line of the attendee
    list but the last ends with a line break and the last does not; names
    that are blank once escaped have no line. *)
Theorem present_section_line_breaks (init : list str) (last_name : str) :
  NoDup (init ++ [last_name]) ->
  generate_present_section config (init ++ [last_name])
  = join nl ([ u "\section*{Camarades présents :}"; [];
               u "\begin{multicols}{2}" ]
               ++ flat_map (present_entry config (u "\\ ")) init
               ++ present_entry config (u " ") last_name
               ++ [u "\end{multicols}" ++ nl]).
Proof.
  intros Hdup. unfold generate_present_section.
  destruct (init ++ [last_name]) as [|n0 names0] eqn:Hnames;
    [destruct init; discriminate|].
  rewrite <- Hnames in *. rewrite fold_left_app at 1.
  rewrite (present_lines_before_last _ Hdup init [] [last_name]);
    [|reflexivity|discriminate].
  assert (Hindex : index last_name (init ++ [last_name]) = length init)
    by now apply index_position.
  assert (Hge : (index last_name (init ++ [last_name])
                 <? length (init ++ [last_name]) - 1) = false).
  { apply Nat.ltb_ge. rewrite Hindex, length_app. simpl. lia. }
  assert (Hlast : forall lines,
             present_line config (init ++ [last_name]) lines last_name
             = lines ++ present_entry config (u " ") last_name).
  { intros lines. unfold present_line, present_entry.
    destruct (escape_latex config (strip last_name)) as [|c e];
      [now rewrite app_nil_r|].
    now rewrite Hge. }
  cbn [fold_left]. rewrite Hlast, <- !app_assoc. reflexivity.
Qed.

End PresentSection.

Lemma present_section_line_breaks_witness :
  generate_present_section default_config ([u "Alice"; u "  "] ++ [u "Bob"])
  = join nl ([ u "\section*{Camarades présents :}"; [];
               u "\begin{multicols}{2}" ]
               ++ [u " Alice\\ "]
               ++ [u " Bob "]
               ++ [u "\end{multicols}" ++ nl]).
Proof.
  refine (eq_trans (present_section_line_breaks default_config
                      [u "Alice"; u "  "] (u "Bob") _) _).
  - repeat constructor; simpl; intuition discriminate.
  - vm_compute. reflexivity.
Defined.

(** ** The conversion returns *)

Section Pipeline.
Context {R : Runtime}.
Variable config : Config.

Lemma for_each_returns {S A : Type} (body : S -> A -> result S) (P : S -> Prop)
      (items : list A) :
  (forall s x, In x items -> P s -> exists s', body s x = Ok s' /\ P s') ->
  forall s, P s -> exists s', for_each body items s = Ok s' /\ P s'.
Proof.
  induction items as [|x items IH]; intros Hbody s Hs; simpl; [eauto|].
  destruct (Hbody s x (or_introl eq_refl) Hs) as (s1 & -> & Hs1).
  cbn [bind]. apply IH; [|assumption].
  intros s0 y Hy. apply Hbody. now right.
Qed.

Lemma replace_abbreviations_returns (text : str) (begin end_ : bool) :
  abbreviations_total config ->
  exists out, replace_abbreviations config text begin end_ = Ok out.
Proof.
  intros Habbr. unfold replace_abbreviations.
  destruct text as [|c text]; [eauto|].
  match goal with
  | |- exists out, for_each ?body ?items ?init = Ok out =>
      destruct (for_each_returns body (fun _ => True) items) with (s := init)
        as (out & Hout & _); [|exact I|eauto]
  end.
  intros s item Hitem _. destruct (Habbr item s Hitem) as [out Hout]. eauto.
Qed.

Lemma format_paragraph_with_runs_returns (para : paragraph) :
  abbreviations_total config ->
  exists out, _format_paragraph_with_runs config para = Ok out.
Proof.
  intros Habbr. unfold _format_paragraph_with_runs.
  destruct (if mem 58%N (strip (para_text para))
            then split_once 58%N (para_text para) else None)
    as [[before after]|].
  - match goal with
    | |- context [for_each ?body ?items ?init] =>
        destruct (for_each_returns body (fun _ => True) items) with (s := init)
          as ([[i latex_text] bold_part] & -> & _); [|exact I|cbn [bind]; eauto]
    end.
    intros [[i latex_text] bold_part] r _ _. unfold label_run.
    match goal with
    | |- context [replace_abbreviations config ?t ?b ?e] =>
        destruct (replace_abbreviations_returns t b e Habbr) as [out ->]
    end.
    cbn [bind]. eauto.
  - match goal with
    | |- context [for_each ?body ?items ?init] =>
        destruct (for_each_returns body (fun _ => True) items) with (s := init)
          as (latex_text & -> & _); [|exact I|]
    end.
    + intros latex_text r _ _. unfold plain_run.
      match goal with
      | |- context [replace_abbreviations config ?t ?b ?e] =>
          destruct (replace_abbreviations_returns t b e Habbr) as [out ->]
      end.
      cbn [bind].
      match goal with
      | |- context [match ?x with [] => _ | _ :: _ => _ end] => destruct x
      end; eauto.
    + cbn [bind]. destruct (strip latex_text); eauto.
Qed.

Lemma generate_toc_returns (sections subs : list str) (n : nat) :
  length subs = 2 * n ->
  exists toc remaining, generate_toc config sections subs = Ok (toc, remaining).
Proof.
  intros Hlen. unfold generate_toc. destruct sections as [|s0 ss]; [eauto|].
  match goal with
  | |- context [for_each _ ?l (?lines, _)] =>
      destruct (toc_sections_pairs config l lines subs _ Hlen)
        as (lines' & remaining & ->)
  end.
  cbn [bind]. eauto.
Qed.

(** The writing of one element returns as long as the outline is whole
    or already consumed. *)
Lemma write_element_returns (sections : list str) (h : heap) (w : writer)
      (e : element) :
  abbreviations_total config ->
  toc_inserted w = true \/ (exists n, length (subsections w) = 2 * n) ->
  exists w',
    write_element config sections h w e = Ok w'
    /\ (toc_inserted w' = true \/ exists n, length (subsections w') = 2 * n).
Proof.
  intros Habbr Hw.
  assert (Hchain :
            exists w',
              (if is_start_text e || present_inserted w then
                 match toc_inserted w, sections with
                 | false, _ :: _ =>
                     '(toc, remaining) <- generate_toc config sections (subsections w) ;;
                     Ok {| written := written w ++ toc ++ generate_logo_section config;
                           toc_inserted := true;
                           present_inserted := false;
                           subsections := remaining |}
                 | _, _ =>
                     Ok {| written := written w; toc_inserted := toc_inserted w;
                           present_inserted := false; subsections := subsections w |}
                 end
               else
                 match e with
                 | section_element title _ => Ok (write w (generate_section config title))
                 | subsection_element title _ =>
                     Ok (write w (generate_subsection config title))
                 | paragraph_element para =>
                     text <- _format_paragraph_with_runs config (deref h para) ;;
                     Ok (write w text)
                 | _ => Ok w
                 end) = Ok w'
              /\ (toc_inserted w' = true
                  \/ exists n, length (subsections w') = 2 * n)).
  { destruct (is_start_text e || present_inserted w).
    - destruct (toc_inserted w) eqn:Htoc; [eexists; split; [reflexivity|now left]|].
      destruct sections as [|s0 ss]; [eexists; split; [reflexivity|exact Hw]|].
      destruct Hw as [Hw | [n Hn]]; [discriminate|].
      destruct (generate_toc_returns (s0 :: ss) _ n Hn) as (toc & remaining & ->).
      cbn [bind]. eexists; split; [reflexivity | now left].
    - destruct e; try (eexists; split; [reflexivity | exact Hw]).
      match goal with
      | |- context [_format_paragraph_with_runs config ?p] =>
          destruct (format_paragraph_with_runs_returns p Habbr) as [text ->]
      end.
      cbn [bind]. eexists; split; [reflexivity | exact Hw]. }
  destruct e; try exact Hchain;
    simpl; eexists; (split; [reflexivity | exact Hw]).
Qed.

Lemma outline_fold_append (l : list element) (d : data) :
  sections_list (fold_left append_element l d) = sections_list d
  /\ subsections_list (fold_left append_element l d) = subsections_list d.
Proof.
  revert d; induction l as [|i l IHl]; intros d; simpl; [auto|].
  destruct (IHl (append_element d i)) as [-> ->]. auto.
Qed.

(** The traversal leaves the outline of the dictionary as it is. *)
Lemma walk_step_outline (doc : document) (image_map : list (str * str))
      (w w' : walker) (e : body_element) :
  walk_step config doc image_map w e = Ok w' ->
  sections_list (w_data w') = sections_list (w_data w)
  /\ subsections_list (w_data w') = subsections_list (w_data w).
Proof.
  unfold walk_step, _process_element. intros H.
  destruct e as [|xml r|].
  - destruct (nth_error (data_tables (w_data w)) (table_index w)).
    + returned H as table_data eqn:E. injection H as <-. simpl. auto.
    + cbn [bind] in H. injection H as <-. simpl. auto.
  - pose proof (outline_fold_append
                  (image_elements image_map xml 0 (rids xml)) (w_data w))
      as [Hs Hn].
    destruct (nth_error (paragraphs doc) r) as [para|].
    2:{ cbn [bind] in H. injection H as <-. simpl. auto. }
    destruct (first_text _) as [seen|];
      destruct (strip (para_text para)) as [|c text];
      try (destruct (startswith (u "Présents") _);
           [|destruct (in_present_section w);
             [try destruct (startswith (u "__") _)
             |try (destruct (is_section_header _);
                   [destruct (extract_section_title _)
                   |destruct (is_subsection_header _);
                    [destruct (extract_section_title _)|]])]]);
      cbn [bind] in H; try discriminate H; injection H as <-; simpl; auto.
  - cbn [bind] in H. injection H as <-. simpl. auto.
Qed.


End Pipeline.

(** The interpreted patterns never match the empty word: with them the
    substitution of the abbreviations returns on every text, whatever the
    mapping. *)
Lemma ordered_spans_from (pos pos' stop : nat) (spans : list (nat * nat)) :
  pos' <= pos -> ordered_spans pos stop spans -> ordered_spans pos' stop spans.
Proof. destruct spans as [|[a b] spans]; simpl; intuition lia. Qed.

Lemma sub_spans_returns (f : str -> result str) :
  (forall word, word <> [] -> exists r, f word = Ok r) ->
  forall spans pos t,
    ordered_spans pos (pos + length t) spans ->
    exists out, sub_spans f spans pos t = Ok out.
Proof.
  intros Hf. induction spans as [|[a b] spans IH]; intros pos t H; simpl; [eauto|].
  destruct H as (Hpa & Hab & Hstop & Hrest).
  destruct (Hf (firstn (b - a) (skipn (a - pos) t))) as [r ->].
  { intros E. apply (f_equal (@length char)) in E.
    rewrite length_firstn, length_skipn in E. simpl in E. lia. }
  cbn [bind].
  destruct (IH b (skipn (b - pos) t)) as [rest ->]; [|cbn [bind]; eauto].
  destruct spans as [|[a' b'] spans]; [exact I|].
  destruct Hrest as (H1 & H2 & H3 & H4). rewrite length_skipn.
  replace (b + (length t - (b - pos))) with (pos + length t) by lia.
  simpl. auto.
Qed.

Lemma word_spans_ordered (word : str) :
  1 <= length word ->
  forall t pos prev skip,
    ordered_spans (pos + skip) (pos + length t)
                  (Latin1.word_spans word pos prev skip t).
Proof.
  intros Hword. induction t as [|c t IH]; intros pos prev skip; [exact I|].
  cbn [Latin1.word_spans]. destruct skip as [|k].
  - match goal with
    | |- context [if ?x then _ else _] => destruct x
    end.
    + cbn [ordered_spans]. repeat split; try (simpl; lia).
      apply (ordered_spans_from (S pos + (length word - 1))); [lia|].
      replace (pos + length (c :: t)) with (S pos + length t) by (simpl; lia).
      apply IH.
    + apply (ordered_spans_from (S pos + 0)); [lia|].
      replace (pos + length (c :: t)) with (S pos + length t) by (simpl; lia).
      apply IH.
  - replace (pos + S k) with (S pos + k) by lia.
    replace (pos + length (c :: t)) with (S pos + length t) by (simpl; lia).
    apply IH.
Qed.

Lemma interpreted_abbreviations_total (config : Config) :
  forallb (fun item => Latin1.interpreted (fst item)) (ABBREVIATIONS config) = true ->
  abbreviations_total config.
Proof.
  intros Hall [pattern replacement] text Hin. unfold re_sub_ignorecase.
  cbn [fst snd].
  assert (Hform : Latin1.interpreted pattern = true)
    by exact (proj1 (forallb_forall _ _) Hall _ Hin).
  change (re_spans_ignorecase pattern text)
    with (Latin1.re_spans_ignorecase pattern text).
  unfold Latin1.re_spans_ignorecase. rewrite Hform.
  apply sub_spans_returns.
  - intros [|c word] Hne; [contradiction|]. simpl. eauto.
  - unfold Latin1.interpreted in Hform. cbv zeta in Hform.
    apply andb_true_iff in Hform as [Hform _].
    apply andb_true_iff in Hform as [_ Hlen]. apply Nat.ltb_lt in Hlen.
    apply (word_spans_ordered _) with (pos := 0) (skip := 0).
    rewrite length_firstn, length_skipn. lia.
Qed.


(** ** Where the table of contents comes from *)

Section Contents.
Context {R : Runtime}.
Variable config : Config.

Lemma write_element_plain (sections : list str) (h : heap) (w w' : writer)
      (e : element) :
  opens_contents e = false ->
  present_inserted w = false ->
  write_element config sections h w e = Ok w' ->
  toc_inserted w' = toc_inserted w
  /\ subsections w' = subsections w
  /\ present_inserted w' = false.
Proof.
  intros He Hp H.
  destruct e as [text|table_data|path wd ht|names|text|title p|title p|p];
    try discriminate He; simpl in H; rewrite ?Hp in H; simpl in H;
    first [ injection H as <-
          | returned H as formatted eqn:E; injection H as <- ];
    simpl; auto.
Qed.

Lemma write_element_marker (sections : list str) (h : heap) (w w' : writer)
      (text : str) :
  sections <> [] ->
  write_element config sections h w (start_text_element text) = Ok w' ->
  toc_inserted w' = true.
Proof.
  intros Hs H. simpl in H. destruct (toc_inserted w) eqn:Htoc.
  - injection H as <-. reflexivity.
  - destruct sections as [|s0 ss]; [contradiction|].
    returned H as [toc remaining] eqn:E. injection H as <-. reflexivity.
Qed.

(** X21: the table of contents is written only at an attendee list or a
    start marker: over elements that hold neither, the renderer inserts no
    table of contents and leaves the outline alone; and once a start
    marker has been rendered for a document that has sections, the table
    of contents is in the output. *)
Theorem contents_need_a_marker (sections : list str) (h : heap)
        (els : list element) (w w' : writer) :
  for_each (write_element config sections h) els w = Ok w' ->
  (present_inserted w = false ->
   forallb (fun e => negb (opens_contents e)) els = true ->
   toc_inserted w' = toc_inserted w
   /\ subsections w' = subsections w
   /\ present_inserted w' = false)
  /\ (forall text,
         In (start_text_element text) els -> sections <> [] ->
         toc_inserted w' = true).
Proof.
  intros H. split.
  - intros Hp Hels.
    refine (for_each_preserves _
              (fun s => toc_inserted s = toc_inserted w
                        /\ subsections s = subsections w
                        /\ present_inserted s = false)
              _ _ _ _ H (conj eq_refl (conj eq_refl Hp))).
    intros s e s' Hin Hstep (Htoc & Hsubs & Hpres).
    assert (He : opens_contents e = false).
    { apply negb_true_iff. exact (proj1 (forallb_forall _ _) Hels e Hin). }
    destruct (write_element_plain _ _ _ _ _ He Hpres Hstep) as (-> & -> & ->).
    auto.
  - intros text Hin Hs.
    apply in_split in Hin as (l1 & l2 & ->).
    rewrite for_each_app in H. returned H as w1 eqn:E1.
    cbn [for_each] in H. returned H as w2 eqn:E2.
    apply (write_element_marker _ _ _ _ text Hs) in E2.
    refine (for_each_preserves _ (fun s => toc_inserted s = true) _ _ _ _ H E2).
    intros s e s' _ Hstep Htoc.
    exact (proj1 (proj1 (proj2 (write_element_latches config _ _ _ _ _ Hstep)) Htoc)).
Qed.

End Contents.

Lemma contents_need_a_marker_witness :
  exists w',
    for_each (write_element default_config [u "budget"] (paragraphs minutes_without_attendees))
             (elements data_without_attendees)
             (writer_with [u "budget"; u "divers"]) = Ok w'
    /\ toc_inserted w' = false
    /\ subsections w' = [u "budget"; u "divers"].
Proof.
  eexists. split; [vm_compute; reflexivity|].
  match goal with
  | |- toc_inserted ?w' = _ /\ _ =>
      assert (Hrun : for_each (write_element default_config [u "budget"]
                                 (paragraphs minutes_without_attendees))
                              (elements data_without_attendees)
                              (writer_with [u "budget"; u "divers"]) = Ok w')
        by (vm_compute; reflexivity)
  end.
  destruct (proj1 (contents_need_a_marker default_config _ _ _ _ _ Hrun)
                  eq_refl eq_refl) as (Htoc & Hsubs & _).
  split; [exact Htoc | exact Hsubs].
Defined.

(** ** Final punctuation *)

Section Punctuation.
Context {R : Runtime}.

Lemma rstrip_closed (t : str) (c : char) :
  isspace c = false -> rstrip (t ++ [c]) = t ++ [c].
Proof.
  intros Hc. unfold rstrip. rewrite rev_app_distr. simpl. rewrite Hc.
  simpl. now rewrite rev_involutive.
Qed.

(** X22: on a text that is not empty, [ensure_punctuation] returns a text
    that ends, white space apart, with a full stop, a question mark or an
    exclamation mark, and it changes nothing when applied again, provided
    the full stop is not white space for the runtime. *)
Theorem ensure_punctuation_closes (text : str) :
  isspace 46%N = false ->
  text <> [] ->
  ends_with_punctuation (rstrip (ensure_punctuation text)) = true
  /\ ensure_punctuation (ensure_punctuation text) = ensure_punctuation text.
Proof.
  intros Hdot Hne. unfold ensure_punctuation at 1 3 4.
  destruct text as [|c t]; [contradiction|].
  destruct (ends_with_punctuation (rstrip (c :: t))) eqn:E; cbn [negb].
  - split; [exact E|]. unfold ensure_punctuation. now rewrite E.
  - assert (Hclosed : rstrip (rstrip (c :: t) ++ u ".") = rstrip (c :: t) ++ u ".")
      by (apply rstrip_closed; exact Hdot).
    assert (Hends : ends_with_punctuation (rstrip (c :: t) ++ u ".") = true).
    { unfold ends_with_punctuation, endswith. rewrite rev_app_distr.
      reflexivity. }
    rewrite Hclosed. split; [exact Hends|].
    unfold ensure_punctuation.
    destruct (rstrip (c :: t) ++ u ".") as [|x y] eqn:Ey;
      [apply app_eq_nil in Ey as [_ Ey]; discriminate|].
    now rewrite Hclosed, Hends.
Qed.

End Punctuation.

Lemma ensure_punctuation_closes_witness :
  ensure_punctuation (u "Fin de la reunion  ") = u "Fin de la reunion."
  /\ ensure_punctuation (ensure_punctuation (u "Fin de la reunion  "))
     = ensure_punctuation (u "Fin de la reunion  ").
Proof.
  split; [reflexivity|].
  apply (ensure_punctuation_closes (u "Fin de la reunion  ")); [reflexivity | discriminate].
Defined.
